(** * webserv_tester: a shallow embedding of [testers/webserv_tester.py]

    The development follows the script:

    - [PyStr]: the string primitives the script relies on ([str.split],
      [int], [str] of an integer, the whitespace and digit classes);
    - [Re]: a backtracking matcher for the fragment of Python's [re] syntax
      the three patterns of [parse_config] use, with [re.split] and
      [re.findall];
    - [Tester]: the script's functions, in a state-and-exit monad over an
      explicit world (the configuration file and the shell);
    - the configuration grammar, stated on the text, and the lists of
      commands a run is expected to hand to the shell;
    - the proofs: the matcher against the meaning of its patterns, the
      scan, [parse_config], and the runs of [main].

    [HeaderRemover] embeds [42header_remover/42header_remover.py] the
    same way, over a world of paths that lead to files; [HeaderSpec] says
    what it is to do, and the last part proves it.

    Text is a list of code points below 256 ([ascii]); on that range the
    classes [\s] and [\d] and [str.split] agree with CPython's tables.
    Python integers are [Z]; [int] and [str] convert exactly up to the
    4300 digits CPython allows by default, and raise beyond. *)

From Stdlib Require Import List Ascii String ZArith NArith Lia Bool Arith Sorted.
From Stdlib Require DecimalString DecimalFacts DecimalPos DecimalZ DecimalN.
Import DecimalString.
Import ListNotations.

(* ================================================================== *)
(** * Python strings *)
(* ================================================================== *)

Module PyStr.

Definition text := list ascii.

(** A string literal of the script. *)
Definition lit (s : string) : text := list_ascii_of_string s.
Arguments lit s%_string.

(** The double quote (a literal cannot hold it). *)
Definition dq : text := [ascii_of_nat 34].
(** The line feed, [\n]. *)
Definition nl : text := [ascii_of_nat 10].
(** The backslash. *)
Definition bsl : text := [ascii_of_nat 92].
(** [quoted s] is [s] between double quotes. *)
Definition quoted (s : text) : text := dq ++ s ++ dq.

(** [Py_UNICODE_ISSPACE] on code points below 256: TAB..CR, FS..US, SPACE,
    NEL and NBSP.  Both [\s] and [str.split()] use it. *)
Definition isspace (c : ascii) : bool :=
  let n := nat_of_ascii c in
  ((9 <=? n) && (n <=? 13)) || ((28 <=? n) && (n <=? 32))
  || (n =? 133) || (n =? 160).

(** [Py_UNICODE_ISDECIMAL] on code points below 256: the ten ASCII digits. *)
Definition isdecimal (c : ascii) : bool :=
  let n := nat_of_ascii c in (48 <=? n) && (n <=? 57).

Definition digit_value (c : ascii) : Z := Z.of_nat (nat_of_ascii c) - 48.

(** [str.split()] without arguments: the maximal runs of non-whitespace.
    [word] is the run being read. *)
Fixpoint split_from (s : text) (word : text) : list text :=
  match s with
  | [] => match word with [] => [] | _ => [word] end
  | c :: s' =>
      if isspace c
      then match word with
           | [] => split_from s' []
           | _ => word :: split_from s' []
           end
      else split_from s' (word ++ [c])
  end.

Definition split (s : text) : list text := split_from s [].

(** [sys.get_int_max_str_digits()] as CPython sets it by default (3.11
    and later): the most digits a conversion between [int] and [str]
    accepts. *)
Definition INT_MAX_STR_DIGITS : nat := 4300.

(** [int(s)] on a string of decimal digits; [None] stands for the
    [ValueError] Python raises.  The script only converts what [(\d+)]
    captured, so signs, underscores and surrounding blanks (which Python
    would also accept) are left out of the domain.  A string of more than
    [INT_MAX_STR_DIGITS] digits, leading zeros counted, is refused. *)
Definition int_digits (s : text) : Z :=
  fold_left (fun acc c => 10 * acc + digit_value c)%Z s 0%Z.

Definition int (s : text) : option Z :=
  match s with
  | [] => None
  | _ =>
      if forallb isdecimal s && (List.length s <=? INT_MAX_STR_DIGITS)
      then Some (int_digits s)
      else None
  end.

(** The digits [str(n)] gives for an integer, as an f-string field renders
    it. *)
Definition str (n : Z) : text := lit (NilEmpty.string_of_int (Z.to_int n)).

(** Whether [str(n)] returns them: it raises [ValueError] when [n] has
    more than [INT_MAX_STR_DIGITS] digits. *)
Definition str_fits (n : Z) : bool :=
  List.length (str (Z.abs n)) <=? INT_MAX_STR_DIGITS.

(** [", ".join(xs)] *)
Fixpoint join (sep : text) (xs : list text) : text :=
  match xs with
  | [] => []
  | [x] => x
  | x :: rest => x ++ sep ++ join sep rest
  end.

(** [repr] of a list, given the [repr] of its items. *)
Definition repr_list {A} (item : A -> text) (xs : list A) : text :=
  lit "[" ++ join (lit ", ") (map item xs) ++ lit "]".

(** [s.startswith(p)], returning what follows the prefix. *)
Fixpoint strip_prefix (p s : text) : option text :=
  match p, s with
  | [], _ => Some s
  | a :: p', b :: s' => if Ascii.eqb a b then strip_prefix p' s' else None
  | _ :: _, [] => None
  end.

End PyStr.

(* ================================================================== *)
(** * The regular expressions of [parse_config] *)
(* ================================================================== *)

Module Re.
Import PyStr.

(** One-character classes. *)
Inductive cclass :=
| Space                 (* \s *)
| Digit                 (* \d *)
| NotChar (c : ascii).  (* [^c] *)

Definition cc_match (k : cclass) (c : ascii) : bool :=
  match k with
  | Space => isspace c
  | Digit => isdecimal c
  | NotChar x => negb (Ascii.eqb x c)
  end.

(** The fragment of the pattern language in use: literal text, a greedy
    repetition of a class (at least [min] times: [*] is 0, [+] is 1),
    sequencing, and one capturing group. *)
Inductive regex :=
| Lit (s : string)
| Rep (k : cclass) (min : nat)
| Seq (r1 r2 : regex)
| Group (r : regex).

Declare Scope re_scope.
Delimit Scope re_scope with re.
Infix "@@" := Seq (at level 41, right associativity) : re_scope.

(** [server\s*{] *)
Definition re_server : regex :=
  (Lit "server" @@ Rep Space 0 @@ Lit "{")%re.
(** [listen\s+(\d+);] *)
Definition re_listen : regex :=
  (Lit "listen" @@ Rep Space 1 @@ Group (Rep Digit 1) @@ Lit ";")%re.
(** [server_name\s+([^;]+);] *)
Definition re_server_name : regex :=
  (Lit "server_name" @@ Rep Space 1 @@ Group (Rep (NotChar ";") 1) @@ Lit ";")%re.

Section Matcher.
Variable A : Type.

(** Greedy repetition with backtracking: take as many characters of the
    class as there are, then give them back one at a time until the rest
    of the pattern ([k]) succeeds. *)
Fixpoint rep (c : cclass) (min : nat) (s : text)
         (k : text -> option A) : option A :=
  let stop := if min =? 0 then k s else None in
  match s with
  | x :: s' =>
      if cc_match c x
      then match rep c (pred min) s' k with
           | Some r => Some r
           | None => stop
           end
      else stop
  | [] => stop
  end.

(** [exec r s g k]: match [r] at the head of [s]; [g] is the text of the
    group so far, [k] the rest of the pattern. *)
Fixpoint exec (r : regex) (s : text) (g : option text)
         (k : text -> option text -> option A) : option A :=
  match r with
  | Lit l =>
      match strip_prefix (lit l) s with
      | Some s' => k s' g
      | None => None
      end
  | Rep c min => rep c min s (fun s' => k s' g)
  | Seq r1 r2 => exec r1 s g (fun s' g' => exec r2 s' g' k)
  | Group r1 =>
      exec r1 s g
           (fun s' _ => k s' (Some (firstn (List.length s - List.length s') s)))
  end.
End Matcher.
Arguments rep {A} c min s k.
Arguments exec {A} r s g k.

(** A match: its length and the text of the group, if the pattern has one. *)
Definition found := (nat * option text)%type.

(** [pattern.match(s)]: the match of [r] at the head of [s], if any. *)
Definition match_here (r : regex) (s : text) : option found :=
  exec r s None (fun s' g => Some (List.length s - List.length s', g)).

(** What a scan yields: each match (its text and group) with the text
    between it and the previous match, then the text after the last one. *)
Definition scanned := (list (text * (text * option text)) * text)%type.

(** One more character before the first match. *)
Definition push (c : ascii) (res : scanned) : scanned :=
  match res with
  | ([], last) => ([], c :: last)
  | ((gap, m) :: items, last) => ((c :: gap, m) :: items, last)
  end.

Definition pushes (g : text) (res : scanned) : scanned := fold_right push res g.

(** The scan behind [re.split] and [re.findall]: matches are sought left
    to right and do not overlap; [skip] counts the characters of the last
    match still to pass.  (A match of length zero is recorded and the scan
    moves on by one character; the patterns above never produce one, each
    starts with a literal.) *)
Fixpoint scan (r : regex) (s : text) (skip : nat) : scanned :=
  match s with
  | [] =>
      match skip, match_here r [] with
      | 0, Some (_, g) => ([([], ([], g))], [])
      | _, _ => ([], [])
      end
  | c :: s' =>
      match skip with
      | S n => scan r s' n
      | 0 =>
          match match_here r s with
          | Some (0, g) =>
              let '(items, last) := push c (scan r s' 0) in
              (([], ([], g)) :: items, last)
          | Some (S n, g) =>
              let '(items, last) := scan r s' n in
              (([], (firstn (S n) s, g)) :: items, last)
          | None => push c (scan r s' 0)
          end
      end
  end.

(** [re.split(r, s)] for a pattern without a group. *)
Definition split (r : regex) (s : text) : list text :=
  let '(items, last) := scan r s 0 in map fst items ++ [last].

(** [re.findall(r, s)]: the group of each match, or the whole match when
    the pattern has no group. *)
Definition findall (r : regex) (s : text) : list text :=
  map (fun it => match snd (snd it) with
                 | Some g => g
                 | None => fst (snd it)
                 end)
      (fst (scan r s 0)).

(** Every offset of [s] at which the pattern matches, in increasing order,
    with the match found there; offsets count from [i]. *)
Fixpoint matches_from (r : regex) (s : text) (i : nat) : list (nat * found) :=
  let here := match match_here r s with
              | Some m => [(i, m)]
              | None => []
              end in
  match s with
  | [] => here
  | _ :: s' => here ++ matches_from r s' (S i)
  end.

(** The text of the group of a match. *)
Definition group_text (m : nat * found) : text :=
  match snd (snd m) with Some g => g | None => [] end.

(** What a pattern matches, without reference to the search order: [denotes
    r t g g'] when [r] can match exactly the text [t], turning the group
    [g] into [g']. *)
Inductive denotes : regex -> text -> option text -> option text -> Prop :=
| denotes_lit l g : denotes (Lit l) (lit l) g g
| denotes_rep c min t g :
    min <= List.length t -> forallb (cc_match c) t = true ->
    denotes (Rep c min) t g g
| denotes_seq r1 r2 t1 t2 g g' g'' :
    denotes r1 t1 g g' -> denotes r2 t2 g' g'' ->
    denotes (Seq r1 r2) (t1 ++ t2) g g''
| denotes_group r t g g' :
    denotes r t g g' -> denotes (Group r) t g (Some t).

End Re.

(* ================================================================== *)
(** * The tester *)
(* ================================================================== *)

Module Tester.
Import PyStr.

(** ** The world outside the script *)

(** What [open(path, 'r')] followed by [f.read()] does. *)
Inductive read_outcome :=
| ReadOk (content : text)
| ReadNotFound                 (* FileNotFoundError *)
| ReadError (msg : text).      (* any other exception, with its [str] *)

(** What [subprocess.run(command, shell=True, capture_output=True,
    text=True, timeout=timeout)] does. *)
Inductive run_outcome :=
| Completed (returncode : Z) (stdout stderr : text)
| TimeoutExpired
| RunError (msg : text).       (* any other exception, with its [str] *)

(** One call of [subprocess.run]: the command line and its timeout. *)
Record call := { command : text; timeout : Z }.

(** The file system and the shell.  What a command does may depend on the
    commands run before it. *)
Record world := {
  open_read : text -> read_outcome;
  subprocess_run : list call -> call -> run_outcome
}.

(** ** State and control *)

Inductive level := INFO | ERROR.

(** What the script does to its surroundings: the records it logs and the
    commands it hands to the shell, oldest first. *)
Record state := { logs : list (level * text); calls : list call }.

Definition initial : state := {| logs := []; calls := [] |}.

(** The exception of the script that no handler catches. *)
Inductive exception := ValueError.

(** A function of the script returns, leaves through [sys.exit], or is
    left by an exception nothing catches. *)
Inductive result (A : Type) :=
| Ok (a : A)
| SysExit (code : Z)
| Raised (e : exception).
Arguments Ok {A} a.
Arguments SysExit {A} code.
Arguments Raised {A} e.

Definition M (A : Type) := state -> result A * state.

Definition ret {A} (a : A) : M A := fun st => (Ok a, st).

Definition bind {A B} (m : M A) (f : A -> M B) : M B :=
  fun st =>
    match m st with
    | (Ok a, st') => f a st'
    | (SysExit code, st') => (SysExit code, st')
    | (Raised e, st') => (Raised e, st')
    end.

Notation "x <- m ;; k" := (bind m (fun x => k))
  (at level 61, m at next level, right associativity).
Notation "' pat <- m ;; k" := (bind m (fun x => match x with pat => k end))
  (at level 61, pat pattern, m at next level, right associativity).
Notation "m ;; k" := (bind m (fun _ => k))
  (at level 61, right associativity).

Definition sys_exit {A} (code : Z) : M A := fun st => (SysExit code, st).

Definition raise {A} (e : exception) : M A := fun st => (Raised e, st).

Definition log (l : level) (msg : text) : M unit :=
  fun st => (Ok tt, {| logs := logs st ++ [(l, msg)]; calls := calls st |}).

(** [for x in xs: body] *)
Fixpoint for_ {X} (xs : list X) (body : X -> M unit) : M unit :=
  match xs with
  | [] => ret tt
  | x :: xs' => body x ;; for_ xs' body
  end.

(** [enumerate(xs)] *)
Fixpoint enumerate_from {X} (i : nat) (xs : list X) : list (nat * X) :=
  match xs with
  | [] => []
  | x :: xs' => (i, x) :: enumerate_from (S i) xs'
  end.
Definition enumerate {X} (xs : list X) := enumerate_from 0 xs.

(** ** [parse_config] *)

Definition CONFIG_FILE_PATH : text := lit "config/multi.conf".

(** One entry of [servers]: the dictionary with keys ['ports'] and
    ['server_names']. *)
Record server := { ports : list Z; server_names : list text }.

(** [[int(port) for port in ports]]; [inl s] when [int(s)] raises. *)
Fixpoint ints (ss : list text) : text + list Z :=
  match ss with
  | [] => inr []
  | s :: rest =>
      match int s with
      | None => inl s
      | Some n =>
          match ints rest with
          | inl bad => inl bad
          | inr ns => inr (n :: ns)
          end
      end
  end.

(** The body of the [for block in server_blocks] loop. *)
Definition parse_block (block : text) : text + server :=
  let ports := Re.findall Re.re_listen block in
  let server_names := Re.findall Re.re_server_name block in
  match ints ports with
  | inl bad => inl bad
  | inr ps =>
      inr {| ports := ps;
             server_names := match server_names with
                             | first :: _ => split first
                             | [] => []
                             end |}
  end.

Fixpoint parse_blocks (blocks : list text) : text + list server :=
  match blocks with
  | [] => inr []
  | b :: rest =>
      match parse_block b with
      | inl bad => inl bad
      | inr srv =>
          match parse_blocks rest with
          | inl bad => inl bad
          | inr servers => inr (srv :: servers)
          end
      end
  end.

(** Lines 28 to 37: from the text of the file to [servers]. *)
Definition parse_content (content : text) : text + list server :=
  let server_blocks := tl (Re.split Re.re_server content) in
  parse_blocks server_blocks.

(** [str(e)] of the [ValueError] of [int(s)]. *)
Definition value_error (s : text) : text :=
  if forallb isdecimal s && negb (List.length s <=? INT_MAX_STR_DIGITS)
  then lit "Exceeds the limit (4300 digits) for integer string conversion: value has "
       ++ str (Z.of_nat (List.length s))
       ++ lit " digits; use sys.set_int_max_str_digits() to increase the limit"
  else lit "invalid literal for int() with base 10: '" ++ s ++ lit "'".

Definition parse_config (w : world) (config_path : text) : M (list server) :=
  match open_read w config_path with
  | ReadOk content =>
      match parse_content content with
      | inr servers =>
          log INFO (lit "Found " ++ str (Z.of_nat (List.length servers))
                    ++ lit " server blocks with ports: "
                    ++ repr_list (repr_list str) (map ports servers)) ;;
          ret servers
      | inl bad =>
          log ERROR (lit "Error parsing config file: " ++ value_error bad) ;;
          sys_exit 1
      end
  | ReadNotFound =>
      log ERROR (lit "Config file not found: " ++ config_path) ;;
      sys_exit 1
  | ReadError msg =>
      log ERROR (lit "Error parsing config file: " ++ msg) ;;
      sys_exit 1
  end.

(** ** [run_command] *)

(** The four ways [run_command] returns: line 62, line 61, line 65 and
    line 68 of the script. *)
Inductive classification := success | failure | timed_out | execution_error.

(** [run_command] with the return statement it leaves through. *)
Definition run_command_at (w : world) (command : text) (check : bool)
           (timeout : Z) : M (classification * (bool * text)) :=
  fun st =>
    let c := {| command := command; timeout := timeout |} in
    let st1 := {| logs := logs st; calls := calls st ++ [c] |} in
    match subprocess_run w (calls st) c with
    | Completed returncode stdout stderr =>
        if check && negb (returncode =? 0)%Z
        then (log ERROR (lit "Command failed: " ++ command ++ nl ++ stderr) ;;
              ret (failure, (false, stderr))) st1
        else ret (success, (true, stdout)) st1
    | TimeoutExpired =>
        (log ERROR (lit "Command timed out: " ++ command) ;;
         ret (timed_out, (false, lit "Timeout"))) st1
    | RunError e =>
        (log ERROR (lit "Error running command " ++ command ++ lit ": " ++ e) ;;
         ret (execution_error, (false, e))) st1
    end.

(** [run_command(command, check, timeout)]: the pair [(ok, output)]. *)
Definition run_command (w : world) (command : text) (check : bool)
           (timeout : Z) : M (bool * text) :=
  r <- run_command_at w command check timeout ;; ret (snd r).

(** The defaults of [run_command]'s signature. *)
Definition default_check : bool := true.
Definition default_timeout : Z := 30.

Definition pass_fail (ok : bool) : text :=
  if ok then lit "PASS" else lit "FAIL".

(** [logger.info(f"{test_name}: {'PASS' if success else 'FAIL'}\n{output}")] *)
Definition report (test_name : text) (ok : bool) (output : text) : M unit :=
  log INFO (test_name ++ lit ": " ++ pass_fail ok ++ nl ++ output).

(** [for cmd, test_name in tests: ...] with [run_command(cmd, check)]. *)
Definition run_tests (w : world) (check : bool)
           (tests : list (text * text)) : M unit :=
  for_ tests (fun t =>
    r <- run_command w (fst t) check default_timeout ;;
    report (snd t) (fst r) (snd r)).

(** ** Fixtures *)

Definition prepare_test_files (w : world) : M unit :=
  log INFO (lit "Preparing test files...") ;;
  run_command w (lit "head -c 100000 /dev/urandom > big.txt")
              default_check default_timeout ;;
  run_command w (lit "yes " ++ quoted (lit "this is a line of text")
                 ++ lit " | head -n 5000 > test.txt")
              default_check default_timeout ;;
  ret tt.

(** The triple-quoted literal of [create_read_err_script] runs from line 78
    to the quotes on line 94. *)
Definition script_content : text :=
  nl
  ++ lit "# #!/usr/bin/env python3" ++ nl
  ++ lit "# import socket" ++ nl
  ++ lit "# import time" ++ nl
  ++ nl
  ++ lit "# def main():" ++ nl
  ++ lit "#     s = socket.socket(socket.AF_INET, socket.SOCK_STREAM)" ++ nl
  ++ lit "#     s.connect(('127.0.0.1', 8080))" ++ nl
  ++ lit "#     request = b" ++ quoted (lit "POST /uploads HTTP/1.1" ++ bsl ++ lit "r"
       ++ bsl ++ lit "nHost: localhost" ++ bsl ++ lit "r" ++ bsl
       ++ lit "nContent-Length: 1000000" ++ bsl ++ lit "r" ++ bsl ++ lit "n"
       ++ bsl ++ lit "r" ++ bsl ++ lit "n") ++ nl
  ++ lit "#     s.send(request)" ++ nl
  ++ lit "#     s.send(b" ++ quoted (lit "partial data") ++ lit ")" ++ nl
  ++ lit "#     time.sleep(0.1)" ++ nl
  ++ lit "#     s.close()" ++ nl
  ++ nl
  ++ lit "# if __name__ == " ++ quoted (lit "__main__") ++ lit ":" ++ nl
  ++ lit "#     main()" ++ nl
  ++ lit "# ".

(** The function binds the literal and returns; the four statements that
    would write the file (lines 95 to 98) are comments. *)
Definition create_read_err_script : M unit :=
  let _ := script_content in ret tt.

(** ** The scenario tables *)

Definition localhost (port : Z) : text := lit "http://localhost:" ++ str port.
Definition loopback (port : Z) : text := lit "http://127.0.0.1:" ++ str port.

Definition basic_tests (port : Z) : list (text * text) :=
  [ (lit "curl " ++ localhost port, lit "Basic GET");
    (lit "curl " ++ localhost (port + 1), lit "Alternate Port GET");
    (lit "curl -v -X POST " ++ localhost port ++ lit "/uploads "
       ++ lit "-H " ++ quoted (lit "Content-Type: application/x-www-form-urlencoded") ++ lit " "
       ++ lit "--data-binary " ++ quoted (lit "text=Hello%20world"), lit "POST Body Size");
    (lit "curl " ++ localhost port ++ lit "/index.html", lit "Index HTML");
    (lit "curl " ++ localhost port ++ lit "/cgi-bin/guestbook_display.php", lit "CGI Route");
    (lit "curl -i " ++ localhost port ++ lit "/nonexistent_page.txt", lit "404 Error");
    (lit "curl " ++ localhost port ++ lit "/uploads/", lit "Directory Index");
    (lit "curl " ++ localhost port ++ lit "/cgi-bin/", lit "Method Restriction");
    (lit "curl -X GET " ++ localhost port ++ lit "/index.html", lit "GET Request");
    (lit "curl -X POST --data " ++ quoted (lit "test_data") ++ lit " "
       ++ localhost port ++ lit "/uploads", lit "POST Request");
    (lit "curl -v -X DELETE " ++ quoted (loopback port ++ lit "/delete?file=test.txt"),
       lit "DELETE Request");
    (lit "curl -X INVALIDMETHOD " ++ localhost port ++ lit "/", lit "Invalid Method");
    (lit "curl -X GET " ++ localhost port ++ lit "/uploads/", lit "Autoindex");
    (lit "curl -i " ++ loopback port ++ lit "/redirect", lit "Redirection") ].

Definition cgi_tests (port : Z) : list (text * text) :=
  [ (lit "curl -X GET " ++ loopback port ++ lit "/cgi-bin/guestbook_display.php", lit "CGI GET");
    (lit "curl -X POST "
       ++ lit "-d " ++ quoted (lit "username=TestUser") ++ lit " "
       ++ lit "-d " ++ quoted (lit "message=Hello from curl") ++ lit " "
       ++ loopback port ++ lit "/cgi-bin/guestbook.php", lit "CGI POST");
    (lit "curl -X GET " ++ loopback port ++ lit "/cgi-bin/infinite.php", lit "CGI Timeout");
    (lit "curl -i " ++ loopback port ++ lit "/cgi-bin/fatal_error.php", lit "CGI Error") ].

Definition chunked_tests (port : Z) : list (text * text) :=
  let upload := lit "curl -v " ++ localhost port ++ lit "/uploads " in
  let chunked := lit "-H " ++ quoted (lit "Transfer-Encoding: chunked") ++ lit " " in
  [ (upload ++ chunked ++ lit "--data-binary " ++ quoted (lit "@big.txt"), lit "Chunked Binary");
    (upload ++ chunked ++ lit "--data-binary " ++ quoted (lit "@test.txt"), lit "Chunked Text");
    (upload ++ lit "-H " ++ quoted (lit "Content-Type: text/plain") ++ lit " " ++ chunked
       ++ lit "--data-binary " ++ quoted (lit "hello again from plain text"),
       lit "Chunked Plain Text");
    (upload ++ lit "-H " ++ quoted (lit "Content-Type: application/x-www-form-urlencoded")
       ++ lit " " ++ chunked
       ++ lit "--data-binary " ++ quoted (lit "username=tester&message=chunked%20rocks"),
       lit "Chunked Form");
    (upload ++ chunked ++ lit "-F " ++ quoted (lit "file=@test.txt"), lit "Chunked Multipart") ].

Definition delete_cmd (port : Z) : text :=
  lit "curl -v -X DELETE " ++ quoted (loopback port ++ lit "/delete?file=test_1.txt").

Definition stress_tests (port : Z) : list (text * text) :=
  [ (lit "siege -b -c50 -t15s " ++ localhost port ++ lit "/index.html", lit "Stress GET") ].

Definition read_err_cmd : text := lit "python3 read_err.py".

Definition big_header_cmd (port : Z) : text :=
  lit "curl -v -H "
  ++ quoted (lit "Host: $(printf 'a%.0s' {1..100000}).testiservu1.com") ++ lit " "
  ++ loopback port ++ lit "/index.html".

Definition valgrind_cmd : text :=
  lit "valgrind --leak-check=full --track-fds=yes ./webserv".

(** ** The categories *)

(** A port is an integer [int] returned: it has at most
    [INT_MAX_STR_DIGITS] digits, and the f-strings render it.  The one
    other integer a command holds is [port+1], on line 106, which may have
    one digit more: the [ValueError] of its f-string leaves
    [run_basic_tests] while the list [tests] is built, before any of its
    commands runs, and nothing catches it. *)
Definition run_basic_tests (w : world) (port : Z) : M unit :=
  log INFO (lit "Running basic tests on port " ++ str port ++ lit "...") ;;
  if str_fits (port + 1)
  then run_tests w default_check (basic_tests port)
  else raise ValueError.

Definition run_cgi_tests (w : world) (port : Z) : M unit :=
  log INFO (lit "Running CGI tests on port " ++ str port ++ lit "...") ;;
  run_tests w default_check (cgi_tests port).

Definition run_chunked_tests (w : world) (port : Z) : M unit :=
  log INFO (lit "Running chunked POST tests on port " ++ str port ++ lit "...") ;;
  run_tests w default_check (chunked_tests port).

Definition run_delete_tests (w : world) (port : Z) : M unit :=
  log INFO (lit "Running DELETE tests on port " ++ str port ++ lit "...") ;;
  r <- run_command w (delete_cmd port) default_check default_timeout ;;
  report (lit "DELETE Request") (fst r) (snd r).

Definition run_stress_tests (w : world) (port : Z) : M unit :=
  log INFO (lit "Running stress tests on port " ++ str port ++ lit "...") ;;
  run_tests w false (stress_tests port).

Definition run_other_tests (w : world) (port : Z) : M unit :=
  log INFO (lit "Running other tests on port " ++ str port ++ lit "...") ;;
  create_read_err_script ;;
  r <- run_command w read_err_cmd default_check default_timeout ;;
  report (lit "Abrupt Disconnect") (fst r) (snd r) ;;
  r <- run_command w (big_header_cmd port) default_check default_timeout ;;
  report (lit "Big Header") (fst r) (snd r) ;;
  r <- run_command w valgrind_cmd false 60 ;;
  report (lit "Valgrind FD Check") (fst r) (snd r).

(** ** Several servers *)

(** [f"127.0.0.{i+1}"] *)
Definition ip (i : nat) : text := lit "127.0.0." ++ str (Z.of_nat i + 1).

Definition resolve_cmd (server_name : text) (port : Z) (addr : text) : text :=
  lit "curl --resolve " ++ server_name ++ lit ":" ++ str port ++ lit ":" ++ addr
  ++ lit " http://" ++ server_name ++ lit ":" ++ str port ++ lit "/".

Definition run_multi_loop_tests (w : world) (servers : list server) : M unit :=
  log INFO (lit "Running multi-loop tests...") ;;
  for_ (enumerate servers) (fun entry =>
    let i := fst entry in
    let srv := snd entry in
    for_ (server_names srv) (fun server_name =>
      for_ (ports srv) (fun port =>
        r <- run_command w (resolve_cmd server_name port (ip i))
                         default_check default_timeout ;;
        log INFO (lit "Server " ++ server_name ++ lit ":" ++ str port ++ lit ": "
                  ++ pass_fail (fst r) ++ nl ++ snd r)))).

(** ** [main] *)

(** The six categories run for one port, in the order of lines 277 to 282. *)
Definition run_port (w : world) (port : Z) : M unit :=
  log INFO (lit "Testing server on port " ++ str port) ;;
  run_basic_tests w port ;;
  run_cgi_tests w port ;;
  run_chunked_tests w port ;;
  run_delete_tests w port ;;
  run_stress_tests w port ;;
  run_other_tests w port.

(** The dash of the error message is U+2013, kept as the three bytes of its
    UTF-8 form. *)
Definition main (w : world) : M unit :=
  log INFO (lit "Starting tests with config file: " ++ CONFIG_FILE_PATH) ;;
  servers <- parse_config w CONFIG_FILE_PATH ;;
  let n := List.length servers in
  if negb ((1 <=? n) && (n <=? 3))
  then log ERROR (lit "Config file must contain 1–3 server blocks") ;;
       sys_exit 1
  else
    prepare_test_files w ;;
    for_ servers (fun srv => for_ (ports srv) (run_port w)) ;;
    (if 1 <? n then run_multi_loop_tests w servers else ret tt) ;;
    log INFO (lit "All tests completed").

(** The exit status of the process that runs [main]: the interpreter
    ends with status 1 on an exception nothing caught. *)
Definition exit_status (w : world) : Z :=
  match fst (main w initial) with
  | Ok _ => 0
  | SysExit code => code
  | Raised _ => 1
  end.

End Tester.

(* ================================================================== *)
(** * The header remover *)
(* ================================================================== *)

(** [42header_remover/42header_remover.py], as CPython runs it on a POSIX
    system ([os.path] is [posixpath], [os.linesep] is a line feed).  A
    path leads to a file, and several paths may lead to the same one; the
    text of a file is what decoding leaves of its bytes. *)

Module HeaderRemover.
Import PyStr.

Definition LF : ascii := ascii_of_nat 10.
Definition CR : ascii := ascii_of_nat 13.

(** ** Built-ins on strings *)

(** [a == b] on strings. *)
Fixpoint text_eqb (a b : text) : bool :=
  match a, b with
  | [], [] => true
  | x :: a', y :: b' => Ascii.eqb x y && text_eqb a' b'
  | _, _ => false
  end.

(** [s.lstrip()], [s.rstrip()] and [s.strip()] without arguments. *)
Fixpoint lstrip (s : text) : text :=
  match s with
  | c :: s' => if isspace c then lstrip s' else s
  | [] => []
  end.

Definition rstrip (s : text) : text := rev (lstrip (rev s)).

Definition strip (s : text) : text := rstrip (lstrip s).

(** [str.lower] on code points below 256: the letters A to Z, and the
    capital letters of Latin-1 (0xC0 to 0xDE, the sign 0xD7 apart). *)
Definition lower_char (c : ascii) : ascii :=
  let n := nat_of_ascii c in
  if ((65 <=? n) && (n <=? 90))
     || ((192 <=? n) && (n <=? 222) && negb (n =? 215))
  then ascii_of_nat (n + 32)
  else c.

Definition lower (s : text) : text := map lower_char s.

(** [s.rfind(c)] for a character: the last index of [c], or -1. *)
Fixpoint rfind_from (c : ascii) (s : text) (i last : Z) : Z :=
  match s with
  | [] => last
  | x :: s' => rfind_from c s' (i + 1) (if Ascii.eqb x c then i else last)
  end.

Definition rfind (c : ascii) (s : text) : Z := rfind_from c s 0 (-1).

(** The loop of [genericpath._splitext]: is there a character other than
    the dot before the last dot of the name? *)
Fixpoint has_stem (name_before_dot : text) : bool :=
  match name_before_dot with
  | [] => false
  | c :: rest => if negb (Ascii.eqb c ".") then true else has_stem rest
  end.

(** [os.path.splitext(p)] *)
Definition splitext (p : text) : text * text :=
  let sepIndex := rfind "/" p in
  let dotIndex := rfind "." p in
  if (sepIndex <? dotIndex)%Z
  then
    let filenameIndex := (sepIndex + 1)%Z in
    if has_stem (firstn (Z.to_nat (dotIndex - filenameIndex))
                        (skipn (Z.to_nat filenameIndex) p))
    then (firstn (Z.to_nat dotIndex) p, skipn (Z.to_nat dotIndex) p)
    else (p, [])
  else (p, []).

(** [os.path.join(a, b)] *)
Definition join (a b : text) : text :=
  match b with
  | "/"%char :: _ => b
  | _ =>
      match rev a with
      | [] => a ++ b
      | "/"%char :: _ => a ++ b
      | _ => a ++ lit "/" ++ b
      end
  end.

(** ** Reading text *)

(** The text layer in universal-newlines mode: [\r\n] and [\r] are read as
    a line feed. *)
Fixpoint universal_newlines (s : text) : text :=
  match s with
  | [] => []
  | c :: s' =>
      if Ascii.eqb c CR
      then match s' with
           | c' :: s'' =>
               if Ascii.eqb c' LF
               then LF :: universal_newlines s''
               else LF :: universal_newlines s'
           | [] => [LF]
           end
      else c :: universal_newlines s'
  end.

(** [f.readline()] at the start of the text: up to the first line feed,
    which it keeps. *)
Fixpoint readline (s : text) : text :=
  match s with
  | [] => []
  | c :: s' => if Ascii.eqb c LF then [c] else c :: readline s'
  end.

(** [f.readlines()]: the lines, each with its line feed; [cur] is the line
    being read. *)
Fixpoint lines_from (s : text) (cur : text) : list text :=
  match s with
  | [] => match cur with [] => [] | _ => [cur] end
  | c :: s' =>
      if Ascii.eqb c LF
      then (cur ++ [c]) :: lines_from s' []
      else lines_from s' (cur ++ [c])
  end.

Definition readlines (s : text) : list text := lines_from s [].

(** ** The script's constants *)

Definition TARGET_START_STRING1 : text :=
  lit "/* ************************************************************************** */".
Definition TARGET_START_STRING2 : text :=
  lit "/******************************************************************************/".
Definition LINES_TO_REMOVE : nat := 11.
Definition ALLOWED_EXTENSIONS : list text :=
  [lit ".c"; lit ".cpp"; lit ".h"; lit ".hpp"; lit ".tpp"].

(** [x in ALLOWED_EXTENSIONS] *)
Definition allowed (ext : text) : bool :=
  existsb (text_eqb ext) ALLOWED_EXTENSIONS.

(** ** The world and the state *)

(** A regular file: the text its bytes decode to, and whether it may be
    opened for reading and for writing. *)
Record file := { data : text; readable : bool; writable : bool }.

(** What [open] finds at a path.  Regular files are numbered: a symbolic
    link or a hard link makes several paths lead to one file, also to a
    file outside the directory that is walked. *)
Inductive target :=
| Absent                  (* nothing [open] accepts: it raises an [OSError] *)
| Regular (inode : nat)
| Special.                (* a FIFO, a device: reading may wait for ever *)

(** What the script does not change: which paths are directories, what
    [os.walk] lists below one, the absolute form of a path, the [str] of
    the error raised when a path cannot be opened or written ([true] for
    writing), what each path leads to, the texts the encoding of the
    standard output accepts (a name that is not valid in the encoding of
    the file system is a text it refuses), and what stops the writing of a
    text to a file: [Some k] when only the first [k] characters reach the
    file before an [OSError], as on a full disk. *)
Record world := {
  isdir : text -> bool;
  walk : text -> list (text * list text * list text);
  abspath : text -> text;
  strerror : bool -> text -> text;
  lookup : text -> target;
  stdout_encodes : text -> bool;
  cut_short : nat -> text -> option nat
}.

(** What it changes: the regular files, by number, and the two output
    streams. *)
Record state := {
  files : nat -> file;
  stdout : text;
  stderr : text
}.

(** The exception of the script that no handler catches. *)
Inductive exception := UnicodeEncodeError.

(** A function of the script returns, leaves through [sys.exit], is left
    by an exception nothing catches, or waits for ever. *)
Inductive result (A : Type) :=
| Ok (a : A)
| SysExit (code : Z)
| Raised (e : exception)
| Blocked.
Arguments Ok {A} a.
Arguments SysExit {A} code.
Arguments Raised {A} e.
Arguments Blocked {A}.

Definition M (A : Type) := state -> result A * state.

Definition ret {A} (a : A) : M A := fun st => (Ok a, st).

Definition bind {A B} (m : M A) (f : A -> M B) : M B :=
  fun st =>
    match m st with
    | (Ok a, st') => f a st'
    | (SysExit code, st') => (SysExit code, st')
    | (Raised e, st') => (Raised e, st')
    | (Blocked, st') => (Blocked, st')
    end.

Local Notation "x <- m ;; k" := (bind m (fun x => k))
  (at level 61, m at next level, right associativity).
Local Notation "m ;; k" := (bind m (fun _ => k))
  (at level 61, right associativity).

Definition sys_exit {A} (code : Z) : M A := fun st => (SysExit code, st).

(** [sys.stdout.write(s)]: the encoding of the stream is strict. *)
Definition write_stdout (w : world) (s : text) : M unit :=
  fun st =>
    if stdout_encodes w s
    then (Ok tt, {| files := files st;
                    stdout := stdout st ++ s;
                    stderr := stderr st |})
    else (Raised UnicodeEncodeError, st).

(** [print(msg, end=ending)]: the message is written, then the ending. *)
Definition print_end (w : world) (msg ending : text) : M unit :=
  write_stdout w msg ;; write_stdout w ending.

(** [print(msg)] *)
Definition print (w : world) (msg : text) : M unit := print_end w msg [LF].

(** [print(msg, file=sys.stderr)]: the standard error stream replaces what
    it cannot encode, and raises nothing. *)
Definition print_err (msg : text) : M unit :=
  fun st => (Ok tt, {| files := files st;
                       stdout := stdout st;
                       stderr := stderr st ++ msg ++ [LF] |}).

(** How [open] ends. *)
Inductive opening :=
| Opened (inode : nat)
| Refused                 (* an [IOError] *)
| Waits.

(** [open(path, 'r', encoding='utf-8', errors='ignore')] and
    [open(path, 'w', ...)] on a path that was read before. *)
Definition open_ (w : world) (st : state) (writing : bool) (path : text)
  : opening :=
  match lookup w path with
  | Regular i =>
      if (if writing then writable (files st i) else readable (files st i))
      then Opened i
      else Refused
  | Absent => Refused
  | Special => Waits
  end.

(** The file [i] with a new text: every path that leads to the file
    shows it. *)
Definition store (st : state) (i : nat) (new_text : text) : state :=
  {| files := fun j =>
                if j =? i
                then {| data := new_text;
                        readable := readable (files st i);
                        writable := writable (files st i) |}
                else files st j;
     stdout := stdout st;
     stderr := stderr st |}.

(** ** [process_file] *)

(** The [except IOError] branch.  The calls between [try] and [except]
    raise nothing else here: decoding and encoding ignore errors, slices
    and [strip] raise nothing.  The [except Exception] branch after it has
    nothing to catch. *)
Definition io_error (w : world) (writing : bool) (filepath : text) : M bool :=
  print_err (lit "Error processing file " ++ filepath ++ lit ": "
             ++ strerror w writing filepath) ;;
  ret false.

(** Lines 26 to 31. *)
Definition after_header (lines : list text) : list text :=
  if LINES_TO_REMOVE <=? List.length lines
  then skipn LINES_TO_REMOVE lines
  else [].

(** Lines 33 to 36. *)
Definition without_blank (content_to_keep : list text) : list text :=
  match content_to_keep with
  | first :: rest =>
      match strip first with
      | [] => rest
      | _ => content_to_keep
      end
  | [] => []
  end.

Definition is_header (first_line : text) : bool :=
  text_eqb (strip first_line) TARGET_START_STRING1
  || text_eqb (strip first_line) TARGET_START_STRING2.

Definition process_file (w : world) (filepath : text) : M bool :=
  fun st =>
    match open_ w st false filepath with
    | Refused => io_error w false filepath st
    | Waits => (Blocked, st)
    | Opened i =>
        let first_line := readline (universal_newlines (data (files st i))) in
        if is_header first_line
        then
          match open_ w st false filepath with
          | Refused => io_error w false filepath st
          | Waits => (Blocked, st)
          | Opened i' =>
              let lines :=
                readlines (universal_newlines (data (files st i'))) in
              let content_to_keep := without_blank (after_header lines) in
              match open_ w st true filepath with
              | Refused => io_error w true filepath st
              | Waits => (Blocked, st)
              | Opened j =>
                  (* [open] has emptied the file; [f.writelines] and the
                     end of the [with] block write the lines *)
                  let new_text := List.concat content_to_keep in
                  match cut_short w j new_text with
                  | None => (Ok true, store st j new_text)
                  | Some k =>
                      io_error w true filepath
                               (store st j (firstn k new_text))
                  end
              end
          end
        else (Ok false, st)
    end.

(** ** [main] *)

(** The three variables the loop of [main] updates. *)
Record tally := {
  modified_files_count : Z;
  processed_files_count : Z;
  modified_files_list : list text
}.

(** [for x in xs: ...], threading the variables the body assigns. *)
Fixpoint for_each {X A} (xs : list X) (acc : A) (body : A -> X -> M A) : M A :=
  match xs with
  | [] => ret acc
  | x :: xs' => acc' <- body acc x ;; for_each xs' acc' body
  end.

(** Lines 75 and 76: is the file one to look at? *)
Definition selected (filename : text) : bool :=
  allowed (lower (snd (splitext filename))).

(** The body of the inner loop, lines 75 to 85. *)
Definition visit (w : world) (root : text) (t : tally) (filename : text)
  : M tally :=
  if selected filename
  then
    let filepath := join root filename in
    let processed := (processed_files_count t + 1)%Z in
    print_end w (lit "Checking: " ++ filepath ++ lit "...") [] ;;
    modified <- process_file w filepath ;;
    if modified : bool
    then
      print w (lit " MODIFIED") ;;
      ret {| modified_files_count := (modified_files_count t + 1)%Z;
             processed_files_count := processed;
             modified_files_list := modified_files_list t ++ [filepath] |}
    else
      print w (lit " unchanged.") ;;
      ret {| modified_files_count := modified_files_count t;
             processed_files_count := processed;
             modified_files_list := modified_files_list t |}
  else ret t.

(** Lines 73 to 85. *)
Definition scan_tree (w : world) (directory : text) : M tally :=
  for_each (walk w directory)
           {| modified_files_count := 0;
              processed_files_count := 0;
              modified_files_list := [] |}
           (fun t entry => for_each (snd entry) t (visit w (fst (fst entry)))).

(** Lines 87 to 93. *)
Definition report (w : world) (t : tally) : M unit :=
  print w (nl ++ lit "=> RESULT <=") ;;
  match modified_files_list t with
  | _ :: _ =>
      print w (lit "Modified " ++ str (modified_files_count t)
               ++ lit " out of " ++ str (processed_files_count t)
               ++ lit " scanned files:") ;;
      for_each (modified_files_list t) tt
               (fun _ f_path => print w (lit "  - " ++ f_path))
  | [] =>
      print w (lit "No files modified out of "
               ++ str (processed_files_count t) ++ lit " scanned files.")
  end.

(** [main], once [argparse] has read the directory from the command
    line. *)
Definition main (w : world) (directory : text) : M unit :=
  if negb (isdir w directory)
  then
    print_err (lit "Error: Directory '" ++ directory ++ lit "' not found.") ;;
    sys_exit 1
  else
    print w (lit "Scanning dir: " ++ abspath w directory ++ nl) ;;
    t <- scan_tree w directory ;;
    report w t.

End HeaderRemover.

Import PyStr.

(* ================================================================== *)
(** * The configuration grammar *)
(* ================================================================== *)

(** The directives of section 6 of the specification, stated on the text
    itself. *)

Definition blank (w : text) : Prop := forallb isspace w = true.
Definition digits (d : text) : Prop := forallb isdecimal d = true.

(** [server {]: the keyword, optional blanks, the brace. *)
Inductive opener : text -> Prop :=
| opener_intro w : blank w -> opener (lit "server" ++ w ++ lit "{").

(** [listen <digits>;] with the integer it names. *)
Inductive listen_directive : text -> Z -> Prop :=
| listen_intro w d :
    w <> [] -> blank w -> d <> [] -> digits d ->
    listen_directive (lit "listen" ++ w ++ d ++ lit ";") (int_digits d).

(** [server_name <names>;] with its argument, the text up to the
    semicolon. *)
Inductive server_name_directive : text -> text -> Prop :=
| server_name_intro w a :
    w <> [] -> blank w -> a <> [] -> ~ In ";"%char a ->
    server_name_directive (lit "server_name" ++ w ++ a ++ lit ";") a.

(** [t] is the piece of [s] that starts at offset [i]. *)
Definition at_offset (s : text) (i : nat) (t : text) : Prop :=
  exists rest, skipn i s = t ++ rest.

Definition opener_at (s : text) (i : nat) : Prop :=
  exists t, at_offset s i t /\ opener t.

Definition listen_at (s : text) (i : nat) (n : Z) : Prop :=
  exists t, at_offset s i t /\ listen_directive t n.

Definition server_name_at (s : text) (i : nat) (arg : text) : Prop :=
  exists t, at_offset s i t /\ server_name_directive t arg.

(** The digits of the [listen] directive that starts at offset [i]. *)
Definition listen_digits_at (s : text) (i : nat) (d : text) : Prop :=
  exists w,
    at_offset s i (lit "listen" ++ w ++ d ++ lit ";")
    /\ w <> [] /\ blank w /\ d <> [] /\ digits d.

(** Every [listen] directive of [s] writes its port with digits [int]
    converts. *)
Definition ports_convert (s : text) : Prop :=
  forall i d, listen_digits_at s i d -> List.length d <= INT_MAX_STR_DIGITS.

(** Some [listen] directive of [s] has more digits than [int] converts. *)
Definition port_too_long (s : text) : Prop :=
  exists i d, listen_digits_at s i d /\ INT_MAX_STR_DIGITS < List.length d.

(** No block opens inside [s]. *)
Definition opener_free (s : text) : Prop := forall i, ~ opener_at s i.

(** [ps] lists the integers of every [listen] directive of [body], in the
    order of the text. *)
Definition ports_in_order (body : text) (ps : list Z) : Prop :=
  exists idx : list nat,
    StronglySorted lt idx
    /\ Forall2 (listen_at body) idx ps
    /\ forall i n, listen_at body i n -> In i idx.

(** [names] is the argument of the first [server_name] directive of [body]
    split on whitespace, and empty when there is none. *)
Definition names_of_first (body : text) (names : list text) : Prop :=
  (forall i arg,
      server_name_at body i arg ->
      (forall j arg', j < i -> ~ server_name_at body j arg') ->
      names = split arg)
  /\ ((forall i arg, ~ server_name_at body i arg) -> names = []).

(** A word, as [str.split()] yields them: not empty, no whitespace
    inside. *)
Definition word (n : text) : Prop :=
  n <> [] /\ Forall (fun c => isspace c = false) n.

(** A server block as written in the file: the blanks between the keyword
    and the brace, then everything up to the next block. *)
Record block := { blanks : text; body : text }.

Definition render (b : block) : text :=
  lit "server" ++ blanks b ++ lit "{" ++ body b.

Definition well_formed (b : block) : Prop :=
  blank (blanks b) /\ opener_free (body b).

(** A configuration: what precedes the first block, then the blocks. *)
Definition config_text (preamble : text) (blocks : list block) : text :=
  preamble ++ flat_map render blocks.

Import Tester.

(** What [parse_block] promises about the server it builds. *)
Definition describes (block_body : text) (srv : server) : Prop :=
  ports_in_order block_body (ports srv)
  /\ names_of_first block_body (server_names srv)
  /\ Forall (fun p => 0 <= p)%Z (ports srv)
  /\ Forall word (server_names srv).

(* ================================================================== *)
(** * The commands a run hands to the shell *)
(* ================================================================== *)

(** The call [run_command(cmd)] makes with the default timeout. *)
Definition default_call (cmd : text) : call :=
  {| command := cmd; timeout := default_timeout |}.

(** The calls of a table of tests. *)
Definition suite_calls (tests : list (text * text)) : list call :=
  map (fun t => default_call (fst t)) tests.

Definition fixture_calls : list call :=
  [ default_call (lit "head -c 100000 /dev/urandom > big.txt");
    default_call (lit "yes " ++ quoted (lit "this is a line of text")
                  ++ lit " | head -n 5000 > test.txt") ].

Definition basic_calls (port : Z) := suite_calls (basic_tests port).

Definition cgi_calls (port : Z) := suite_calls (cgi_tests port).

Definition chunked_calls (port : Z) := suite_calls (chunked_tests port).

Definition delete_calls (port : Z) := [default_call (delete_cmd port)].

Definition stress_calls (port : Z) := suite_calls (stress_tests port).

Definition misc_calls (port : Z) : list call :=
  [ default_call read_err_cmd;
    default_call (big_header_cmd port);
    {| command := valgrind_cmd; timeout := 60 |} ].

(** The six categories for one port, in order. *)
Definition port_calls (port : Z) : list call :=
  basic_calls port ++ cgi_calls port ++ chunked_calls port
  ++ delete_calls port ++ stress_calls port ++ misc_calls port.

(** The resolution scenarios of the server at index [i]: one per pair of
    a name and a port. *)
Definition host_calls (i : nat) (srv : server) : list call :=
  map (fun np => default_call (resolve_cmd (fst np) (snd np) (ip i)))
      (list_prod (server_names srv) (ports srv)).

Definition multi_calls (servers : list server) : list call :=
  flat_map (fun e => host_calls (fst e) (snd e)) (enumerate servers).

(** The successor of every port is an integer [str] renders, as line 106
    needs it. *)
Definition alternates_render (servers : list server) : Prop :=
  forallb (fun srv => forallb (fun port => str_fits (port + 1)) (ports srv))
          servers
  = true.

(** [m] returns, whatever the world answers, after handing exactly [cs] to
    the shell. *)
Definition runs (m : M unit) (cs : list call) : Prop :=
  forall st, exists st', m st = (Ok tt, st') /\ calls st' = calls st ++ cs.

(** The record that opens the resolution scenarios. *)
Definition multi_banner : level * text :=
  (INFO, lit "Running multi-loop tests...").

(** [m] only adds to the log, and only records that satisfy [P]. *)
Definition logging (P : level * text -> Prop) {A} (m : M A) : Prop :=
  forall st, exists new,
    logs (snd (m st)) = logs st ++ new /\ Forall P new.

(** A record other than the banner of the resolution scenarios. *)
Definition plain (e : level * text) : Prop := e <> multi_banner.

(** The names of a table leave no doubt about its report lines. *)
Definition plain_names (tests : list (text * text)) : Prop :=
  Forall (fun t => forall ok out,
            plain (INFO, snd t ++ lit ": " ++ pass_fail ok ++ nl ++ out))
         tests.

(* ================================================================== *)
(** * Sample configurations and worlds *)
(* ================================================================== *)

(** A world whose every file holds [content] and whose every command
    exits with [status], printing nothing. *)
Definition file_world (content : text) (status : Z) : world :=
  {| open_read := fun _ => ReadOk content;
     subprocess_run := fun _ _ => Completed status [] [] |}.

(** A world without the configuration file. *)
Definition missing_world : world :=
  {| open_read := fun _ => ReadNotFound;
     subprocess_run := fun _ _ => Completed 0 [] [] |}.

(** A world where reading the file raises. *)
Definition unreadable_world : world :=
  {| open_read := fun _ => ReadError (lit "[Errno 13] Permission denied");
     subprocess_run := fun _ _ => Completed 0 [] [] |}.

Definition sample_preamble : text := lit "# two ports, two names" ++ nl.

Definition sample_block : block :=
  {| blanks := lit " ";
     body := nl ++ lit "  listen 8080; listen 8081;" ++ nl
             ++ lit "  server_name a b;" ++ nl ++ lit "}" ++ nl |}.

Definition sample_config : text := config_text sample_preamble [sample_block].

(** A shell that times out on its first command, cannot be started for
    the second, and fails every later one. *)
Definition flaky_world : world :=
  {| open_read := fun _ => ReadOk sample_config;
     subprocess_run := fun history _ =>
       match List.length history with
       | 0 => TimeoutExpired
       | 1 => RunError (lit "[Errno 2] No such file or directory: '/bin/sh'")
       | _ => Completed 1 [] (lit "failed")
       end |}.

(** A block whose [listen] lines do not fit the pattern. *)
Definition odd_config : text :=
  lit "server {" ++ nl ++ lit "  listen 127.0.0.1:8080;" ++ nl
  ++ lit "  listen abc;" ++ nl ++ lit "  listen 80;" ++ nl ++ lit "}" ++ nl.

(** A block whose only port is not a number. *)
Definition bad_port_config : text := lit "server { listen abc; }".

Definition two_hosts_config : text :=
  lit "server {" ++ nl ++ lit "  listen 8080;" ++ nl ++ lit "  server_name a;" ++ nl
  ++ lit "}" ++ nl
  ++ lit "server {" ++ nl ++ lit "  listen 8080;" ++ nl ++ lit "  server_name b;" ++ nl
  ++ lit "}" ++ nl.

Definition two_hosts : list server :=
  [ {| ports := [8080]%Z; server_names := [lit "a"] |};
    {| ports := [8080]%Z; server_names := [lit "b"] |} ].

(** Two servers named [a] and [b], then one without a name. *)
Definition three_servers : list server :=
  two_hosts ++ [ {| ports := [9090]%Z; server_names := [] |} ].

Definition four_blocks_config : text :=
  lit "server { listen 1; } server { listen 2; } server { listen 3; } server { listen 4; }".

Definition no_block_config : text := lit "# nothing to serve" ++ nl.

(* ================================================================== *)
(** * Counts, addresses and further samples *)
(* ================================================================== *)

(** A text with a block inside a block: [parse_config] opens a server at
    each of the two openers. *)
Definition nested_config : text :=
  lit "server { listen 80; server { listen 81; } }".

(** A text before any block, with directives of its own. *)
Definition stray_preamble : text :=
  lit "listen 1; server_name lost;" ++ nl.

Definition first_blocks : list block :=
  [ {| blanks := lit " "; body := lit " listen 80; server_name a; } " |} ].

Definition second_blocks : list block :=
  [ {| blanks := []; body := lit " listen 81; } " |};
    {| blanks := nl; body := lit " server_name c d; } " |} ].

(** The number of ports over all servers. *)
Definition total_ports (servers : list server) : nat :=
  list_sum (map (fun srv => List.length (ports srv)) servers).

(** The number of pairs of a name and a port over all servers. *)
Definition total_pairs (servers : list server) : nat :=
  list_sum (map (fun srv => List.length (server_names srv)
                            * List.length (ports srv)) servers).

(** The three addresses of the resolution scenarios. *)
Definition loopback_addresses : list text :=
  [lit "127.0.0.1"; lit "127.0.0.2"; lit "127.0.0.3"].

(** A call that resolves a name to one of the three addresses. *)
Definition resolves_locally (c : call) : Prop :=
  exists name port addr,
    In addr loopback_addresses
    /\ c = default_call (resolve_cmd name port addr).

(** One step of the decimal conversion of [int]. *)
Definition decimal_step (acc : Z) (c : ascii) : Z :=
  (10 * acc + digit_value c)%Z.

(** The body of a block that listens on [n]. *)
Definition listen_body (n : Z) : text := lit " listen " ++ str n ++ lit "; }".

(** The block [server { listen N; }] for the first [N] whose digits [int]
    does not convert: a one and 4300 zeros. *)
Definition long_port_config : text := lit "server {" ++ listen_body (10 ^ 4300).

(** The greatest port [int] converts, 4300 nines, and the block that
    listens on it: its successor has 4301 digits. *)
Definition last_port : Z := (10 ^ 4300 - 1)%Z.

Definition last_port_config : text := lit "server {" ++ listen_body last_port.


(* ================================================================== *)
(** * What the header remover is to do *)
(* ================================================================== *)

Module HeaderSpec.
Import PyStr HeaderRemover.

(** The first line of a file, as the script reads it. *)
Definition first_line (f : file) : text :=
  readline (universal_newlines (data f)).

(** It starts with one of the two header lines, blanks around it apart. *)
Definition has_header (f : file) : Prop :=
  strip (first_line f) = TARGET_START_STRING1
  \/ strip (first_line f) = TARGET_START_STRING2.

(** The file a path shows, when it leads to a regular file. *)
Definition shows (w : world) (st : state) (path : text) : option file :=
  match lookup w path with
  | Regular i => Some (files st i)
  | _ => None
  end.

(** A path the script rewrites: it leads to a file the script may read
    and write, with a header line first. *)
Definition rewritable (w : world) (st : state) (path : text) : Prop :=
  exists i, lookup w path = Regular i
            /\ readable (files st i) = true
            /\ writable (files st i) = true
            /\ has_header (files st i).

(** [f'] is [f] with a start of its text, read with universal newlines,
    taken away. *)
Definition trimmed (f f' : file) : Prop :=
  readable f' = readable f /\ writable f' = writable f
  /\ exists removed, universal_newlines (data f) = removed ++ data f'.

(** The text [process_file] writes for the file [f]. *)
Definition kept (f : file) : text :=
  List.concat
    (without_blank (after_header (readlines (universal_newlines (data f))))).

(** The lines dropped: eleven, and the twelfth when it is blank. *)
Definition dropped_lines (lines : list text) : nat :=
  match nth_error lines LINES_TO_REMOVE with
  | Some l =>
      match strip l with
      | [] => S LINES_TO_REMOVE
      | _ => LINES_TO_REMOVE
      end
  | None => LINES_TO_REMOVE
  end.

(** The lists of lines [readlines] can yield: every line ends with its
    line feed and has no other, the last one apart, which may lack it. *)
Inductive lines_ok : list text -> Prop :=
| lines_ok_nil : lines_ok []
| lines_ok_last l : l <> [] -> ~ In LF l -> lines_ok [l]
| lines_ok_cons l ls : ~ In LF l -> lines_ok ls -> lines_ok ((l ++ [LF]) :: ls).

(** The paths [main] hands to [process_file], in the order of the walk. *)
Definition candidates (w : world) (directory : text) : list text :=
  flat_map (fun entry => map (join (fst (fst entry)))
                             (filter selected (snd entry)))
           (walk w directory).

(** One of the paths leads to the file [i]. *)
Definition leads_to (w : world) (paths : list text) (i : nat) : Prop :=
  exists p, In p paths /\ lookup w p = Regular i.

(** The files of [st] are those of [st0], apart from files the paths lead
    to, which [R] relates to what they were. *)
Definition changes (R : file -> file -> Prop) (w : world)
           (paths : list text) (st0 st : state) : Prop :=
  forall i,
    files st i = files st0 i
    \/ (leads_to w paths i /\ R (files st0 i) (files st i)).

(** They may be trimmed. *)
Definition only_trims := changes trimmed.

(** They may hold anything. *)
Definition only_touches := changes (fun _ _ => True).

(** Every text is written in full. *)
Definition writes_complete (w : world) : Prop :=
  forall i new_text, cut_short w i new_text = None.

(** The standard output encodes whatever is printed. *)
Definition prints_all (w : world) : Prop :=
  forall t, stdout_encodes w t = true.

(** None of the paths leads to a special file. *)
Definition regular (w : world) (paths : list text) : Prop :=
  Forall (fun p => lookup w p <> Special) paths.

(** No two of the paths are links to one file. *)
Definition unlinked (w : world) (paths : list text) : Prop :=
  forall p q i,
    In p paths -> In q paths ->
    lookup w p = Regular i -> lookup w q = Regular i -> p = q.

(** What [main] does with one candidate: lines 77 to 85. *)
Definition check (w : world) (t : tally) (filepath : text) : M tally :=
  bind (print_end w (lit "Checking: " ++ filepath ++ lit "...") []) (fun _ =>
  bind (process_file w filepath) (fun modified : bool =>
  if modified
  then
    bind (print w (lit " MODIFIED")) (fun _ =>
    ret {| modified_files_count := (modified_files_count t + 1)%Z;
           processed_files_count := (processed_files_count t + 1)%Z;
           modified_files_list := modified_files_list t ++ [filepath] |})
  else
    bind (print w (lit " unchanged.")) (fun _ =>
    ret {| modified_files_count := modified_files_count t;
           processed_files_count := (processed_files_count t + 1)%Z;
           modified_files_list := modified_files_list t |}))).

(** [m] leaves every file as it is. *)
Definition quiet {A} (m : M A) : Prop :=
  forall st, files (snd (m st)) = files st.

(** However [m] ends, the files it has changed are files the paths lead
    to, and [R] relates what they hold to what they held. *)
Definition within (R : file -> file -> Prop) (w : world)
           (paths : list text) {A} (m : M A) : Prop :=
  forall st, changes R w paths st (snd (m st)).

(** What holds of the variables [t] and of the files of [st] once the
    candidates [done], among [all], have been looked at, from the state
    [st0]. *)
Record scanned (w : world) (all : list text) (st0 : state)
       (done : list text) (t : tally) (st : state) : Prop := {
  scanned_among : incl done all;
  scanned_processed : processed_files_count t = Z.of_nat (List.length done);
  scanned_modified :
    modified_files_count t = Z.of_nat (List.length (modified_files_list t));
  scanned_sound :
    forall p, In p (modified_files_list t) ->
              In p done /\ rewritable w st0 p;
  scanned_complete :
    unlinked w all ->
    forall p, In p done -> rewritable w st0 p ->
              In p (modified_files_list t);
  scanned_unlisted :
    forall i, ~ leads_to w (modified_files_list t) i ->
              files st i = files st0 i
}.

(** A name as [os.walk] lists it: without a slash. *)
Definition plain_name (name : text) : Prop :=
  forallb (fun c => negb (Ascii.eqb c "/")) name = true.

(** ** Samples *)

(** A source file with a header of eleven lines, a blank line and one
    line of code, which lacks its line feed. *)
Definition header_body : list text :=
  [ lit "/*                                                                            */";
    lit "/*                                                        :::      ::::::::   */";
    lit "/*   main.c                                             :+:      :+:    :+:   */";
    lit "/*                                                    +:+ +:+         +:+     */";
    lit "/*   By: user <user@student.42.fr>                  +#+  +:+       +#+        */";
    lit "/*                                                +#+#+#+#+#+   +#+           */";
    lit "/*   Created: 2024/01/01 00:00:00 by user              #+#    #+#             */";
    lit "/*   Updated: 2024/01/01 00:00:00 by user             ###   ########.fr       */";
    lit "/*                                                                            */" ].

Definition with_header : text :=
  List.concat (map (fun l => l ++ [LF])
                   (TARGET_START_STRING1 :: header_body
                    ++ [TARGET_START_STRING1; lit "  "]))
  ++ lit "int x;".

(** Two names of one file, by a hard link, and a second file; the
    standard output encodes everything. *)
Definition linked_world : world :=
  {| isdir := fun p => text_eqb p (lit "src");
     walk := fun _ => [ (lit "src", [], [lit "a.c"; lit "b.c"; lit "c.h"]) ];
     abspath := fun p => lit "/home/user/" ++ p;
     strerror := fun _ _ => lit "[Errno 13] Permission denied";
     lookup := fun p =>
       if text_eqb p (lit "src/a.c") || text_eqb p (lit "src/b.c")
       then Regular 0
       else if text_eqb p (lit "src/c.h") then Regular 1 else Absent;
     stdout_encodes := fun _ => true;
     cut_short := fun _ _ => None |}.

(** The same tree without the link. *)
Definition plain_world : world :=
  {| isdir := isdir linked_world;
     walk := fun _ => [ (lit "src", [], [lit "a.c"; lit "notes.txt"; lit "C.H"]) ];
     abspath := abspath linked_world;
     strerror := strerror linked_world;
     lookup := fun p =>
       if text_eqb p (lit "src/a.c") then Regular 0
       else if text_eqb p (lit "src/C.H") then Regular 1 else Absent;
     stdout_encodes := fun _ => true;
     cut_short := fun _ _ => None |}.

(** The same tree on a full disk: four characters of a text reach a
    file, the rest does not. *)
Definition full_disk_world : world :=
  {| isdir := isdir plain_world;
     walk := walk plain_world;
     abspath := abspath plain_world;
     strerror := fun _ _ => lit "[Errno 28] No space left on device";
     lookup := lookup plain_world;
     stdout_encodes := fun _ => true;
     cut_short := fun _ new_text =>
       if List.length new_text <=? 4 then None else Some 4 |}.

(** The first file has a header, the others hold one line. *)
Definition two_files : state :=
  {| files := fun i =>
       {| data := match i with 0 => with_header | _ => lit "int y;" end;
          readable := true;
          writable := true |};
     stdout := [];
     stderr := [] |}.

End HeaderSpec.

(* ================================================================== *)
(** * The matcher is sound and complete for [denotes] *)
(* ================================================================== *)

Section MatcherFacts.
Import Re.

Lemma strip_prefix_app (p s : text) : strip_prefix p (p ++ s) = Some s.
Proof.
  induction p as [|a p IH]; simpl; [reflexivity|].
  now rewrite Ascii.eqb_refl.
Qed.

Lemma strip_prefix_inv (p s s' : text) :
  strip_prefix p s = Some s' -> s = p ++ s'.
Proof.
  revert s; induction p as [|a p IH]; intros [|b s]; simpl; try congruence.
  destruct (Ascii.eqb a b) eqn:E; [|discriminate].
  apply Ascii.eqb_eq in E; subst b.
  intros H; apply IH in H; now subst.
Qed.

Lemma rep_sound A c min (s : text) (k : text -> option A) a :
  rep c min s k = Some a ->
  exists t s', s = t ++ s' /\ min <= List.length t
               /\ forallb (cc_match c) t = true /\ k s' = Some a.
Proof.
  revert min; induction s as [|x s IH]; intros min; simpl.
  - destruct (Nat.eqb_spec min 0) as [->|]; [|discriminate].
    intros H; exists [], []; auto.
  - assert (STOP : (if min =? 0 then k (x :: s) else None) = Some a ->
                   exists t s', x :: s = t ++ s' /\ min <= List.length t
                                /\ forallb (cc_match c) t = true /\ k s' = Some a).
    { destruct (Nat.eqb_spec min 0) as [->|]; [|discriminate].
      intros H; exists [], (x :: s); auto. }
    destruct (cc_match c x) eqn:Ex; [|exact STOP].
    destruct (rep c (pred min) s k) as [r|] eqn:Er; [|exact STOP].
    intros [= ->].
    destruct (IH _ Er) as (t & s' & -> & Hmin & Hall & Hk).
    exists (x :: t), s'; simpl; rewrite Ex, Hall; repeat split; auto; lia.
Qed.

Lemma rep_complete A c min (t s' : text) (k : text -> option A) a :
  min <= List.length t -> forallb (cc_match c) t = true -> k s' = Some a ->
  exists a', rep c min (t ++ s') k = Some a'.
Proof.
  revert min; induction t as [|x t IH]; intros min Hmin Hall Hk.
  - simpl in Hmin; assert (min = 0) by lia; subst min; simpl.
    destruct s' as [|y s']; simpl; [eauto|].
    destruct (cc_match c y); [|eauto].
    destruct (rep c 0 s' k); eauto.
  - simpl in Hall; apply andb_prop in Hall as [Hx Hall].
    simpl in Hmin |- *; rewrite Hx.
    destruct (IH (pred min)) as [a' ->]; auto; [lia|eauto].
Qed.

Lemma firstn_consumed (t s' : text) :
  firstn (List.length (t ++ s') - List.length s') (t ++ s') = t.
Proof.
  rewrite length_app, Nat.add_sub.
  rewrite firstn_app, Nat.sub_diag, firstn_all; simpl.
  now rewrite app_nil_r.
Qed.

Lemma exec_sound A r : forall (s : text) g (k : text -> option text -> option A) a,
  exec r s g k = Some a ->
  exists t s' g', s = t ++ s' /\ denotes r t g g' /\ k s' g' = Some a.
Proof.
  induction r as [l|c min|r1 IH1 r2 IH2|r IH]; intros s g k a; simpl.
  - destruct (strip_prefix (lit l) s) as [s'|] eqn:E; [|discriminate].
    apply strip_prefix_inv in E; intros H.
    exists (lit l), s', g; repeat split; auto; constructor.
  - intros H; apply rep_sound in H as (t & s' & -> & Hmin & Hall & Hk).
    exists t, s', g; repeat split; auto; now constructor.
  - intros H; apply IH1 in H as (t1 & s1 & g1 & -> & D1 & H).
    apply IH2 in H as (t2 & s2 & g2 & -> & D2 & H).
    exists (t1 ++ t2), s2, g2; rewrite <- app_assoc; repeat split; auto.
    econstructor; eauto.
  - intros H; apply IH in H as (t & s' & g' & -> & D & H).
    rewrite firstn_consumed in H.
    exists t, s', (Some t); repeat split; auto; econstructor; eauto.
Qed.

Lemma exec_complete A r t g g' :
  denotes r t g g' ->
  forall (s' : text) (k : text -> option text -> option A) a,
    k s' g' = Some a -> exists a', exec r (t ++ s') g k = Some a'.
Proof.
  induction 1 as [l g|c min t g Hmin Hall|r1 r2 t1 t2 g g' g'' D1 IH1 D2 IH2
                  |r t g g' D IH]; intros s' k a Hk; simpl.
  - rewrite strip_prefix_app; eauto.
  - eapply rep_complete; eauto.
  - rewrite <- app_assoc.
    destruct (IH2 _ _ _ Hk) as [a2 H2].
    eapply IH1; exact H2.
  - eapply IH with (k := fun s' _ => k s' (Some (firstn (List.length (t ++ _) - List.length s') (t ++ _)))).
    rewrite firstn_consumed; exact Hk.
Qed.

(** A match found at the head of [s] is a prefix of [s] the pattern
    denotes. *)
Lemma match_here_sound r s len g :
  match_here r s = Some (len, g) ->
  exists t s', s = t ++ s' /\ len = List.length t /\ denotes r t None g.
Proof.
  unfold match_here; intros H.
  apply exec_sound in H as (t & s' & g' & -> & D & [= <- <-]).
  exists t, s'; repeat split; auto.
  now rewrite length_app, Nat.add_sub.
Qed.

(** Where the pattern denotes a prefix, the matcher finds a match. *)
Lemma match_here_complete r t g s' :
  denotes r t None g -> exists m, match_here r (t ++ s') = Some m.
Proof.
  intros D; unfold match_here.
  eapply exec_complete with (k := fun s'0 g0 => Some (List.length (t ++ s') - List.length s'0, g0)); eauto.
Qed.

End MatcherFacts.

(* ================================================================== *)
(** * The patterns and the scan *)
(* ================================================================== *)

Import Re Tester.

Ltac inv H := inversion H; subst; clear H.
Ltac inv_denotes :=
  repeat match goal with
         | H : denotes (Seq _ _) _ _ _ |- _ => inv H
         | H : denotes (Lit _) _ _ _ |- _ => inv H
         | H : denotes (Rep _ _) _ _ _ |- _ => inv H
         | H : denotes (Group _) _ _ _ |- _ => inv H
         end.

Lemma nonempty_length (t : text) : 1 <= List.length t -> t <> [].
Proof. destruct t; simpl; [lia|discriminate]. Qed.

Lemma length_nonempty (t : text) : t <> [] -> 1 <= List.length t.
Proof. destruct t; simpl; [congruence|lia]. Qed.

Lemma denotes_server t g : denotes re_server t None g <-> opener t /\ g = None.
Proof.
  unfold re_server; split.
  - intros H; inv_denotes.
    split; [|reflexivity]. now constructor.
  - intros [[w Hw] ->].
    repeat econstructor; auto; lia.
Qed.

Lemma denotes_listen t g :
  denotes re_listen t None g <->
  exists w d, t = lit "listen" ++ w ++ d ++ lit ";" /\ w <> [] /\ blank w
              /\ d <> [] /\ digits d /\ g = Some d.
Proof.
  unfold re_listen; split.
  - intros H; inv_denotes.
    do 2 eexists; repeat split; eauto using nonempty_length.
  - intros (w & d & -> & Hw & Bw & Hd & Dd & ->).
    repeat econstructor; auto using length_nonempty.
Qed.

Lemma notchar_forall (a : text) :
  forallb (cc_match (NotChar ";")) a = true <-> ~ In ";"%char a.
Proof.
  induction a as [|c a IH]; cbn [forallb cc_match In]; [intuition|].
  rewrite andb_true_iff, IH, negb_true_iff.
  destruct (Ascii.eqb_spec ";"%char c) as [E|N]; split.
  - intros [? _]; discriminate.
  - intros H; exfalso; apply H; now left.
  - intros [_ H] [E|I]; [now apply N|now apply H].
  - intros H; split; [reflexivity|]. intros I; apply H; now right.
Qed.

Lemma denotes_server_name t g :
  denotes re_server_name t None g <->
  exists a, server_name_directive t a /\ g = Some a.
Proof.
  unfold re_server_name; split.
  - intros H; inv_denotes.
    eexists; split; [|reflexivity].
    constructor; eauto using nonempty_length.
    now apply notchar_forall.
  - intros (a & [w a' Hw Bw Ha Na] & ->).
    apply notchar_forall in Na.
    repeat econstructor; auto using length_nonempty.
Qed.
Section ScanFacts.
Variable r : regex.

Lemma scan_skip (x rest : text) : scan r (x ++ rest) (List.length x) = scan r rest 0.
Proof. induction x as [|c x IH]; simpl; [reflexivity|exact IH]. Qed.

Lemma pushes_app (g1 g2 : text) res : pushes (g1 ++ g2) res = pushes g1 (pushes g2 res).
Proof. unfold pushes; now rewrite fold_right_app. Qed.

Lemma pushes_miss (g : text) items last :
  pushes g (items, last)
  = match items with
    | [] => ([], g ++ last)
    | (gap, m) :: items' => ((g ++ gap, m) :: items', last)
    end.
Proof.
  induction g as [|c g IH]; cbn [pushes fold_right app].
  - now destruct items as [|[gap m] items].
  - fold (pushes g (items, last)); rewrite IH.
    now destruct items as [|[gap m] items].
Qed.

(** Text in which no match starts is passed over. *)
Lemma scan_gap (g rest : text) :
  (forall a b, g = a ++ b -> b <> [] -> match_here r (b ++ rest) = None) ->
  scan r (g ++ rest) 0 = pushes g (scan r rest 0).
Proof.
  induction g as [|c g IH]; intros H; [reflexivity|].
  cbn [app scan]; unfold pushes; cbn [fold_right].
  assert (H0 := H [] (c :: g) eq_refl ltac:(discriminate)).
  cbn [app] in H0; rewrite H0.
  fold (pushes g (scan r rest 0)).
  rewrite IH; [reflexivity|].
  intros a b -> Hb; apply (H (c :: a) b); auto.
Qed.

(** A match at the head of the text is recorded, and the scan resumes
    after it. *)
Lemma scan_hit (t rest : text) g :
  t <> [] -> match_here r (t ++ rest) = Some (List.length t, g) ->
  scan r (t ++ rest) 0
  = (([], (t, g)) :: fst (scan r rest 0), snd (scan r rest 0)).
Proof.
  destruct t as [|c t]; [congruence|]; intros _ H.
  cbn [app scan]; cbn [app] in H; rewrite H; cbn [List.length].
  rewrite scan_skip.
  destruct (scan r rest 0) as [items last]; cbn [fst snd].
  do 4 f_equal.
  change (firstn (List.length (c :: t)) ((c :: t) ++ rest) = c :: t).
  rewrite firstn_app, Nat.sub_diag, firstn_all; cbn [firstn]; apply app_nil_r.
Qed.

End ScanFacts.

(** ** Patterns whose matches start with a character they do not repeat *)

Section HeadChar.
Variable r : regex.
Variable h : ascii.
Hypothesis head_once :
  forall t g, denotes r t None g -> exists t', t = h :: t' /\ ~ In h t'.

Lemma match_starts s m : match_here r s = Some m -> exists s', s = h :: s'.
Proof.
  destruct m as [len g]; intros H.
  apply match_here_sound in H as (t & s' & -> & _ & D).
  apply head_once in D as (t' & -> & _); simpl; eauto.
Qed.

Lemma match_here_nil : match_here r [] = None.
Proof.
  destruct (match_here r []) as [m|] eqn:E; [|reflexivity].
  apply match_starts in E as [s' E]; discriminate.
Qed.

Lemma match_nonempty s len g : match_here r s = Some (len, g) -> 0 < len.
Proof.
  intros H; apply match_here_sound in H as (t & s' & -> & -> & D).
  apply head_once in D as (t' & -> & _); simpl; lia.
Qed.

Lemma skipn_In (A : Type) (x : A) k l l' : skipn k l = x :: l' -> In x l.
Proof.
  intros H; rewrite <- (firstn_skipn k l), H.
  apply in_or_app; right; now left.
Qed.

(** No match starts inside another. *)
Lemma match_no_overlap s len g k :
  match_here r s = Some (len, g) -> 0 < k < len ->
  match_here r (skipn k s) = None.
Proof.
  intros H Hk.
  apply match_here_sound in H as (t & s' & -> & -> & D).
  apply head_once in D as (t' & -> & Hin).
  destruct (match_here r (skipn k ((h :: t') ++ s'))) as [m|] eqn:E; [|reflexivity].
  apply match_starts in E as [s2 E].
  exfalso; apply Hin.
  destruct k as [|k]; [lia|].
  cbn [app skipn] in E; cbn [List.length] in Hk.
  rewrite skipn_app in E.
  assert (Hl : k - List.length t' = 0) by lia; rewrite Hl in E; cbn [skipn] in E.
  destruct (skipn k t') as [|x l] eqn:Es.
  - apply (f_equal (@List.length _)) in Es; rewrite length_skipn in Es.
    simpl in Es; lia.
  - cbn [app] in E; injection E as -> _.
    eapply skipn_In; eauto.
Qed.

(** No match starts in [b] and runs into text that begins with [h]. *)
Lemma match_no_straddle (b rest : text) m :
  b <> [] -> (rest = [] \/ exists rest', rest = h :: rest') ->
  match_here r (b ++ rest) = Some m ->
  exists t l g, b = t ++ l /\ denotes r t None g.
Proof.
  destruct m as [len g]; intros Hb Hrest H.
  apply match_here_sound in H as (t & s' & E & _ & D).
  exists t; apply app_eq_app in E as [l [[-> ->]|[-> E]]]; [eauto|].
  destruct l as [|c l].
  { exists [], g; rewrite app_nil_r in D; rewrite !app_nil_r; auto. }
  exfalso.
  cbn [app] in E.
  destruct Hrest as [->|[rest' ->]]; [discriminate E|].
  injection E as <- _.
  apply head_once in D as (t' & E & Hin).
  destruct b as [|c b]; [congruence|].
  cbn [app] in E; injection E as -> <-.
  apply Hin, in_or_app; right; now left.
Qed.

Lemma map_push (A : Type) (f : text * option text -> A) c res :
  map (fun it => f (snd it)) (fst (push c res))
  = map (fun it => f (snd it)) (fst res).
Proof. now destruct res as [[|[gap m] items] last]. Qed.

(** The scan records a match at every offset where the pattern matches. *)
Lemma scan_all s : forall skip i,
  (forall k, k < skip -> match_here r (skipn k s) = None) ->
  map (fun it => snd (snd it)) (fst (scan r s skip))
  = map (fun m => snd (snd m)) (matches_from r s i).
Proof.
  induction s as [|c s IH]; intros skip i Hskip.
  - cbn [scan matches_from]; rewrite match_here_nil.
    now destruct skip.
  - cbn [scan matches_from].
    destruct skip as [|n].
    + destruct (match_here r (c :: s)) as [[[|n] g]|] eqn:E.
      * apply match_nonempty in E; lia.
      * specialize (IH n (S i)).
        destruct (scan r s n) as [items last]; cbn [fst map app snd] in *.
        f_equal; apply IH.
        intros k Hk.
        apply (match_no_overlap _ _ _ (S k) E); lia.
      * cbn [app]; rewrite (map_push _ (fun m => snd m)).
        apply IH; intros k Hk; lia.
    + assert (H0 := Hskip 0 ltac:(lia)); cbn [skipn] in H0; rewrite H0; cbn [app].
      apply IH; intros k Hk; apply (Hskip (S k)); lia.
Qed.

Lemma matches_from_spec s : forall i j m,
  In (j, m) (matches_from r s i) <->
  exists k, j = i + k /\ match_here r (skipn k s) = Some m.
Proof.
  induction s as [|c s IH]; intros i j m; cbn [matches_from].
  - rewrite match_here_nil; split; [intros []|].
    intros (k & _ & H); rewrite skipn_nil, match_here_nil in H; discriminate.
  - rewrite in_app_iff, IH; split.
    + intros [H|(k & -> & H)].
      * destruct (match_here r (c :: s)) as [m'|] eqn:E; [|destruct H].
        destruct H as [[= <- <-]|[]].
        exists 0; rewrite Nat.add_0_r; auto.
      * exists (S k); split; [lia|exact H].
    + intros ([|k] & -> & H).
      * left; cbn [skipn] in H; rewrite H, Nat.add_0_r; now left.
      * right; exists k; split; [lia|exact H].
Qed.

Lemma matches_from_sorted s : forall i,
  StronglySorted lt (map fst (matches_from r s i))
  /\ Forall (fun j => i <= j) (map fst (matches_from r s i)).
Proof.
  induction s as [|c s IH]; intros i; cbn [matches_from].
  - rewrite match_here_nil; split; constructor.
  - destruct (IH (S i)) as [S1 F1].
    destruct (match_here r (c :: s)) as [m|]; cbn [app map fst].
    + split.
      * constructor; auto.
      * constructor; [lia|].
        eapply Forall_impl; [|exact F1]; intros; simpl in *; lia.
    + split; auto.
      eapply Forall_impl; [|exact F1]; intros; simpl in *; lia.
Qed.

End HeadChar.

(** ** The three patterns *)

Lemma blank_In w c : blank w -> In c w -> isspace c = true.
Proof. unfold blank; rewrite forallb_forall; auto. Qed.

Lemma digits_In d c : digits d -> In c d -> isdecimal c = true.
Proof. unfold digits; rewrite forallb_forall; auto. Qed.

Ltac not_in_literal H :=
  repeat (destruct H as [H|H]; [discriminate H|]); destruct H.

Lemma server_head t g :
  denotes re_server t None g -> exists t', t = "s"%char :: t' /\ ~ In "s"%char t'.
Proof.
  intros H; apply denotes_server in H as [[w Hw] _].
  exists (lit "erver" ++ w ++ lit "{"); split; [reflexivity|].
  intros H; apply in_app_or in H as [H|H]; [not_in_literal H|].
  apply in_app_or in H as [H|H]; [|not_in_literal H].
  apply (blank_In _ _ Hw) in H; discriminate H.
Qed.

Lemma listen_head t g :
  denotes re_listen t None g -> exists t', t = "l"%char :: t' /\ ~ In "l"%char t'.
Proof.
  intros H; apply denotes_listen in H as (w & d & -> & _ & Hw & _ & Hd & _).
  exists (lit "isten" ++ w ++ d ++ lit ";"); split; [reflexivity|].
  intros H; apply in_app_or in H as [H|H]; [not_in_literal H|].
  apply in_app_or in H as [H|H].
  { apply (blank_In _ _ Hw) in H; discriminate H. }
  apply in_app_or in H as [H|H]; [|not_in_literal H].
  apply (digits_In _ _ Hd) in H; discriminate H.
Qed.

(** Two runs of one class, each followed by a character outside it, are
    the same run when they start the same text. *)
Lemma span_unique (p : ascii -> bool) (u u' : text) c c' y y' :
  forallb p u = true -> forallb p u' = true -> p c = false -> p c' = false ->
  u ++ c :: y = u' ++ c' :: y' -> u = u' /\ c = c' /\ y = y'.
Proof.
  revert u'; induction u as [|a u IH]; intros [|a' u']; cbn [forallb app];
    intros Hu Hu' Hc Hc' E.
  - now injection E as -> ->.
  - injection E as -> _; apply andb_prop in Hu' as [Ha _]; congruence.
  - injection E as -> _; apply andb_prop in Hu as [Ha _]; congruence.
  - injection E as -> E.
    apply andb_prop in Hu as [_ Hu]; apply andb_prop in Hu' as [_ Hu'].
    destruct (IH u' Hu Hu' Hc Hc' E) as (-> & -> & ->); auto.
Qed.

Lemma decimal_not_space c : isdecimal c = true -> isspace c = false.
Proof.
  destruct c as [[] [] [] [] [] [] [] []]; vm_compute; congruence.
Qed.

Lemma opener_unique t t' y y' :
  opener t -> opener t' -> t ++ y = t' ++ y' -> t = t'.
Proof.
  intros [w Hw] [w' Hw'] E.
  rewrite <- !app_assoc in E; apply app_inv_head in E.
  cbn [lit list_ascii_of_string app] in E.
  apply (span_unique isspace) in E as (-> & _); auto.
Qed.

Lemma listen_unique t t' n n' y y' :
  listen_directive t n -> listen_directive t' n' -> t ++ y = t' ++ y' ->
  t = t' /\ n = n'.
Proof.
  intros [w d Nw Hw Nd Hd] [w' d' Nw' Hw' Nd' Hd'] E.
  rewrite <- !app_assoc in E; apply app_inv_head in E.
  destruct d as [|c d]; [congruence|]; destruct d' as [|c' d']; [congruence|].
  cbn [app] in E.
  pose proof Hd as Hd0; pose proof Hd' as Hd0'.
  unfold digits in Hd0, Hd0'; cbn [forallb] in Hd0, Hd0'.
  apply andb_prop in Hd0 as [Hc Hd0]; apply andb_prop in Hd0' as [Hc' Hd0'].
  apply (span_unique isspace) in E as (-> & -> & E);
    auto using decimal_not_space.
  cbn [lit list_ascii_of_string app] in E.
  apply (span_unique isdecimal) in E as (-> & _); auto.
Qed.

(** ** [re.split] on a configuration *)

Lemma skipn_length_app (a x : text) : skipn (List.length a) (a ++ x) = x.
Proof. induction a; simpl; auto. Qed.

(** Where an opener is a prefix, the matcher finds exactly it. *)
Lemma match_opener t rest :
  opener t -> match_here re_server (t ++ rest) = Some (List.length t, None).
Proof.
  intros Ho.
  destruct (match_here_complete re_server t None rest) as [[len g] E].
  { apply denotes_server; auto. }
  rewrite E; apply match_here_sound in E as (t' & s' & E & -> & D).
  apply denotes_server in D as [Ho' ->].
  now rewrite (opener_unique _ _ _ _ Ho Ho' E).
Qed.

Lemma opener_nonempty t : opener t -> t <> [].
Proof. intros [w _]; discriminate. Qed.

(** Text free of openers, followed by nothing or by a block, holds no
    match. *)
Lemma gap_no_match (g rest : text) :
  opener_free g -> (rest = [] \/ exists rest', rest = "s"%char :: rest') ->
  forall a b, g = a ++ b -> b <> [] -> match_here re_server (b ++ rest) = None.
Proof.
  intros Hfree Hrest a b -> Hb.
  destruct (match_here re_server (b ++ rest)) as [m|] eqn:E; [|reflexivity].
  exfalso.
  apply (match_no_straddle re_server "s"%char server_head) in E
    as (t & l & gg & -> & D); auto.
  apply denotes_server in D as [Ho _].
  apply (Hfree (List.length a)); exists t; split; [|exact Ho].
  exists l; apply skipn_length_app.
Qed.

Lemma blocks_start (blocks : list block) :
  flat_map render blocks = []
  \/ exists rest', flat_map render blocks = "s"%char :: rest'.
Proof. destruct blocks as [|b bs]; [now left|right]; cbn; eauto. Qed.

Lemma split_pushes g res :
  (let '(items, last) := pushes g res in map fst items ++ [last])
  = match (let '(items, last) := res in map fst items ++ [last]) with
    | first :: others => (g ++ first) :: others
    | [] => []
    end.
Proof.
  destruct res as [items last]; rewrite pushes_miss.
  now destruct items as [|[gap m] items].
Qed.

Lemma split_blocks (blocks : list block) : forall g,
  opener_free g -> Forall well_formed blocks ->
  Re.split re_server (g ++ flat_map render blocks) = g :: map body blocks.
Proof.
  induction blocks as [|b bs IH]; intros g Hg Hwf; unfold Re.split.
  - cbn [flat_map map].
    rewrite scan_gap by (apply gap_no_match; auto).
    cbn [scan]; rewrite (match_here_nil re_server "s"%char server_head).
    rewrite pushes_miss; cbn; now rewrite app_nil_r.
  - inversion Hwf as [|? ? [Hb Hfree] Hwf']; subst.
    cbn [flat_map map].
    rewrite scan_gap by (apply gap_no_match; auto; right; cbn; eauto).
    rewrite split_pushes.
    assert (Ho : opener (lit "server" ++ blanks b ++ lit "{")) by now constructor.
    assert (E : render b ++ flat_map render bs
                = (lit "server" ++ blanks b ++ lit "{")
                    ++ body b ++ flat_map render bs).
    { unfold render. now rewrite <- ?app_assoc. }
    rewrite E; clear E.
    rewrite scan_hit with (g := None);
      [|now apply opener_nonempty|now apply match_opener].
    specialize (IH (body b) Hfree Hwf'); unfold Re.split in IH.
    destruct (scan re_server (body b ++ flat_map render bs) 0) as [items last].
    cbn [fst snd map app]; now rewrite IH, app_nil_r.
Qed.

(** ** [listen] directives *)

Lemma listen_match s len g :
  match_here re_listen s = Some (len, g) ->
  exists t rest d,
    s = t ++ rest /\ g = Some d /\ d <> [] /\ digits d
    /\ listen_directive t (int_digits d).
Proof.
  intros H; apply match_here_sound in H as (t & rest & -> & _ & D).
  apply denotes_listen in D as (w & d & -> & Nw & Hw & Nd & Hd & ->).
  exists (lit "listen" ++ w ++ d ++ lit ";"), rest, d.
  split; [reflexivity|]; split; [reflexivity|]; split; [exact Nd|].
  split; [exact Hd|now constructor].
Qed.

Lemma listen_matches_groups body m :
  In m (matches_from re_listen body 0) ->
  exists d, snd (snd m) = Some d /\ d <> [] /\ digits d
            /\ listen_at body (fst m) (int_digits d).
Proof.
  destruct m as [j [len g]]; intros H.
  apply (matches_from_spec re_listen "l"%char listen_head) in H as (k & -> & H).
  apply listen_match in H as (t & rest & d & E & -> & Nd & Hd & L).
  exists d; repeat split; auto.
  exists t; split; [exists rest; exact E|exact L].
Qed.

Lemma listen_match_digits s len g :
  match_here re_listen s = Some (len, g) ->
  exists w d rest,
    s = (lit "listen" ++ w ++ d ++ lit ";") ++ rest /\ g = Some d
    /\ w <> [] /\ blank w /\ d <> [] /\ digits d.
Proof.
  intros H; apply match_here_sound in H as (t & rest & -> & _ & D).
  apply denotes_listen in D as (w & d & -> & Nw & Hw & Nd & Hd & ->).
  exists w, d, rest; auto 10.
Qed.

Lemma listen_matches_digits body m :
  In m (matches_from re_listen body 0) ->
  exists d, snd (snd m) = Some d /\ listen_digits_at body (fst m) d.
Proof.
  destruct m as [j [len g]]; intros H.
  apply (matches_from_spec re_listen "l"%char listen_head) in H as (k & -> & H).
  apply listen_match_digits in H as (w & d & rest & E & -> & Nw & Hw & Nd & Hd).
  exists d; split; [reflexivity|].
  exists w; split; [exists rest; exact E|auto].
Qed.

Lemma listen_digits_unique w d w' d' y y' :
  blank w -> blank w' -> d <> [] -> digits d -> d' <> [] -> digits d' ->
  (lit "listen" ++ w ++ d ++ lit ";") ++ y
  = (lit "listen" ++ w' ++ d' ++ lit ";") ++ y' ->
  d = d'.
Proof.
  intros Hw Hw' Nd Hd Nd' Hd' E.
  rewrite <- !app_assoc in E; apply app_inv_head in E.
  destruct d as [|c d]; [congruence|]; destruct d' as [|c' d']; [congruence|].
  cbn [app] in E.
  pose proof Hd as Hd0; pose proof Hd' as Hd0'.
  unfold digits in Hd0, Hd0'; cbn [forallb] in Hd0, Hd0'.
  apply andb_prop in Hd0 as [Hc Hd0]; apply andb_prop in Hd0' as [Hc' Hd0'].
  apply (span_unique isspace) in E as (-> & -> & E);
    auto using decimal_not_space.
  cbn [lit list_ascii_of_string app] in E.
  apply (span_unique isdecimal) in E as (-> & _); auto.
Qed.

(** Every [listen] directive of the text is found, with its digits. *)
Lemma listen_digits_found body i d :
  listen_digits_at body i d ->
  exists m, In (i, m) (matches_from re_listen body 0) /\ snd m = Some d.
Proof.
  intros (w & [rest E] & Nw & Hw & Nd & Hd).
  destruct (match_here_complete re_listen (lit "listen" ++ w ++ d ++ lit ";")
              (Some d) rest) as [[len g] Hm].
  { apply denotes_listen; exists w, d; auto 10. }
  rewrite <- E in Hm.
  exists (len, g); split.
  - apply (matches_from_spec re_listen "l"%char listen_head).
    exists i; split; [reflexivity|exact Hm].
  - apply listen_match_digits in Hm
      as (w' & d' & rest' & E' & -> & Nw' & Hw' & Nd' & Hd').
    rewrite E in E'; cbn [snd]; f_equal; symmetry.
    exact (listen_digits_unique w d w' d' rest rest' Hw Hw' Nd Hd Nd' Hd' E').
Qed.

(** The groups found by computation decide [ports_convert]. *)
Lemma ports_convert_by_scan s :
  forallb (fun m => List.length (group_text m) <=? INT_MAX_STR_DIGITS)
          (matches_from re_listen s 0) = true ->
  ports_convert s.
Proof.
  intros H i d Hd.
  apply listen_digits_found in Hd as (m & Hin & E).
  rewrite forallb_forall in H; specialize (H _ Hin).
  unfold group_text in H; cbn [snd] in H; rewrite E in H.
  now apply Nat.leb_le.
Qed.

Lemma port_too_long_by_scan s :
  existsb (fun m => negb (List.length (group_text m) <=? INT_MAX_STR_DIGITS))
          (matches_from re_listen s 0) = true ->
  port_too_long s.
Proof.
  intros H; apply existsb_exists in H as (m & Hin & Hl).
  destruct (listen_matches_digits s m Hin) as (d & E & Hat).
  exists (fst m), d; split; [exact Hat|].
  unfold group_text in Hl; rewrite E in Hl.
  now apply negb_true_iff, Nat.leb_gt in Hl.
Qed.

Lemma findall_listen body :
  findall re_listen body = map group_text (matches_from re_listen body 0).
Proof.
  unfold findall.
  assert (H := scan_all re_listen "l"%char listen_head body 0 0
                 ltac:(intros k Hk; lia)).
  assert (G : forall m, In m (matches_from re_listen body 0) -> snd (snd m) <> None).
  { intros m Hm; apply listen_matches_groups in Hm as (d & E & _); rewrite E; discriminate. }
  revert H G; generalize (matches_from re_listen body 0) as ms.
  generalize (fst (scan re_listen body 0)) as items.
  induction items as [|it items IH]; intros [|m ms]; cbn [map]; try discriminate; auto.
  intros [= E1 E2] G; f_equal.
  - unfold group_text, found in *; rewrite <- E1.
    destruct (snd (snd it)) eqn:E; [reflexivity|].
    exfalso; apply (G m); [now left|congruence].
  - apply IH; auto; intros m' Hm'; apply G; now right.
Qed.

Lemma int_digits_short s :
  s <> [] -> digits s -> List.length s <= INT_MAX_STR_DIGITS ->
  int s = Some (int_digits s).
Proof.
  intros Ns Hs Hl; unfold int; destruct s as [|c s]; [congruence|].
  unfold digits in Hs; rewrite Hs.
  now rewrite (proj2 (Nat.leb_le _ _) Hl).
Qed.

Lemma int_long s : INT_MAX_STR_DIGITS < List.length s -> int s = None.
Proof.
  intros Hl; unfold int; destruct s as [|c s]; [reflexivity|].
  now rewrite (proj2 (Nat.leb_gt _ _) Hl), andb_false_r.
Qed.

Lemma ints_digits ss :
  Forall (fun s => s <> [] /\ digits s
                   /\ List.length s <= INT_MAX_STR_DIGITS) ss ->
  ints ss = inr (map int_digits ss).
Proof.
  induction 1 as [|s ss (Ns & Hs & Hl) _ IH]; cbn [ints map]; [reflexivity|].
  now rewrite int_digits_short, IH.
Qed.

Lemma ints_long ss :
  Exists (fun s => INT_MAX_STR_DIGITS < List.length s) ss ->
  exists bad, ints ss = inl bad.
Proof.
  induction 1 as [s ss Hl|s ss _ [bad IH]]; cbn [ints].
  - rewrite int_long by exact Hl; eauto.
  - destruct (int s); [rewrite IH|]; eauto.
Qed.

Lemma digit_value_nonneg c : isdecimal c = true -> (0 <= digit_value c)%Z.
Proof.
  unfold isdecimal, digit_value; intros H.
  apply andb_prop in H as [H _]; apply Nat.leb_le in H; lia.
Qed.

Lemma int_digits_nonneg d : digits d -> (0 <= int_digits d)%Z.
Proof.
  unfold int_digits; intros H.
  assert (G : forall acc, (0 <= acc)%Z ->
            (0 <= fold_left (fun acc c => 10 * acc + digit_value c) d acc)%Z);
    [|apply G; lia].
  unfold digits in H; induction d as [|c d IH]; intros acc Hacc; cbn [fold_left]; auto.
  cbn [forallb] in H; apply andb_prop in H as [Hc Hd].
  apply IH; auto.
  pose proof (digit_value_nonneg c Hc); lia.
Qed.

Lemma Forall2_map_same (A B C : Type) (R : B -> C -> Prop) (f : A -> B) (g : A -> C) l :
  (forall x, In x l -> R (f x) (g x)) -> Forall2 R (map f l) (map g l).
Proof.
  induction l as [|x l IH]; intros H; cbn [map]; constructor.
  - apply H; now left.
  - apply IH; intros y Hy; apply H; now right.
Qed.

(** The ports of a block: every [listen] directive, in textual order. *)
Lemma listen_ports body :
  ports_convert body ->
  exists ps, ints (findall re_listen body) = inr ps
             /\ ports_in_order body ps /\ Forall (fun p => 0 <= p)%Z ps.
Proof.
  intros Hshort; rewrite findall_listen.
  set (ms := matches_from re_listen body 0).
  assert (G := listen_matches_groups body); fold ms in G.
  exists (map int_digits (map group_text ms)); split; [|split].
  - apply ints_digits, Forall_forall; intros s Hs.
    apply in_map_iff in Hs as (m & <- & Hm).
    destruct (G m Hm) as (d & E & Nd & Hd & _).
    destruct (listen_matches_digits body m Hm) as (d' & E' & Hat).
    rewrite E in E'; injection E' as <-.
    unfold group_text; rewrite E; eauto.
  - exists (map fst ms); split; [|split].
    + apply (matches_from_sorted re_listen "l"%char listen_head).
    + rewrite map_map; apply Forall2_map_same; intros m Hm.
      destruct (G m Hm) as (d & E & _ & _ & L).
      unfold group_text; rewrite E; exact L.
    + intros i n (t & [rest E] & L).
      inversion L as [w d Nw Hw Nd Hd]; subst.
      destruct (match_here_complete re_listen (lit "listen" ++ w ++ d ++ lit ";")
                  (Some d) rest) as [m Hm].
      { apply denotes_listen; exists w, d; auto 10. }
      rewrite <- E in Hm.
      apply in_map_iff; exists (i, m); split; [reflexivity|].
      apply (matches_from_spec re_listen "l"%char listen_head).
      exists i; auto.
  - rewrite map_map; apply Forall_forall; intros p Hp.
    apply in_map_iff in Hp as (m & <- & Hm).
    destruct (G m Hm) as (d & E & _ & Hd & _).
    unfold group_text; rewrite E; now apply int_digits_nonneg.
Qed.

(** A port with too many digits stops the conversion. *)
Lemma listen_ports_long body :
  port_too_long body -> exists bad, ints (findall re_listen body) = inl bad.
Proof.
  intros (i & d & Hat & Hl); rewrite findall_listen.
  apply ints_long, Exists_exists.
  apply listen_digits_found in Hat as (m & Hin & E).
  exists d; split; [|exact Hl].
  apply in_map_iff; exists (i, m); split; [|exact Hin].
  unfold group_text; cbn [snd]; now rewrite E.
Qed.

(** ** The first match of a scan *)

Lemma skipn_split_at (a b rest : text) i s :
  firstn i s = a ++ b -> rest = skipn i s ->
  skipn (List.length a) s = b ++ rest.
Proof.
  intros E ->.
  rewrite <- (firstn_skipn i s) at 1; rewrite E, <- app_assoc.
  apply skipn_length_app.
Qed.

Lemma scan_none r s :
  (forall k, match_here r (skipn k s) = None) -> scan r s 0 = ([], s).
Proof.
  intros H.
  rewrite <- (app_nil_r s) at 1.
  rewrite scan_gap.
  - cbn [scan].
    assert (H0 := H (List.length s)); rewrite skipn_all in H0; rewrite H0.
    rewrite pushes_miss; now rewrite app_nil_r.
  - intros a b -> _; rewrite app_nil_r, <- (skipn_length_app a b); apply H.
Qed.

Lemma scan_first r s i len g :
  match_here r (skipn i s) = Some (len, g) -> 0 < len ->
  (forall j, j < i -> match_here r (skipn j s) = None) ->
  exists t items last, scan r s 0 = ((firstn i s, (t, g)) :: items, last).
Proof.
  intros H Hlen Hmin.
  pose proof H as H'.
  apply match_here_sound in H' as (t & s' & E & -> & _).
  assert (Ht : t <> []) by (destruct t; [simpl in Hlen; lia|discriminate]).
  assert (Es : scan r s 0 = scan r (firstn i s ++ skipn i s) 0)
    by now rewrite firstn_skipn.
  rewrite Es, scan_gap.
  - rewrite E in H |- *.
    rewrite (scan_hit r t s' g Ht H), pushes_miss, app_nil_r; eauto.
  - intros a b Ea Hb.
    rewrite <- (skipn_split_at a b _ i s Ea eq_refl).
    apply Hmin.
    assert (L : List.length (firstn i s) <= i) by apply firstn_le_length.
    rewrite Ea, length_app in L.
    destruct b; [congruence|simpl in L; lia].
Qed.

(** ** [server_name] directives *)

Lemma blank_notchar w : blank w -> forallb (cc_match (NotChar ";")) w = true.
Proof.
  unfold blank; intros H; apply forallb_forall; intros c Hc.
  rewrite forallb_forall in H; apply H in Hc.
  cbn [cc_match]; destruct (Ascii.eqb_spec ";"%char c) as [<-|]; [discriminate Hc|reflexivity].
Qed.

Lemma split_blank_prefix w x : blank w -> PyStr.split (w ++ x) = PyStr.split x.
Proof.
  unfold blank, PyStr.split; induction w as [|c w IH]; cbn [forallb app]; auto.
  intros H; apply andb_prop in H as [Hc Hw].
  cbn [split_from]; rewrite Hc; auto.
Qed.

Lemma server_name_match s len g :
  match_here re_server_name s = Some (len, g) ->
  0 < len /\ exists t rest a,
    s = t ++ rest /\ g = Some a /\ server_name_directive t a.
Proof.
  intros H; apply match_here_sound in H as (t & rest & -> & -> & D).
  apply denotes_server_name in D as (a & D & ->).
  split; [inversion D; simpl; lia|eauto 6].
Qed.

(** Two [server_name] directives at the head of one text have arguments
    that split alike. *)
Lemma server_name_split t t' a a' y y' :
  server_name_directive t a -> server_name_directive t' a' ->
  t ++ y = t' ++ y' -> PyStr.split a = PyStr.split a'.
Proof.
  intros [w b Nw Hw Nb Hb] [w' b' Nw' Hw' Nb' Hb'] E.
  rewrite <- !app_assoc in E; apply app_inv_head in E.
  rewrite !app_assoc in E; rewrite <- !(app_assoc _ (lit ";")) in E.
  cbn [lit list_ascii_of_string app] in E.
  apply (span_unique (cc_match (NotChar ";"))) in E as (E & _).
  - rewrite <- (split_blank_prefix w b Hw), E; now apply split_blank_prefix.
  - rewrite forallb_app, (blank_notchar _ Hw); now apply notchar_forall.
  - rewrite forallb_app, (blank_notchar _ Hw'); now apply notchar_forall.
  - reflexivity.
  - reflexivity.
Qed.

(** The names of a block: the first [server_name] directive, split. *)
Lemma first_names body :
  names_of_first body
    match findall re_server_name body with
    | first :: _ => PyStr.split first
    | [] => []
    end.
Proof.
  split.
  - intros i arg (t & [rest E] & D) Hmin.
    destruct (match_here_complete re_server_name t (Some arg) rest) as [[len g] Hm].
    { apply denotes_server_name; eauto. }
    rewrite <- E in Hm.
    pose proof Hm as Hm'.
    apply server_name_match in Hm' as (Hlen & t' & rest' & a' & E' & -> & D').
    destruct (scan_first re_server_name body i len (Some a') Hm Hlen)
      as (t0 & items & last & Hs).
    { intros j Hj.
      destruct (match_here re_server_name (skipn j body)) as [[l gg]|] eqn:Ej; auto.
      apply server_name_match in Ej as (_ & t2 & r2 & a2 & E2 & _ & D2).
      exfalso; apply (Hmin j a2 Hj); exists t2; split; [exists r2|]; auto. }
    unfold findall; rewrite Hs; cbn [fst map snd].
    rewrite E in E'; symmetry; eapply server_name_split; eauto.
  - intros Hnone.
    unfold findall; rewrite scan_none; [reflexivity|].
    intros k.
    destruct (match_here re_server_name (skipn k body)) as [[l gg]|] eqn:Ek; auto.
    apply server_name_match in Ek as (_ & t2 & r2 & a2 & E2 & _ & D2).
    exfalso; apply (Hnone k a2); exists t2; split; [exists r2|]; auto.
Qed.

(** [str.split()] yields words. *)
Lemma split_from_words s : forall wd,
  Forall (fun c => isspace c = false) wd -> Forall word (split_from s wd).
Proof.
  induction s as [|c s IH]; intros wd Hwd; cbn [split_from].
  - destruct wd; constructor; [split; [discriminate|exact Hwd]|constructor].
  - destruct (isspace c) eqn:Ec.
    + destruct wd; [apply IH; constructor|].
      constructor; [split; [discriminate|exact Hwd]|apply IH; constructor].
    + apply IH, Forall_app; split; auto.
Qed.

Lemma split_words s : Forall word (PyStr.split s).
Proof. apply split_from_words; constructor. Qed.

Example split_demo :
  Re.split Re.re_server (lit "a server { b serverserver" ++ nl ++ lit "{c server")
  = [lit "a "; lit " b server"; lit "c server"].
Proof. vm_compute. reflexivity. Qed.

(** ** The ports of a block are determined *)

Lemma listen_at_functional s i n n' :
  listen_at s i n -> listen_at s i n' -> n = n'.
Proof.
  intros (t & [rest E] & L) (t' & [rest' E'] & L').
  rewrite E in E'.
  now destruct (listen_unique t t' n n' rest rest' L L' E').
Qed.

Lemma sorted_same_members (l l' : list nat) :
  StronglySorted lt l -> StronglySorted lt l' ->
  (forall x, In x l <-> In x l') -> l = l'.
Proof.
  intros S; revert l'; induction S as [|a l S IH Ha]; intros l' S' H.
  - destruct l' as [|b l']; [reflexivity|].
    exfalso; apply (proj2 (H b)); now left.
  - destruct S' as [|b l' S' Hb].
    { exfalso; apply (proj1 (H a)); now left. }
    rewrite Forall_forall in Ha, Hb.
    assert (a = b).
    { destruct (proj1 (H a) (or_introl eq_refl)) as [|Hin]; [congruence|].
      destruct (proj2 (H b) (or_introl eq_refl)) as [|Hin']; [congruence|].
      apply Hb in Hin; apply Ha in Hin'; lia. }
    subst b; f_equal; apply IH; auto.
    intros x; split; intros Hx.
    + destruct (proj1 (H x) (or_intror Hx)) as [<-|]; auto.
      apply Ha in Hx; lia.
    + destruct (proj2 (H x) (or_intror Hx)) as [<-|]; auto.
      apply Hb in Hx; lia.
Qed.

Lemma Forall2_In_left (A B : Type) (R : A -> B -> Prop) l l' x :
  Forall2 R l l' -> In x l -> exists y, R x y.
Proof.
  induction 1 as [|a b l l' Hab _ IH]; intros [ ]; subst; eauto.
Qed.

Lemma ports_in_order_unique block_body ps ps' :
  ports_in_order block_body ps -> ports_in_order block_body ps' -> ps = ps'.
Proof.
  intros (idx & S & F & A) (idx' & S' & F' & A').
  assert (idx = idx').
  { apply sorted_same_members; auto.
    intros i; split; intros Hi.
    - destruct (Forall2_In_left _ _ _ _ _ i F Hi) as (n & L); eauto.
    - destruct (Forall2_In_left _ _ _ _ _ i F' Hi) as (n & L); eauto. }
  subst idx'; clear - F F'.
  revert ps' F'; induction F as [|i n idx ps L _ IH]; intros ps' F';
    inversion F' as [|? n' ? ps'' L' F'']; subst; [reflexivity|].
  f_equal; [eapply listen_at_functional; eauto|auto].
Qed.

(* ================================================================== *)
(** * [parse_config] *)
(* ================================================================== *)

Lemma parse_block_ok block_body :
  ports_convert block_body ->
  exists srv, parse_block block_body = inr srv /\ describes block_body srv.
Proof.
  intros Hshort; unfold parse_block.
  destruct (listen_ports block_body Hshort) as (ps & -> & Hports & Hpos).
  eexists; split; [reflexivity|].
  repeat split; cbn [ports server_names]; auto.
  - apply first_names.
  - apply first_names.
  - destruct (findall re_server_name block_body); [constructor|apply split_words].
Qed.

Lemma parse_block_long block_body :
  port_too_long block_body -> exists bad, parse_block block_body = inl bad.
Proof.
  intros H; unfold parse_block.
  destruct (listen_ports_long block_body H) as [bad ->]; eauto.
Qed.

Lemma parse_blocks_ok bodies :
  Forall ports_convert bodies ->
  exists servers,
    parse_blocks bodies = inr servers /\ Forall2 describes bodies servers.
Proof.
  induction 1 as [|b bodies Hb _ (servers & E & H)]; cbn [parse_blocks].
  - exists []; split; [reflexivity|constructor].
  - destruct (parse_block_ok b Hb) as (srv & -> & D); rewrite E.
    exists (srv :: servers); split; [reflexivity|now constructor].
Qed.

Lemma parse_blocks_long bodies :
  Exists port_too_long bodies -> exists bad, parse_blocks bodies = inl bad.
Proof.
  induction 1 as [b bodies Hb|b bodies _ [bad IH]]; cbn [parse_blocks].
  - destruct (parse_block_long b Hb) as [bad ->]; eauto.
  - destruct (parse_block b); [|rewrite IH]; eauto.
Qed.

(** Once the text is read and its ports convert, [parse_config] logs what
    it found and returns. *)
Lemma parse_config_read w path content st :
  open_read w path = ReadOk content ->
  Forall ports_convert (tl (Re.split re_server content)) ->
  exists servers st',
    parse_config w path st = (Ok servers, st')
    /\ parse_content content = inr servers
    /\ calls st' = calls st.
Proof.
  intros Hread Hshort; unfold parse_config; rewrite Hread.
  destruct (parse_blocks_ok (tl (Re.split re_server content)) Hshort)
    as (servers & E & _).
  unfold parse_content; rewrite E.
  eexists; eexists; split; [reflexivity|split; reflexivity].
Qed.

(** A port with too many digits in a block is fatal. *)
Lemma parse_config_long w path content st :
  open_read w path = ReadOk content ->
  Exists port_too_long (tl (Re.split re_server content)) ->
  exists bad,
    parse_config w path st
    = (SysExit 1,
       {| logs := logs st
                  ++ [(ERROR, lit "Error parsing config file: "
                              ++ value_error bad)];
          calls := calls st |}).
Proof.
  intros Hread Hlong; unfold parse_config; rewrite Hread.
  destruct (parse_blocks_long _ Hlong) as [bad E].
  unfold parse_content; rewrite E; exists bad; reflexivity.
Qed.

(** The offsets of [re_server] found by computation decide [opener_free]. *)
Lemma opener_free_by_scan s : matches_from re_server s 0 = [] -> opener_free s.
Proof.
  intros H i (t & [rest E] & Ho).
  assert (Hm := match_opener t rest Ho); rewrite <- E in Hm.
  assert (Hin : In (0 + i, (List.length t, @None text)) (matches_from re_server s 0)).
  { apply (matches_from_spec re_server "s"%char server_head); eauto. }
  rewrite H in Hin; destruct Hin.
Qed.

(** ** [int] and [str] *)

Lemma digits_of_uint d : forallb isdecimal (lit (NilEmpty.string_of_uint d)) = true.
Proof. induction d; cbn [NilEmpty.string_of_uint lit list_ascii_of_string forallb]; auto. Qed.

Lemma fold_uint_pos d : forall p,
  fold_left decimal_step (lit (NilEmpty.string_of_uint d)) (Z.pos p)
  = Z.pos (Pos.of_uint_acc d p).
Proof.
  induction d; intros p;
    cbn [NilEmpty.string_of_uint lit list_ascii_of_string fold_left Pos.of_uint_acc];
    [reflexivity|rewrite <- IHd; f_equal; unfold decimal_step; vm_compute digit_value; lia..].
Qed.

Lemma fold_uint d :
  fold_left decimal_step (lit (NilEmpty.string_of_uint d)) 0%Z = Z.of_uint d.
Proof.
  unfold Z.of_uint; induction d;
    cbn [NilEmpty.string_of_uint lit list_ascii_of_string fold_left Pos.of_uint];
    [reflexivity|exact IHd|apply fold_uint_pos..].
Qed.

Lemma int_digits_str n : (0 <= n)%Z -> int_digits (str n) = n.
Proof.
  intros Hn; unfold int_digits, str.
  change (fun acc c => (10 * acc + digit_value c)%Z) with decimal_step.
  destruct n as [|p|p]; [reflexivity| |lia].
  cbn [Z.to_int NilEmpty.string_of_int]; rewrite fold_uint.
  exact (DecimalZ.of_to (Z.pos p)).
Qed.

Lemma digits_str n : (0 <= n)%Z -> str n <> [] /\ digits (str n).
Proof.
  intros Hn; split.
  - intros E; pose proof (int_digits_str n Hn) as H; rewrite E in H.
    destruct n as [|p|p]; [discriminate E|discriminate H|lia].
  - unfold str, digits; destruct n as [|p|p]; [reflexivity| |lia].
    apply digits_of_uint.
Qed.

Lemma digit_value_max c : isdecimal c = true -> (digit_value c <= 9)%Z.
Proof.
  unfold isdecimal, digit_value; intros H.
  apply andb_prop in H as [_ H]; apply Nat.leb_le in H; lia.
Qed.

(** The value of a run of digits, between the powers of ten. *)
Lemma fold_decimal_bounds s : forall acc,
  digits s -> (0 <= acc)%Z ->
  (acc * 10 ^ Z.of_nat (List.length s) <= fold_left decimal_step s acc
   < (acc + 1) * 10 ^ Z.of_nat (List.length s))%Z.
Proof.
  induction s as [|c s IH]; intros acc Hs Hacc; cbn [fold_left List.length].
  - change (Z.of_nat 0) with 0%Z; rewrite Z.pow_0_r; lia.
  - unfold digits in Hs; cbn [forallb] in Hs; apply andb_prop in Hs as [Hc Hs].
    pose proof (digit_value_nonneg c Hc) as H0.
    pose proof (digit_value_max c Hc) as H9.
    assert (Hstep : (0 <= decimal_step acc c)%Z) by (unfold decimal_step; lia).
    specialize (IH (decimal_step acc c) Hs Hstep).
    rewrite Nat2Z.inj_succ, Z.pow_succ_r by lia.
    assert (HX : (0 < 10 ^ Z.of_nat (List.length s))%Z)
      by (apply Z.pow_pos_nonneg; lia).
    revert IH HX; unfold decimal_step.
    generalize (10 ^ Z.of_nat (List.length s))%Z as X.
    generalize (fold_left (fun acc0 c0 => 10 * acc0 + digit_value c0) s
                          (10 * acc + digit_value c))%Z as F.
    intros F X IH HX; nia.
Qed.

Lemma int_digits_bound s :
  digits s -> (0 <= int_digits s < 10 ^ Z.of_nat (List.length s))%Z.
Proof.
  intros Hs; unfold int_digits.
  change (fun acc c => (10 * acc + digit_value c)%Z) with decimal_step.
  pose proof (fold_decimal_bounds s 0 Hs ltac:(lia)) as H; lia.
Qed.

(** The first digit [str] writes for a positive integer is not a zero. *)
Lemma str_pos_head p :
  exists c s, str (Z.pos p) = c :: s /\ (1 <= digit_value c)%Z.
Proof.
  unfold str; cbn [Z.to_int NilEmpty.string_of_int].
  assert (U : Decimal.unorm (Pos.to_uint p) = Pos.to_uint p).
  { rewrite <- (DecimalPos.Unsigned.to_of (Pos.to_uint p)).
    now rewrite DecimalPos.Unsigned.of_to. }
  pose proof (DecimalPos.Unsigned.to_uint_nonzero p) as Nz.
  pose proof (DecimalPos.Unsigned.to_uint_nonnil p) as Nn.
  destruct (Pos.to_uint p) as [|u|u|u|u|u|u|u|u|u|u] eqn:E;
    [congruence| |eexists; eexists; split; [reflexivity|now vm_compute]..].
  exfalso.
  assert (Hz : Decimal.nzhead (Decimal.D0 u) <> Decimal.Nil).
  { intros En; apply DecimalFacts.unorm_0 in En; apply Nz; congruence. }
  rewrite (DecimalFacts.unorm_nzhead _ Hz) in U.
  exact (DecimalFacts.nzhead_nonzero _ _ U).
Qed.

(** The number of digits [str] writes. *)
Lemma str_length n k :
  (0 <= n)%Z -> 0 < k ->
  List.length (str n) <= k <-> (n < 10 ^ Z.of_nat k)%Z.
Proof.
  intros Hn Hk; destruct (digits_str n Hn) as [Ne Hd].
  pose proof (int_digits_str n Hn) as Hv; split.
  - intros Hl; pose proof (int_digits_bound (str n) Hd) as Hb.
    rewrite Hv in Hb.
    apply Z.lt_le_trans with (10 ^ Z.of_nat (List.length (str n)))%Z; [lia|].
    apply Z.pow_le_mono_r; lia.
  - intros Hlt; destruct n as [|p|p]; [cbn; lia| |lia].
    destruct (str_pos_head p) as (c & s & E & Hc).
    rewrite E in Hv, Hd |- *; cbn [List.length].
    assert (Hlow : (10 ^ Z.of_nat (List.length s) <= Z.pos p)%Z).
    { rewrite <- Hv; unfold int_digits; cbn [fold_left].
      change (fun acc c => (10 * acc + digit_value c)%Z) with decimal_step.
      unfold digits in Hd; cbn [forallb] in Hd; apply andb_prop in Hd as [_ Hs].
      pose proof (fold_decimal_bounds s (10 * 0 + digit_value c) Hs ltac:(lia))
        as [Hb _].
      assert (HX : (0 < 10 ^ Z.of_nat (List.length s))%Z)
        by (apply Z.pow_pos_nonneg; lia).
      revert Hb HX; generalize (10 ^ Z.of_nat (List.length s))%Z as X.
      intros X Hb HX; nia. }
    assert (Hs : (Z.of_nat (List.length s) < Z.of_nat k)%Z).
    { apply (Z.pow_lt_mono_r_iff 10); lia. }
    lia.
Qed.

Lemma limit_digits : 0 < INT_MAX_STR_DIGITS.
Proof. apply Nat.lt_0_succ. Qed.

Lemma limit_positive : (0 < 10 ^ 4300)%Z.
Proof. apply Z.pow_pos_nonneg; [reflexivity|discriminate]. Qed.

Lemma str_fits_iff n :
  (0 <= n)%Z -> str_fits n = true <-> (n < 10 ^ 4300)%Z.
Proof.
  intros Hn; unfold str_fits; rewrite Z.abs_eq, Nat.leb_le by exact Hn.
  exact (str_length n INT_MAX_STR_DIGITS Hn limit_digits).
Qed.

(** [int] gives back the integer [str] wrote. *)
Lemma int_str n : (0 <= n < 10 ^ 4300)%Z -> int (str n) = Some n.
Proof.
  intros [Hn Hlt]; destruct (digits_str n Hn) as [Ne Hd].
  rewrite int_digits_short, (int_digits_str n Hn); auto.
  exact (proj2 (str_length n INT_MAX_STR_DIGITS Hn limit_digits) Hlt).
Qed.

(** ** The block that listens on one port *)

Lemma opener_starts s i :
  opener_at s i -> exists rest, skipn i s = "s"%char :: "e"%char :: rest.
Proof. intros (t & [rest ->] & [w _]); cbn; eauto. Qed.

Lemma server_name_starts s i arg :
  server_name_at s i arg -> exists rest, skipn i s = "s"%char :: "e"%char :: rest.
Proof. intros (t & [rest ->] & [w a _ _ _ _]); cbn; eauto. Qed.

Lemma listen_starts s i n :
  listen_at s i n -> exists rest, skipn i s = "l"%char :: rest.
Proof. intros (t & [rest ->] & [w d _ _ _ _]); cbn; eauto. Qed.

(** Past its keyword, the body holds digits, a semicolon, a blank and a
    brace. *)
Lemma listen_body_tail n k c rest :
  (0 <= n)%Z -> skipn k (str n ++ lit "; }") = c :: rest ->
  isdecimal c = true \/ In c (lit "; }").
Proof.
  intros Hn H; apply skipn_In, in_app_or in H as [H|H]; [left|now right].
  destruct (digits_str n Hn) as [_ Hd]; eapply digits_In; eauto.
Qed.

Ltac head_of_listen_body Hn H :=
  let i := match type of H with skipn ?i _ = _ => i end in
  unfold listen_body in H; cbn [lit list_ascii_of_string app] in H;
  do 8 (destruct i as [|i]; [discriminate H|cbn [skipn] in H]);
  apply (listen_body_tail _ _ _ _ Hn) in H as [H|H];
  [discriminate H|repeat (destruct H as [H|H]; [discriminate H|]); destruct H].

Lemma listen_body_opener_free n : (0 <= n)%Z -> opener_free (listen_body n).
Proof.
  intros Hn i H; apply opener_starts in H as [rest H].
  head_of_listen_body Hn H.
Qed.

Lemma listen_body_no_name n i arg :
  (0 <= n)%Z -> ~ server_name_at (listen_body n) i arg.
Proof.
  intros Hn H; apply server_name_starts in H as [rest H].
  head_of_listen_body Hn H.
Qed.

Lemma listen_body_digits n :
  (0 <= n)%Z -> listen_digits_at (listen_body n) 1 (str n).
Proof.
  intros Hn; destruct (digits_str n Hn) as [Ne Hd].
  exists (lit " "); split; [|split; [discriminate|split; [reflexivity|auto]]].
  exists (lit " }"); unfold listen_body; cbn [lit list_ascii_of_string app skipn].
  now rewrite <- !app_assoc.
Qed.

Lemma listen_body_only n i m :
  (0 <= n)%Z -> listen_at (listen_body n) i m -> i = 1.
Proof.
  intros Hn H; apply listen_starts in H as [rest H].
  unfold listen_body in H; cbn [lit list_ascii_of_string app] in H.
  destruct i as [|[|i]]; [discriminate H|reflexivity|exfalso].
  cbn [skipn] in H.
  do 6 (destruct i as [|i]; [discriminate H|cbn [skipn] in H]).
  apply (listen_body_tail _ _ _ _ Hn) in H as [H|H];
    [discriminate H|repeat (destruct H as [H|H]; [discriminate H|]); destruct H].
Qed.

Lemma listen_digits_listen s i d :
  listen_digits_at s i d -> listen_at s i (int_digits d).
Proof.
  intros (w & Hat & Nw & Hw & Nd & Hd).
  exists (lit "listen" ++ w ++ d ++ lit ";"); split; [exact Hat|now constructor].
Qed.

Lemma listen_digits_at_functional s i d d' :
  listen_digits_at s i d -> listen_digits_at s i d' -> d = d'.
Proof.
  intros (w & [rest E] & Nw & Hw & Nd & Hd) (w' & [rest' E'] & Nw' & Hw' & Nd' & Hd').
  rewrite E in E'.
  exact (listen_digits_unique w d w' d' rest rest' Hw Hw' Nd Hd Nd' Hd' E').
Qed.

Lemma listen_body_port n :
  (0 <= n)%Z -> ports_in_order (listen_body n) [n].
Proof.
  intros Hn.
  assert (L : listen_at (listen_body n) 1 n).
  { rewrite <- (int_digits_str n Hn) at 2.
    now apply listen_digits_listen, listen_body_digits. }
  exists [1]; split; [repeat constructor|split; [repeat constructor; exact L|]].
  intros i m H; left; symmetry; eapply listen_body_only; eauto.
Qed.

(** The one [listen] directive of the body has the digits of [n]. *)
Lemma listen_body_directive n i d :
  (0 <= n)%Z -> listen_digits_at (listen_body n) i d -> d = str n.
Proof.
  intros Hn H.
  assert (Hi : i = 1)
    by (eapply listen_body_only; [exact Hn|apply listen_digits_listen, H]).
  subst i; eapply listen_digits_at_functional; [exact H|].
  now apply listen_body_digits.
Qed.

Lemma listen_body_converts n :
  (0 <= n < 10 ^ 4300)%Z -> ports_convert (listen_body n).
Proof.
  intros [Hn Hlt] i d H.
  rewrite (listen_body_directive n i d Hn H).
  exact (proj2 (str_length n INT_MAX_STR_DIGITS Hn limit_digits) Hlt).
Qed.

Lemma above_limit_nonneg n : (10 ^ 4300 <= n)%Z -> (0 <= n)%Z.
Proof.
  intros Hle; apply Z.le_trans with (10 ^ 4300)%Z; [|exact Hle].
  apply Z.lt_le_incl, limit_positive.
Qed.

Lemma listen_body_too_long n :
  (10 ^ 4300 <= n)%Z -> port_too_long (listen_body n).
Proof.
  intros Hle; pose proof (above_limit_nonneg n Hle) as Hn.
  exists 1, (str n); split; [now apply listen_body_digits|].
  apply Nat.lt_nge; intros Hl.
  apply (str_length n INT_MAX_STR_DIGITS Hn limit_digits) in Hl.
  exact (proj1 (Z.lt_nge _ _) Hl Hle).
Qed.

Lemma parse_content_blocks pre blocks :
  opener_free pre -> Forall well_formed blocks ->
  parse_content (config_text pre blocks) = parse_blocks (map body blocks).
Proof.
  intros Hpre Hwf; unfold parse_content, config_text.
  now rewrite split_blocks.
Qed.

Lemma opener_free_nil : opener_free [].
Proof.
  intros i (t & [rest E] & Ho).
  rewrite skipn_nil in E; destruct Ho as [w _]; discriminate E.
Qed.

(** The block that listens on [n], and the configuration made of it. *)
Lemma split_listen_body n :
  (0 <= n)%Z ->
  tl (Re.split re_server (lit "server {" ++ listen_body n)) = [listen_body n].
Proof.
  intros Hn.
  assert (Et : lit "server {" ++ listen_body n
               = config_text [] [ {| blanks := lit " "; body := listen_body n |} ]).
  { unfold config_text, render; cbn [flat_map blanks body app].
    now rewrite app_nil_r. }
  rewrite Et; unfold config_text; rewrite split_blocks.
  - reflexivity.
  - apply opener_free_nil.
  - repeat constructor; now apply listen_body_opener_free.
Qed.

Lemma parse_content_listen_body n :
  (0 <= n < 10 ^ 4300)%Z ->
  parse_content (lit "server {" ++ listen_body n)
  = inr [ {| ports := [n]; server_names := [] |} ].
Proof.
  intros Hb; pose proof Hb as [Hn _].
  unfold parse_content; rewrite (split_listen_body n Hn); cbn [parse_blocks].
  destruct (parse_block_ok (listen_body n) (listen_body_converts n Hb))
    as (srv & -> & Hp & Hnm & _).
  do 2 f_equal.
  destruct srv as [ps names]; cbn [ports server_names] in *; f_equal.
  - eapply ports_in_order_unique; eauto using listen_body_port.
  - apply Hnm; intros i arg; now apply listen_body_no_name.
Qed.

Lemma parse_config_listen_body_long w path n st :
  (10 ^ 4300 <= n)%Z ->
  open_read w path = ReadOk (lit "server {" ++ listen_body n) ->
  exists bad,
    parse_config w path st
    = (SysExit 1,
       {| logs := logs st
                  ++ [(ERROR, lit "Error parsing config file: "
                              ++ value_error bad)];
          calls := calls st |}).
Proof.
  intros Hle Hread; pose proof (above_limit_nonneg n Hle) as Hn.
  apply (parse_config_long w path _ st Hread).
  rewrite (split_listen_body n Hn); constructor.
  now apply listen_body_too_long.
Qed.

(** ** What [parse_config] returns *)



(** C10, amended.  Once the text is read, [parse_config] returns when
    every [listen] directive of every block writes its port with digits
    [int] converts (4300 at most): the servers it builds have non-negative
    ports and names that are words, the ports being those of the [listen]
    directives and of nothing else, and what does not fit the patterns is
    passed over without an exception.  A port of more digits makes [int]
    raise, and the fatal branch is taken: an error is logged and the
    process ends with status 1.  So a block with [listen 127.0.0.1:8080;],
    [listen abc;] and [listen 80;] gives the one port 80. *)
Theorem parse_config_returns_unless_long :
  (forall (w : world) (path content : text) (st : state),
      open_read w path = ReadOk content ->
      (Forall ports_convert (tl (Re.split re_server content)) ->
       exists servers st',
         parse_config w path st = (Ok servers, st')
         /\ Forall2 describes (tl (Re.split re_server content)) servers
         /\ Forall (fun srv => Forall (fun p => 0 <= p)%Z (ports srv)
                               /\ Forall word (server_names srv)) servers)
      /\ (Exists port_too_long (tl (Re.split re_server content)) ->
          exists bad,
            parse_config w path st
            = (SysExit 1,
               {| logs := logs st
                          ++ [(ERROR, lit "Error parsing config file: "
                                      ++ value_error bad)];
                  calls := calls st |})))
  /\ fst (parse_config (file_world odd_config 0) CONFIG_FILE_PATH initial)
     = Ok [ {| ports := [80]%Z; server_names := [] |} ].
Proof.
  split; [|vm_compute; reflexivity].
  intros w path content st Hread; split.
  - intros Hshort.
    destruct (parse_config_read w path _ st Hread Hshort)
      as (servers & st' & E & Hc & _).
    exists servers, st'; split; [exact E|].
    unfold parse_content in Hc.
    destruct (parse_blocks_ok (tl (Re.split re_server content)) Hshort)
      as (servers' & E' & HD).
    rewrite E' in Hc; injection Hc as <-.
    split; [exact HD|].
    clear - HD; induction HD as [|bd srv bodies servers (_ & _ & Hp & Hn) _ IH];
      constructor; auto.
  - intros Hlong; exact (parse_config_long w path content st Hread Hlong).
Qed.

(** The block whose [listen] lines do not all fit the pattern. *)
Lemma parse_config_returns_unless_long_odd :
  Forall ports_convert (tl (Re.split re_server odd_config))
  /\ exists servers st',
       parse_config (file_world odd_config 0) CONFIG_FILE_PATH initial
       = (Ok servers, st')
       /\ Forall2 describes (tl (Re.split re_server odd_config)) servers
       /\ Forall (fun srv => Forall (fun p => 0 <= p)%Z (ports srv)
                             /\ Forall word (server_names srv)) servers.
Proof.
  assert (Hshort : Forall ports_convert (tl (Re.split re_server odd_config))).
  { let blocks := eval vm_compute in (tl (Re.split re_server odd_config)) in
    change (Forall ports_convert blocks).
    constructor; [|constructor].
    apply ports_convert_by_scan; vm_compute; reflexivity. }
  split; [exact Hshort|].
  apply (proj1 (proj1 parse_config_returns_unless_long
                  (file_world odd_config 0) CONFIG_FILE_PATH odd_config initial
                  eq_refl) Hshort).
Defined.

(* ================================================================== *)
(** * The runs of the script *)
(* ================================================================== *)

Section Runs.
Variable w : world.

Lemma runs_ret : runs (ret tt) [].
Proof. intros st; exists st; split; [reflexivity|now rewrite app_nil_r]. Qed.

Lemma runs_log l msg : runs (log l msg) [].
Proof.
  intros st; eexists; split; [reflexivity|]; cbn [calls]; now rewrite app_nil_r.
Qed.

Lemma runs_bind (m k : M unit) cs1 cs2 :
  runs m cs1 -> runs k cs2 -> runs (m ;; k) (cs1 ++ cs2).
Proof.
  intros Hm Hk st; unfold bind.
  destruct (Hm st) as (st1 & -> & E1).
  destruct (Hk st1) as (st2 & -> & E2).
  exists st2; split; [reflexivity|]; now rewrite E2, E1, app_assoc.
Qed.

(** [run_command] always returns, and makes one call. *)
Lemma run_command_at_returns cmd check t st :
  exists r st',
    run_command_at w cmd check t st = (Ok r, st')
    /\ calls st' = calls st ++ [{| command := cmd; timeout := t |}].
Proof.
  unfold run_command_at.
  destruct (subprocess_run w (calls st) _) as [rc out err| |e].
  - destruct (check && negb (rc =? 0)%Z); eexists; eexists; split; reflexivity.
  - eexists; eexists; split; reflexivity.
  - eexists; eexists; split; reflexivity.
Qed.

Lemma run_command_returns cmd check t st :
  exists r st',
    run_command w cmd check t st = (Ok r, st')
    /\ calls st' = calls st ++ [{| command := cmd; timeout := t |}].
Proof.
  unfold run_command, bind.
  destruct (run_command_at_returns cmd check t st) as (r & st' & -> & E).
  exists (snd r), st'; split; [reflexivity|exact E].
Qed.

Lemma runs_command cmd check t (k : bool * text -> M unit) cs :
  (forall r, runs (k r) cs) ->
  runs (r <- run_command w cmd check t ;; k r)
       ({| command := cmd; timeout := t |} :: cs).
Proof.
  intros Hk st; unfold bind.
  destruct (run_command_returns cmd check t st) as (r & st1 & -> & E1).
  destruct (Hk r st1) as (st2 & -> & E2).
  exists st2; split; [reflexivity|].
  now rewrite E2, E1, <- app_assoc.
Qed.

Lemma runs_for_in (X : Type) (xs : list X) (body : X -> M unit)
      (f : X -> list call) :
  (forall x, In x xs -> runs (body x) (f x)) ->
  runs (for_ xs body) (flat_map f xs).
Proof.
  induction xs as [|x xs IH]; intros H; cbn [for_ flat_map].
  - apply runs_ret.
  - apply runs_bind; [apply H; now left|].
    apply IH; intros y Hy; apply H; now right.
Qed.

Lemma runs_for (X : Type) (xs : list X) (body : X -> M unit) (f : X -> list call) :
  (forall x, runs (body x) (f x)) -> runs (for_ xs body) (flat_map f xs).
Proof. intros H; apply runs_for_in; auto. Qed.

Lemma runs_report name ok out : runs (report name ok out) [].
Proof. apply runs_log. Qed.

Lemma flat_map_singleton (X Y : Type) (f : X -> Y) xs :
  flat_map (fun x => [f x]) xs = map f xs.
Proof. induction xs as [|x xs IH]; cbn; congruence. Qed.

Lemma runs_tests check tests : runs (run_tests w check tests) (suite_calls tests).
Proof.
  unfold run_tests, suite_calls; rewrite <- flat_map_singleton.
  apply runs_for; intros t.
  apply runs_command; intros r; apply runs_report.
Qed.

End Runs.
Arguments runs_bind {m k cs1 cs2} _ _.

(** ** What a run logs *)

Section Logging.
Variable P : level * text -> Prop.

Lemma logging_ret A (a : A) : logging P (ret a).
Proof. intros st; exists []; split; [now rewrite app_nil_r|constructor]. Qed.

Lemma logging_exit A code : logging P (@sys_exit A code).
Proof. intros st; exists []; split; [now rewrite app_nil_r|constructor]. Qed.

Lemma logging_raise A e : logging P (@raise A e).
Proof. intros st; exists []; split; [now rewrite app_nil_r|constructor]. Qed.

Lemma logging_log l msg : P (l, msg) -> logging P (log l msg).
Proof. intros H st; exists [(l, msg)]; split; [reflexivity|now constructor]. Qed.

Lemma logging_bind A B (m : M A) (k : A -> M B) :
  logging P m -> (forall a, logging P (k a)) -> logging P (bind m k).
Proof.
  intros Hm Hk st; unfold bind.
  destruct (Hm st) as (new1 & E1 & N1).
  destruct (m st) as [[a|code|e] st1]; cbn [snd] in *.
  - destruct (Hk a st1) as (new2 & E2 & N2).
    exists (new1 ++ new2); split.
    + now rewrite E2, E1, app_assoc.
    + now apply Forall_app.
  - exists new1; auto.
  - exists new1; auto.
Qed.

Lemma logging_for X (xs : list X) (body : X -> M unit) :
  (forall x, logging P (body x)) -> logging P (for_ xs body).
Proof.
  intros H; induction xs as [|x xs IH]; cbn [for_].
  - apply logging_ret.
  - apply logging_bind; auto.
Qed.

Hypothesis errors_allowed : forall msg, P (ERROR, msg).

Lemma logging_run_command w cmd check t : logging P (run_command w cmd check t).
Proof.
  intros st; unfold run_command, bind, run_command_at.
  destruct (subprocess_run w (calls st) _) as [rc out err| |e].
  - destruct (check && negb (rc =? 0)%Z); cbn [snd logs].
    + eexists [_]; split; [reflexivity|]; repeat constructor; apply errors_allowed.
    + exists []; split; [now rewrite app_nil_r|constructor].
  - eexists [_]; split; [reflexivity|]; repeat constructor; apply errors_allowed.
  - eexists [_]; split; [reflexivity|]; repeat constructor; apply errors_allowed.
Qed.

End Logging.

Lemma plain_error msg : plain (ERROR, msg).
Proof. discriminate. Qed.

Ltac not_banner :=
  let E := fresh in
  intros E; apply (f_equal (fun e => (fst e, firstn 9 (snd e)))) in E;
  vm_compute in E; discriminate E.

Lemma plain_tests w check tests :
  plain_names tests -> logging plain (run_tests w check tests).
Proof.
  unfold run_tests; induction 1 as [|t tests Ht _ IH]; cbn [for_].
  - apply logging_ret.
  - apply logging_bind; [|intros _; exact IH].
    apply logging_bind; [apply logging_run_command, plain_error|].
    intros r; apply logging_log, Ht.
Qed.

Lemma plain_basic port : plain_names (basic_tests port).
Proof. repeat constructor; intros ok out; not_banner. Qed.

Lemma plain_cgi port : plain_names (cgi_tests port).
Proof. repeat constructor; intros ok out; not_banner. Qed.

Lemma plain_chunked port : plain_names (chunked_tests port).
Proof. repeat constructor; intros ok out; not_banner. Qed.

Lemma plain_stress port : plain_names (stress_tests port).
Proof. repeat constructor; intros ok out; not_banner. Qed.

Ltac plain_step :=
  first [ apply logging_ret
        | apply logging_exit
        | apply logging_raise
        | match goal with |- logging _ (if ?b then _ else _) => destruct b end
        | apply logging_run_command, plain_error
        | apply logging_log; not_banner
        | apply plain_tests;
          first [apply plain_basic|apply plain_cgi|apply plain_chunked|apply plain_stress]
        | apply logging_bind; [|intros ?] ].

Lemma plain_port w port : logging plain (run_port w port).
Proof.
  unfold run_port, run_basic_tests, run_cgi_tests, run_chunked_tests,
    run_delete_tests, run_stress_tests, run_other_tests,
    create_read_err_script, report.
  repeat plain_step.
Qed.

Lemma plain_prepare w : logging plain (prepare_test_files w).
Proof. unfold prepare_test_files; repeat plain_step. Qed.

Lemma plain_parse_config w path : logging plain (parse_config w path).
Proof.
  unfold parse_config.
  destruct (open_read w path) as [content| |msg]; [|repeat plain_step..].
  destruct (parse_content content); repeat plain_step.
Qed.

(** [run_multi_loop_tests] logs the banner first. *)
Lemma multi_announced w servers st :
  exists more,
    logs (snd (run_multi_loop_tests w servers st))
    = logs st ++ multi_banner :: more.
Proof.
  assert (L : logging (fun _ => True)
                (for_ (enumerate servers) (fun entry =>
                   for_ (server_names (snd entry)) (fun server_name =>
                     for_ (ports (snd entry)) (fun port =>
                       r <- run_command w (resolve_cmd server_name port (ip (fst entry)))
                                        default_check default_timeout ;;
                       log INFO (lit "Server " ++ server_name ++ lit ":" ++ str port
                                 ++ lit ": " ++ pass_fail (fst r) ++ nl ++ snd r)))))).
  { repeat (apply logging_for; intros ?).
    apply logging_bind; [now apply logging_run_command|].
    intros r; now apply logging_log. }
  unfold run_multi_loop_tests, bind at 1; cbn [log].
  match goal with |- context [for_ _ _ ?st1] => destruct (L st1) as (more & E & _) end.
  exists more; rewrite E; cbn [logs]; now rewrite <- app_assoc.
Qed.

Section Suites.
Variable w : world.

Lemma runs_then_log l msg (k : M unit) cs :
  runs k cs -> runs (log l msg ;; k) cs.
Proof. intros H; apply (runs_bind (runs_log l msg) H). Qed.

Lemma runs_prepare : runs (prepare_test_files w) fixture_calls.
Proof.
  unfold prepare_test_files, fixture_calls.
  apply runs_then_log.
  apply (runs_command w _ _ _ (fun _ => _)); intros _.
  apply (runs_command w _ _ _ (fun _ => _)); intros _.
  apply runs_ret.
Qed.

Lemma runs_basic port :
  str_fits (port + 1) = true ->
  runs (run_basic_tests w port) (basic_calls port).
Proof.
  intros H; unfold run_basic_tests; rewrite H.
  apply runs_then_log, runs_tests.
Qed.

Lemma runs_cgi port : runs (run_cgi_tests w port) (cgi_calls port).
Proof. apply runs_then_log, runs_tests. Qed.

Lemma runs_chunked port : runs (run_chunked_tests w port) (chunked_calls port).
Proof. apply runs_then_log, runs_tests. Qed.

Lemma runs_delete port : runs (run_delete_tests w port) (delete_calls port).
Proof.
  apply runs_then_log, runs_command; intros r; apply runs_report.
Qed.

Lemma runs_stress port : runs (run_stress_tests w port) (stress_calls port).
Proof. apply runs_then_log, runs_tests. Qed.

Lemma runs_create_read_err_script : runs create_read_err_script [].
Proof. apply runs_ret. Qed.

Lemma runs_other port : runs (run_other_tests w port) (misc_calls port).
Proof.
  unfold run_other_tests, misc_calls.
  apply runs_then_log.
  apply (runs_bind runs_create_read_err_script).
  apply runs_command; intros r1; apply (runs_bind (runs_report _ _ _)).
  apply runs_command; intros r2; apply (runs_bind (runs_report _ _ _)).
  apply runs_command; intros r3; apply runs_report.
Qed.

Lemma runs_port port :
  str_fits (port + 1) = true -> runs (run_port w port) (port_calls port).
Proof.
  intros H; unfold run_port, port_calls.
  apply runs_then_log.
  apply (runs_bind (runs_basic port H)).
  apply (runs_bind (runs_cgi port)).
  apply (runs_bind (runs_chunked port)).
  apply (runs_bind (runs_delete port)).
  apply (runs_bind (runs_stress port)).
  apply runs_other.
Qed.

Lemma map_list_prod (X Y Z' : Type) (f : X * Y -> Z') xs ys :
  map f (list_prod xs ys)
  = flat_map (fun x => flat_map (fun y => [f (x, y)]) ys) xs.
Proof.
  induction xs as [|x xs IH]; cbn [list_prod flat_map map]; [reflexivity|].
  now rewrite map_app, map_map, IH, flat_map_singleton.
Qed.

Lemma runs_multi servers :
  runs (run_multi_loop_tests w servers) (multi_calls servers).
Proof.
  unfold run_multi_loop_tests, multi_calls.
  apply runs_then_log, runs_for; intros [i srv]; cbn [fst snd].
  unfold host_calls; rewrite map_list_prod.
  apply runs_for; intros name.
  apply runs_for; intros port.
  apply runs_command; intros r; apply runs_log.
Qed.

Lemma runs_ports servers :
  alternates_render servers ->
  runs (for_ servers (fun srv => for_ (ports srv) (run_port w)))
       (flat_map (fun srv => flat_map port_calls (ports srv)) servers).
Proof.
  unfold alternates_render; rewrite forallb_forall; intros H.
  apply runs_for_in; intros srv Hsrv.
  specialize (H srv Hsrv); rewrite forallb_forall in H.
  apply runs_for_in; intros port Hport; apply runs_port; auto.
Qed.

(** The part of [main] after the configuration is accepted. *)
Lemma runs_scenarios servers :
  alternates_render servers ->
  runs (prepare_test_files w ;;
        for_ servers (fun srv => for_ (ports srv) (run_port w)) ;;
        (if 1 <? List.length servers
         then run_multi_loop_tests w servers else ret tt) ;;
        log INFO (lit "All tests completed"))
       (fixture_calls
        ++ flat_map (fun srv => flat_map port_calls (ports srv)) servers
        ++ (if 1 <? List.length servers then multi_calls servers else [])).
Proof.
  intros Halt; apply (runs_bind runs_prepare).
  apply runs_bind; [now apply runs_ports|].
  rewrite <- (app_nil_r (if 1 <? List.length servers then multi_calls servers else [])).
  apply runs_bind; [|apply runs_log].
  destruct (1 <? List.length servers); [apply runs_multi|apply runs_ret].
Qed.

(** [main], from its first line, on a configuration that is read. *)
Lemma main_read content servers st :
  open_read w CONFIG_FILE_PATH = ReadOk content ->
  parse_content content = inr servers ->
  exists st1 new,
    calls st1 = calls st
    /\ logs st1 = logs st ++ new /\ Forall plain new
    /\ main w st
       = (let n := List.length servers in
          if negb ((1 <=? n) && (n <=? 3))
          then log ERROR (lit "Config file must contain 1–3 server blocks") ;;
               sys_exit 1
          else
            prepare_test_files w ;;
            for_ servers (fun srv => for_ (ports srv) (run_port w)) ;;
            (if 1 <? n then run_multi_loop_tests w servers else ret tt) ;;
            log INFO (lit "All tests completed")) st1.
Proof.
  intros Hread Hparse.
  unfold main at 1, bind at 1; cbn [log].
  set (st0 := {| logs := _; calls := calls st |}).
  assert (R : exists st1,
             parse_config w CONFIG_FILE_PATH st0 = (Ok servers, st1)
             /\ calls st1 = calls st).
  { unfold parse_config; rewrite Hread, Hparse.
    eexists; split; reflexivity. }
  destruct R as (st1 & E & Hcalls).
  destruct (plain_parse_config w CONFIG_FILE_PATH st0) as (new & Hl & Hp).
  rewrite E in Hl; cbn [snd] in Hl.
  exists st1, ((INFO, lit "Starting tests with config file: " ++ CONFIG_FILE_PATH)
               :: new).
  split; [exact Hcalls|split; [|split]].
  - rewrite Hl; subst st0; cbn [logs]; now rewrite <- app_assoc.
  - constructor; [not_banner|exact Hp].
  - unfold bind at 1; rewrite E; reflexivity.
Qed.

(** A configuration [parse_config] refuses ends [main]. *)
Lemma main_config_fatal st :
  (forall st0, exists st1,
      parse_config w CONFIG_FILE_PATH st0 = (SysExit 1, st1)) ->
  exists st', main w st = (SysExit 1, st').
Proof.
  intros H; unfold main, bind at 1; cbn [log].
  match goal with |- context [bind _ _ ?st0] =>
    destruct (H st0) as [st1 E]; unfold bind at 1; rewrite E
  end.
  eauto.
Qed.

(** The first port of the first server, when its successor is not
    rendered: the fixtures are made and the exception leaves [main]. *)
Lemma main_stops_at_first_port content srv servers port rest st :
  open_read w CONFIG_FILE_PATH = ReadOk content ->
  parse_content content = inr (srv :: servers) ->
  List.length servers <= 2 ->
  ports srv = port :: rest ->
  str_fits (port + 1) = false ->
  exists st',
    main w st = (Raised ValueError, st')
    /\ calls st' = calls st ++ fixture_calls.
Proof.
  intros Hread Hparse Hn Hports Hfits.
  destruct (main_read content (srv :: servers) st Hread Hparse)
    as (st1 & new0 & Hc & _ & _ & ->).
  cbv zeta.
  replace (negb _) with false
    by (symmetry; apply negb_false_iff, andb_true_iff;
        split; apply Nat.leb_le; cbn [List.length]; lia).
  unfold bind at 1.
  destruct (runs_prepare st1) as (st2 & -> & E2).
  cbn [for_]; rewrite Hports; cbn [for_].
  unfold bind, run_port, run_basic_tests, bind, log; rewrite Hfits.
  eexists; split; [reflexivity|].
  cbn [calls]; now rewrite E2, Hc.
Qed.

(** The banner of the resolution scenarios is logged exactly when there is
    more than one server. *)
Lemma scenarios_log servers st :
  alternates_render servers ->
  exists new,
    logs (snd ((prepare_test_files w ;;
                for_ servers (fun srv => for_ (ports srv) (run_port w)) ;;
                (if 1 <? List.length servers
                 then run_multi_loop_tests w servers else ret tt) ;;
                log INFO (lit "All tests completed")) st))
    = logs st ++ new
    /\ (In multi_banner new <-> 1 < List.length servers).
Proof.
  intros Halt; destruct (1 <? List.length servers) eqn:En.
  - apply Nat.ltb_lt in En.
    destruct (runs_prepare st) as (st2 & E2 & _).
    destruct (plain_prepare w st) as (new2 & L2 & _).
    rewrite E2 in L2; cbn [snd] in L2.
    set (loop := for_ servers (fun srv => for_ (ports srv) (run_port w))).
    assert (R3 : runs loop (flat_map (fun srv => flat_map port_calls (ports srv)) servers))
      by now apply runs_ports.
    destruct (R3 st2) as (st3 & E3 & _).
    assert (P3 : logging plain loop).
    { apply logging_for; intros srv; apply logging_for; intros port; apply plain_port. }
    destruct (P3 st2) as (new3 & L3 & _).
    rewrite E3 in L3; cbn [snd] in L3.
    destruct (runs_multi servers st3) as (st4 & E4 & _).
    destruct (multi_announced w servers st3) as (more & L4).
    rewrite E4 in L4; cbn [snd] in L4.
    exists (new2 ++ new3 ++ multi_banner :: more
            ++ [(INFO, lit "All tests completed")]).
    split.
    + unfold bind; rewrite E2, E3, E4; cbn [log snd logs].
      rewrite L4, L3, L2, <- !app_assoc; reflexivity.
    + split; [intros _; exact En|intros _].
      apply in_or_app; right; apply in_or_app; right; now left.
  - apply Nat.ltb_ge in En.
    assert (L : logging plain
                  (prepare_test_files w ;;
                   for_ servers (fun srv => for_ (ports srv) (run_port w)) ;;
                   ret tt ;; log INFO (lit "All tests completed"))).
    { apply logging_bind; [apply plain_prepare|intros _].
      apply logging_bind;
        [apply logging_for; intros srv; apply logging_for; intros port;
         apply plain_port|intros _].
      apply logging_bind; [apply logging_ret|intros _].
      apply logging_log; not_banner. }
    destruct (L st) as (new & E & Hp).
    exists new; split; [exact E|].
    split; [|lia].
    intros H; exfalso.
    rewrite Forall_forall in Hp; now apply (Hp _ H).
Qed.

End Suites.

(** The port ten to the 4300, of 4301 digits: the text is read, [int]
    raises on the port, and [parse_config] ends the process with status 1
    where the claim has it return. *)
Lemma long_port_is_fatal :
  long_port_config = lit "server { listen " ++ str (10 ^ 4300) ++ lit "; }"
  /\ INT_MAX_STR_DIGITS < List.length (str (10 ^ 4300))
  /\ fst (parse_config (file_world long_port_config 0) CONFIG_FILE_PATH initial)
     = SysExit 1
  /\ exit_status (file_world long_port_config 0) = 1%Z.
Proof.
  assert (Hle : (10 ^ 4300 <= 10 ^ 4300)%Z) by apply Z.le_refl.
  assert (H0 : (0 <= 10 ^ 4300)%Z) by apply Z.lt_le_incl, limit_positive.
  split; [|split; [|split]].
  - unfold long_port_config, listen_body; rewrite app_assoc.
    apply (f_equal2 (@app ascii)); reflexivity.
  - destruct (listen_body_too_long _ Hle) as (i & d & Hat & Hl).
    now rewrite <- (listen_body_directive _ i d H0 Hat).
  - destruct (parse_config_listen_body_long (file_world long_port_config 0)
                CONFIG_FILE_PATH _ initial Hle eq_refl) as [bad ->].
    reflexivity.
  - destruct (main_config_fatal (file_world long_port_config 0) initial)
      as [st' E].
    + intros st0.
      destruct (parse_config_listen_body_long (file_world long_port_config 0)
                  CONFIG_FILE_PATH _ st0 Hle eq_refl) as [bad ->]; eauto.
    + unfold exit_status; now rewrite E.
Qed.


(** ** What [run_command] returns *)

(** C2, amended.  The flag [run_command] returns is true exactly when it
    leaves through its success return.  A stress scenario, run with
    [check=False], leaves through that return whatever exit status its
    command completes with, so a non-zero status is recorded as a pass;
    and with a configuration of one to three servers, each port of which
    has a successor [str] renders, [main] returns normally whatever the
    commands do. *)
Theorem stress_status_ignored :
  (forall w cmd check t st,
      exists cls ok out st',
        run_command_at w cmd check t st = (Ok (cls, (ok, out)), st')
        /\ (ok = true <-> cls = success))
  /\ (forall w port st rc out err,
         subprocess_run w (calls st)
           (default_call (lit "siege -b -c50 -t15s " ++ localhost port
                          ++ lit "/index.html"))
         = Completed rc out err ->
         exists st',
           run_stress_tests w port st = (Ok tt, st')
           /\ logs st'
              = logs st
                ++ [ (INFO, lit "Running stress tests on port " ++ str port
                            ++ lit "...");
                     (INFO, lit "Stress GET: PASS" ++ nl ++ out) ])
  /\ (forall w content servers st,
         open_read w CONFIG_FILE_PATH = ReadOk content ->
         parse_content content = inr servers ->
         1 <= List.length servers <= 3 ->
         alternates_render servers ->
         fst (main w st) = Ok tt).
Proof.
  split; [|split].
  - intros w cmd check t st; unfold run_command_at.
    destruct (subprocess_run w (calls st) _) as [rc out err| |e].
    + destruct (check && negb (rc =? 0)%Z);
        do 4 eexists; (split; [reflexivity|split; congruence]).
    + do 4 eexists; split; [reflexivity|split; congruence].
    + do 4 eexists; split; [reflexivity|split; congruence].
  - intros w port st rc out err H.
    unfold run_stress_tests, run_tests, stress_tests, run_command, run_command_at,
      report, bind, log, ret; cbn [for_ fst snd logs calls].
    unfold bind, run_command, run_command_at, bind, ret; cbn [logs calls].
    unfold default_call in H; rewrite H; cbn [andb fst snd logs calls].
    eexists; split; [reflexivity|]; cbn [logs].
    now rewrite <- app_assoc.
  - intros w content servers st Hread Hparse Hn Halt.
    destruct (main_read w content servers st Hread Hparse)
      as (st1 & new & _ & _ & _ & ->).
    cbv zeta.
    replace (negb _) with false
      by (symmetry; apply negb_false_iff, andb_true_iff;
          split; apply Nat.leb_le; lia).
    destruct (runs_scenarios w servers Halt st1) as (st' & -> & _); reflexivity.
Qed.

(** The stress scenario of port 8080 against a shell whose every command
    exits with status 1. *)
Lemma stress_status_ignored_sample :
  (fst (run_stress_tests (file_world sample_config 1) 8080 initial) = Ok tt
   /\ logs (snd (run_stress_tests (file_world sample_config 1) 8080 initial))
      = logs initial
        ++ [ (INFO, lit "Running stress tests on port " ++ str 8080 ++ lit "...");
             (INFO, lit "Stress GET: PASS" ++ nl ++ []) ])
  /\ fst (main (file_world sample_config 1) initial) = Ok tt.
Proof.
  split.
  - destruct (proj1 (proj2 stress_status_ignored)
                (file_world sample_config 1) 8080%Z initial 1%Z [] [] eq_refl)
      as (st' & E & L).
    rewrite E; split; [reflexivity|exact L].
  - apply (proj2 (proj2 stress_status_ignored)
             (file_world sample_config 1) sample_config
             [ {| ports := [8080; 8081]%Z; server_names := [lit "a"; lit "b"] |} ]).
    + reflexivity.
    + vm_compute; reflexivity.
    + cbn; lia.
    + vm_compute; reflexivity.
Defined.

(** A stress command that exits with status 1: the scenario is recorded
    as a pass, not as a failure. *)
Lemma stress_failure_recorded_as_pass :
  fst (run_command_at (file_world sample_config 1)
         (lit "siege -b -c50 -t15s http://localhost:8080/index.html")
         false default_timeout initial)
  = Ok (success, (true, []))
  /\ logs (snd (run_stress_tests (file_world sample_config 1) 8080 initial))
     = [ (INFO, lit "Running stress tests on port 8080...");
         (INFO, lit "Stress GET: PASS" ++ nl) ].
Proof. split; vm_compute; reflexivity. Qed.

(** C3.  [run_command] always returns to its caller: a command that
    exceeds its timeout is classified as timed out, any other exception of
    the shell as an execution error, both with a false flag; and a table of
    tests is run to its end whatever each command does. *)
Theorem run_command_contains_failures :
  (forall w cmd check t st,
      exists cls ok out st',
        run_command_at w cmd check t st = (Ok (cls, (ok, out)), st')
        /\ run_command w cmd check t st = (Ok (ok, out), st')
        /\ (subprocess_run w (calls st) {| command := cmd; timeout := t |}
            = TimeoutExpired ->
            cls = timed_out /\ ok = false /\ out = lit "Timeout"
            /\ logs st' = logs st ++ [(ERROR, lit "Command timed out: " ++ cmd)])
        /\ (forall e,
               subprocess_run w (calls st) {| command := cmd; timeout := t |}
               = RunError e ->
               cls = execution_error /\ ok = false /\ out = e
               /\ logs st'
                  = logs st ++ [(ERROR, lit "Error running command " ++ cmd
                                        ++ lit ": " ++ e)]))
  /\ (forall w check tests st,
         exists st',
           run_tests w check tests st = (Ok tt, st')
           /\ calls st' = calls st ++ suite_calls tests).
Proof.
  split.
  - intros w cmd check t st; unfold run_command, bind, run_command_at.
    destruct (subprocess_run w (calls st) _) as [rc out err| |e].
    + destruct (check && negb (rc =? 0)%Z);
        do 4 eexists; (split; [reflexivity|]); (split; [reflexivity|]);
        split; [discriminate|intros; discriminate|discriminate|intros; discriminate].
    + do 4 eexists; (split; [reflexivity|]); (split; [reflexivity|]).
      split; [auto|intros; discriminate].
    + do 4 eexists; (split; [reflexivity|]); (split; [reflexivity|]).
      split; [discriminate|intros e' [= <-]; auto].
  - intros w check tests; apply runs_tests.
Qed.

(** Against the flaky shell: the first command times out, the second
    cannot be started, and the table is still run to its end. *)
Lemma run_command_contains_failures_flaky :
  (exists st',
      run_tests flaky_world true (cgi_tests 8080) initial = (Ok tt, st')
      /\ calls st' = calls initial ++ suite_calls (cgi_tests 8080))
  /\ map (fun entry => firstn 9 (snd entry))
         (logs (snd (run_tests flaky_world true (cgi_tests 8080) initial)))
     = [ lit "Command t"; lit "CGI GET: "; lit "Error run"; lit "CGI POST:";
         lit "Command f"; lit "CGI Timeo"; lit "Command f"; lit "CGI Error" ].
Proof.
  split.
  - apply (proj2 run_command_contains_failures flaky_world true
             (cgi_tests 8080) initial).
  - vm_compute; reflexivity.
Defined.

(** ** What [main] runs *)

(** C4.  When the configuration yields fewer than one or more than three
    servers, [main] logs the error and leaves through [sys.exit(1)] without
    having run any command: the fixtures are not made and no scenario
    starts. *)
Theorem main_rejects_count :
  forall w content servers st,
    open_read w CONFIG_FILE_PATH = ReadOk content ->
    parse_content content = inr servers ->
    List.length servers < 1 \/ 3 < List.length servers ->
    exists st' new,
      main w st = (SysExit 1, st')
      /\ calls st' = calls st
      /\ logs st'
         = logs st ++ new
           ++ [(ERROR, lit "Config file must contain 1–3 server blocks")].
Proof.
  intros w content servers st Hread Hparse Hn.
  destruct (main_read w content servers st Hread Hparse)
    as (st1 & new0 & Hc & Hl & Hp & ->).
  cbv zeta.
  replace (negb _) with true.
  - eexists; exists new0; split; [reflexivity|split; [exact Hc|]].
    cbn [logs]; now rewrite Hl, <- app_assoc.
  - symmetry; apply negb_true_iff, andb_false_iff.
    destruct Hn; [left|right]; apply Nat.leb_gt; lia.
Qed.

(** Four blocks, and no block at all. *)
Lemma main_rejects_count_samples :
  (exists st' new,
      main (file_world four_blocks_config 0) initial = (SysExit 1, st')
      /\ calls st' = calls initial
      /\ logs st'
         = logs initial ++ new
           ++ [(ERROR, lit "Config file must contain 1–3 server blocks")])
  /\ (exists st' new,
         main (file_world no_block_config 0) initial = (SysExit 1, st')
         /\ calls st' = calls initial
         /\ logs st'
            = logs initial ++ new
              ++ [(ERROR, lit "Config file must contain 1–3 server blocks")])
  /\ exit_status (file_world four_blocks_config 0) = 1%Z
  /\ exit_status (file_world no_block_config 0) = 1%Z.
Proof.
  split; [|split; [|split; vm_compute; reflexivity]].
  - apply (main_rejects_count (file_world four_blocks_config 0)
             four_blocks_config
             [ {| ports := [1]%Z; server_names := [] |};
               {| ports := [2]%Z; server_names := [] |};
               {| ports := [3]%Z; server_names := [] |};
               {| ports := [4]%Z; server_names := [] |} ] initial).
    + reflexivity.
    + vm_compute; reflexivity.
    + right; cbn; lia.
  - apply (main_rejects_count (file_world no_block_config 0)
             no_block_config [] initial).
    + reflexivity.
    + vm_compute; reflexivity.
    + left; cbn; lia.
Defined.

(** C5, amended.  With one to three servers, each port of which has a
    successor [str] renders, [main] makes the fixtures, then takes the
    servers in order and, for each port of each, runs the categories
    basic, cgi, chunked, delete, stress, misc in that order and to the end,
    whatever the commands do; the resolution scenarios follow, and their
    banner is logged, exactly when there is more than one server.  So two
    servers on port 8080, named [a] and [b], give the suite of port 8080
    twice and then one resolution scenario per name, each to its own
    address. *)
Theorem main_runs_suites :
  (forall w content servers st,
      open_read w CONFIG_FILE_PATH = ReadOk content ->
      parse_content content = inr servers ->
      1 <= List.length servers <= 3 ->
      alternates_render servers ->
      exists st',
        main w st = (Ok tt, st')
        /\ calls st'
           = calls st
             ++ fixture_calls
             ++ flat_map
                  (fun srv =>
                     flat_map
                       (fun port =>
                          basic_calls port ++ cgi_calls port
                          ++ chunked_calls port ++ delete_calls port
                          ++ stress_calls port ++ misc_calls port)
                       (ports srv))
                  servers
             ++ (if 1 <? List.length servers then multi_calls servers else [])
        /\ exists new,
             logs st' = logs st ++ new
             /\ (In (INFO, lit "Running multi-loop tests...") new
                 <-> 1 < List.length servers))
  /\ parse_content two_hosts_config = inr two_hosts
  /\ calls (snd (main (file_world two_hosts_config 0) initial))
     = fixture_calls ++ port_calls 8080 ++ port_calls 8080
       ++ [ default_call (lit "curl --resolve a:8080:127.0.0.1 http://a:8080/");
            default_call (lit "curl --resolve b:8080:127.0.0.2 http://b:8080/") ].
Proof.
  split; [|split; vm_compute; reflexivity].
  intros w content servers st Hread Hparse Hn Halt.
  destruct (main_read w content servers st Hread Hparse)
    as (st1 & new0 & Hc & Hl & Hp & ->).
  cbv zeta.
  replace (negb _) with false
    by (symmetry; apply negb_false_iff, andb_true_iff;
        split; apply Nat.leb_le; lia).
  destruct (scenarios_log w servers st1 Halt) as (new1 & L & Hb).
  destruct (runs_scenarios w servers Halt st1) as (st' & E0 & E).
  rewrite E0 in L |- *; cbn [snd] in L.
  exists st'; split; [reflexivity|split].
  - rewrite E, Hc; reflexivity.
  - exists (new0 ++ new1); split.
    + now rewrite L, Hl, app_assoc.
    + rewrite in_app_iff, <- Hb; split; [intros [H|H]; auto|auto].
      exfalso; rewrite Forall_forall in Hp; now apply (Hp _ H).
Qed.

(** The two servers on port 8080. *)
Lemma main_runs_suites_two_hosts :
  1 <= List.length two_hosts <= 3
  /\ alternates_render two_hosts
  /\ exists st',
       main (file_world two_hosts_config 0) initial = (Ok tt, st')
       /\ calls st'
          = calls initial
            ++ fixture_calls
            ++ flat_map
                 (fun srv =>
                    flat_map
                      (fun port =>
                         basic_calls port ++ cgi_calls port
                         ++ chunked_calls port ++ delete_calls port
                         ++ stress_calls port ++ misc_calls port)
                      (ports srv))
                 two_hosts
            ++ (if 1 <? List.length two_hosts then multi_calls two_hosts else [])
       /\ exists new,
            logs st' = logs initial ++ new
            /\ (In (INFO, lit "Running multi-loop tests...") new
                <-> 1 < List.length two_hosts).
Proof.
  assert (Hn : 1 <= List.length two_hosts <= 3) by (cbn; lia).
  assert (Halt : alternates_render two_hosts) by (vm_compute; reflexivity).
  split; [exact Hn|split; [exact Halt|]].
  apply (proj1 main_runs_suites (file_world two_hosts_config 0)
           two_hosts_config two_hosts initial eq_refl
           (proj1 (proj2 main_runs_suites)) Hn Halt).
Defined.

(** The port of 4300 nines, ten to the 4300 less one: the text is read
    and gives one server, the fixtures are made, and the [ValueError] of
    the f-string of [port+1] leaves [main] before any scenario of the port
    runs, where the claim has every category run. *)
Lemma last_port_stops_main :
  parse_content last_port_config
  = inr [ {| ports := [last_port]; server_names := [] |} ]
  /\ str_fits (last_port + 1) = false
  /\ fst (main (file_world last_port_config 0) initial) = Raised ValueError
  /\ calls (snd (main (file_world last_port_config 0) initial)) = fixture_calls
  /\ exit_status (file_world last_port_config 0) = 1%Z.
Proof.
  assert (Hb : (0 <= last_port < 10 ^ 4300)%Z).
  { unfold last_port; generalize limit_positive.
    generalize (10 ^ 4300)%Z; intros; lia. }
  assert (Hparse := parse_content_listen_body last_port Hb).
  fold last_port_config in Hparse.
  assert (Hnext : (last_port + 1 = 10 ^ 4300)%Z).
  { unfold last_port; generalize (10 ^ 4300)%Z; intros; lia. }
  assert (Hfits : str_fits (last_port + 1) = false).
  { rewrite Hnext.
    destruct (str_fits (10 ^ 4300)) eqn:E; [exfalso|reflexivity].
    apply str_fits_iff in E; [|apply Z.lt_le_incl, limit_positive].
    exact (Z.lt_irrefl _ E). }
  destruct (main_stops_at_first_port (file_world last_port_config 0)
              last_port_config _ [] last_port [] initial eq_refl Hparse
              (Nat.le_0_l 2) eq_refl Hfits) as (st' & E & Hc).
  split; [exact Hparse|split; [exact Hfits|]].
  unfold exit_status; rewrite E; cbn [fst snd].
  split; [reflexivity|split; [exact Hc|reflexivity]].
Qed.

(** ** The resolution scenarios *)

Lemma lit_inj s s' : lit s = lit s' -> s = s'.
Proof.
  unfold lit; intros H.
  rewrite <- (string_of_list_ascii_of_string s), H.
  apply string_of_list_ascii_of_string.
Qed.

Lemma str_inj n n' : str n = str n' -> n = n'.
Proof.
  unfold str; intros H; apply lit_inj in H.
  apply DecimalZ.to_int_inj.
  assert (E := NilEmpty.isi (Z.to_int n)); rewrite H, NilEmpty.isi in E.
  now injection E.
Qed.

Lemma ip_inj i j : ip i = ip j -> i = j.
Proof.
  unfold ip; intros H; apply app_inv_head, str_inj in H; lia.
Qed.

Lemma enumerate_from_seq (X : Type) (xs : list X) : forall i,
  enumerate_from i xs = combine (seq i (List.length xs)) xs.
Proof.
  induction xs as [|x xs IH]; intros i; cbn; [reflexivity|now rewrite IH].
Qed.

(** C6.  The resolution scenarios take the servers in order, the server at
    index [i] (from zero) with the address [127.0.0.(i+1)]; servers at
    different indices get different addresses; a server contributes one
    scenario per pair of one of its names and one of its ports, resolving
    [name:port] to its address, hence none when it has no name. *)
Theorem multi_host_scenarios :
  (forall w servers st,
      exists st',
        run_multi_loop_tests w servers st = (Ok tt, st')
        /\ calls st'
           = calls st
             ++ flat_map (fun e => host_calls (fst e) (snd e))
                         (combine (seq 0 (List.length servers)) servers))
  /\ (forall i srv,
         host_calls i srv
         = map (fun np =>
                  default_call
                    (lit "curl --resolve " ++ fst np ++ lit ":" ++ str (snd np)
                     ++ lit ":" ++ (lit "127.0.0." ++ str (Z.of_nat i + 1))
                     ++ lit " http://" ++ fst np ++ lit ":" ++ str (snd np)
                     ++ lit "/"))
               (list_prod (server_names srv) (ports srv)))
  /\ (forall i j, ip i = ip j -> i = j)
  /\ (forall i srv,
         List.length (host_calls i srv)
         = List.length (server_names srv) * List.length (ports srv))
  /\ (forall i srv, server_names srv = [] -> host_calls i srv = []).
Proof.
  split; [|split; [|split; [|split]]].
  - intros w servers st.
    destruct (runs_multi w servers st) as (st' & E & Hc).
    exists st'; split; [exact E|].
    rewrite Hc; unfold multi_calls, enumerate.
    now rewrite enumerate_from_seq.
  - reflexivity.
  - apply ip_inj.
  - intros i srv; unfold host_calls.
    now rewrite length_map, length_prod.
  - intros i srv H; unfold host_calls; now rewrite H.
Qed.

Lemma multi_host_scenarios_sample :
  (exists st',
      run_multi_loop_tests (file_world two_hosts_config 0) three_servers initial
      = (Ok tt, st')
      /\ calls st'
         = calls initial
           ++ flat_map (fun e => host_calls (fst e) (snd e))
                       (combine (seq 0 (List.length three_servers)) three_servers))
  /\ host_calls 2 {| ports := [9090]%Z; server_names := [] |} = []
  /\ calls (snd (run_multi_loop_tests (file_world two_hosts_config 0)
                   three_servers initial))
     = [ default_call (lit "curl --resolve a:8080:127.0.0.1 http://a:8080/");
         default_call (lit "curl --resolve b:8080:127.0.0.2 http://b:8080/") ].
Proof.
  split; [|split].
  - apply (proj1 multi_host_scenarios).
  - apply (proj2 (proj2 (proj2 (proj2 multi_host_scenarios)))); reflexivity.
  - vm_compute; reflexivity.
Defined.

(** ** Timeouts *)

(** C7, amended.  The default timeout of [run_command] is 30, and every
    stress scenario runs with exactly that default; among the calls made
    for a port, the only one with a longer budget is the leak check of the
    misc category, with 60. *)
Theorem stress_timeout_is_default :
  default_timeout = 30%Z
  /\ (forall w port st,
         exists st',
           run_stress_tests w port st = (Ok tt, st')
           /\ calls st' = calls st ++ stress_calls port)
  /\ (forall port,
         Forall (fun c => timeout c = default_timeout) (stress_calls port))
  /\ (forall port,
         Forall (fun c => timeout c = default_timeout
                          \/ c = {| command := valgrind_cmd; timeout := 60 |})
                (port_calls port)).
Proof.
  split; [reflexivity|split; [|split]].
  - intros w port st; apply runs_stress.
  - intros port; repeat constructor.
  - intros port; unfold port_calls, basic_calls, cgi_calls, chunked_calls,
      delete_calls, stress_calls, misc_calls, suite_calls.
    cbn [basic_tests cgi_tests chunked_tests stress_tests map app].
    repeat (constructor; [first [left; reflexivity|right; reflexivity]|]).
    constructor.
Qed.

(** The stress scenario of port 8080: one call, with the default timeout
    of 30, which is not above the default. *)
Lemma stress_runs_with_default_timeout :
  calls (snd (run_stress_tests (file_world sample_config 0) 8080 initial))
  = [ {| command := lit "siege -b -c50 -t15s http://localhost:8080/index.html";
         timeout := 30 |} ]
  /\ forallb (fun c => (timeout c <=? default_timeout)%Z)
             (calls (snd (run_stress_tests (file_world sample_config 0)
                                           8080 initial)))
     = true.
Proof. split; vm_compute; reflexivity. Qed.

(** ** Fatal and non-fatal configurations *)

(** C8, amended.  [parse_config] ends the process with status 1, after
    logging an error, when the file does not exist, when reading it raises
    anything else, and when a port of a block has more digits than [int]
    converts.  A port that is not a number is no error: the directive does
    not fit the pattern and is passed over, so a text whose ports convert
    is parsed whatever else its directives hold; and a text without any
    block gives the empty list. *)
Theorem parse_config_fatal_cases :
  forall w path st,
    (open_read w path = ReadNotFound ->
     parse_config w path st
     = (SysExit 1,
        {| logs := logs st ++ [(ERROR, lit "Config file not found: " ++ path)];
           calls := calls st |}))
    /\ (forall msg,
           open_read w path = ReadError msg ->
           parse_config w path st
           = (SysExit 1,
              {| logs := logs st
                         ++ [(ERROR, lit "Error parsing config file: " ++ msg)];
                 calls := calls st |}))
    /\ (forall content,
           open_read w path = ReadOk content ->
           Exists port_too_long (tl (Re.split re_server content)) ->
           exists bad,
             parse_config w path st
             = (SysExit 1,
                {| logs := logs st
                           ++ [(ERROR, lit "Error parsing config file: "
                                       ++ value_error bad)];
                   calls := calls st |}))
    /\ (forall content,
           open_read w path = ReadOk content ->
           Forall ports_convert (tl (Re.split re_server content)) ->
           exists servers st', parse_config w path st = (Ok servers, st'))
    /\ (forall content,
           open_read w path = ReadOk content ->
           opener_free content ->
           exists st', parse_config w path st = (Ok [], st')).
Proof.
  intros w path st; split; [|split; [|split; [|split]]].
  - intros H; unfold parse_config; rewrite H; reflexivity.
  - intros msg H; unfold parse_config; rewrite H; reflexivity.
  - intros content H Hlong; exact (parse_config_long w path content st H Hlong).
  - intros content H Hshort.
    destruct (parse_config_read w path content st H Hshort)
      as (servers & st' & E & _).
    eauto.
  - intros content H Hfree.
    assert (Hsplit : tl (Re.split re_server content) = []).
    { rewrite <- (app_nil_r content).
      change (@nil ascii) with (flat_map render []) at 1.
      rewrite split_blocks by (auto; constructor); reflexivity. }
    destruct (parse_config_read w path content st H) as (servers & st' & E & Hc & _);
      [rewrite Hsplit; constructor|].
    unfold parse_content in Hc; rewrite Hsplit in Hc.
    injection Hc as <-; eauto.
Qed.

(** A missing file, an unreadable file, the port ten to the 4300 (4301
    digits), a port that is not a number, and a file without blocks. *)
Lemma parse_config_fatal_cases_samples :
  fst (parse_config missing_world CONFIG_FILE_PATH initial) = SysExit 1
  /\ fst (parse_config unreadable_world CONFIG_FILE_PATH initial) = SysExit 1
  /\ (exists bad,
         parse_config (file_world long_port_config 0) CONFIG_FILE_PATH initial
         = (SysExit 1,
            {| logs := logs initial
                       ++ [(ERROR, lit "Error parsing config file: "
                                   ++ value_error bad)];
               calls := calls initial |}))
  /\ (exists servers st',
         parse_config (file_world bad_port_config 0) CONFIG_FILE_PATH initial
         = (Ok servers, st'))
  /\ (exists st',
         parse_config (file_world no_block_config 0) CONFIG_FILE_PATH initial
         = (Ok [], st')).
Proof.
  split; [|split; [|split; [|split]]].
  - rewrite (proj1 (parse_config_fatal_cases missing_world CONFIG_FILE_PATH
                      initial) eq_refl); reflexivity.
  - rewrite (proj1 (proj2 (parse_config_fatal_cases unreadable_world
                             CONFIG_FILE_PATH initial)) _ eq_refl); reflexivity.
  - apply (proj1 (proj2 (proj2 (parse_config_fatal_cases
                                  (file_world long_port_config 0)
                                  CONFIG_FILE_PATH initial))) long_port_config).
    + reflexivity.
    + unfold long_port_config.
      rewrite split_listen_body by apply Z.lt_le_incl, limit_positive.
      constructor; apply listen_body_too_long, Z.le_refl.
  - apply (proj1 (proj2 (proj2 (proj2 (parse_config_fatal_cases
                                  (file_world bad_port_config 0)
                                  CONFIG_FILE_PATH initial)))) bad_port_config).
    + reflexivity.
    + let blocks := eval vm_compute in (tl (Re.split re_server bad_port_config)) in
      change (Forall ports_convert blocks).
      constructor; [|constructor].
      apply ports_convert_by_scan; vm_compute; reflexivity.
  - apply (proj2 (proj2 (proj2 (proj2 (parse_config_fatal_cases
                                  (file_world no_block_config 0)
                                  CONFIG_FILE_PATH initial)))) no_block_config).
    + reflexivity.
    + apply opener_free_by_scan; vm_compute; reflexivity.
Defined.

(** A block whose only port is [abc]: the text is read and parsed, the
    directive is passed over, and [parse_config] returns one server
    without ports instead of ending the process. *)
Lemma bad_port_is_not_fatal :
  parse_config (file_world bad_port_config 0) CONFIG_FILE_PATH initial
  = (Ok [ {| ports := []; server_names := [] |} ],
     {| logs := [(INFO, lit "Found 1 server blocks with ports: [[]]")];
        calls := [] |}).
Proof. vm_compute; reflexivity. Qed.

(** ** The disconnect script *)

(** C9, at any state.  [create_read_err_script] returns without a command
    and without a change to the state, so nothing has made [read_err.py]
    when [run_other_tests] hands [python3 read_err.py] to the shell as its
    first command. *)
Theorem create_read_err_script_writes_nothing :
  (forall st, create_read_err_script st = (Ok tt, st))
  /\ (forall w port st,
         exists st',
           run_other_tests w port st = (Ok tt, st')
           /\ calls st'
              = calls st
                ++ [ default_call (lit "python3 read_err.py");
                     default_call (big_header_cmd port);
                     {| command := valgrind_cmd; timeout := 60 |} ]).
Proof.
  split; [reflexivity|].
  intros w port st; apply runs_other.
Qed.

(* ================================================================== *)
(** * More of [parse_config] and [main] *)
(* ================================================================== *)

(** ** Extra properties of [parse_config] *)

Lemma split_length r s :
  List.length (tl (Re.split r s)) = List.length (fst (scan r s 0)).
Proof.
  unfold Re.split; destruct (scan r s 0) as [items last]; cbn [fst].
  destruct items as [|it items]; cbn [map app tl]; [reflexivity|].
  now rewrite length_app, length_map, Nat.add_comm.
Qed.

Lemma opener_at_match content i :
  opener_at content i
  <-> exists m, match_here re_server (skipn i content) = Some m.
Proof.
  split.
  - intros (t & [rest E] & Ho); rewrite E, (match_opener t rest Ho); eauto.
  - intros [[len g] H].
    apply match_here_sound in H as (t & rest & E & _ & D).
    apply denotes_server in D as [Ho _].
    exists t; split; [exists rest; exact E|exact Ho].
Qed.

Lemma parse_blocks_length bodies : forall servers,
  parse_blocks bodies = inr servers ->
  List.length servers = List.length bodies.
Proof.
  induction bodies as [|b bodies IH]; intros servers H; cbn [parse_blocks] in H.
  - now injection H as <-.
  - destruct (parse_block b); [discriminate|].
    destruct (parse_blocks bodies) as [bad|rest]; [discriminate|].
    injection H as <-; cbn [List.length]; now rewrite (IH rest).
Qed.

(** X1.  Whatever the text of the file, the servers [parse_config] returns
    are as many as the places where a block opener ([server], blanks,
    brace) starts, be it inside another block; and it does return them
    when the ports of every block are written with digits [int]
    converts. *)
Theorem servers_count_openers :
  forall w path content st,
    open_read w path = ReadOk content ->
    exists idx,
      StronglySorted lt idx
      /\ (forall i, In i idx <-> opener_at content i)
      /\ (forall servers st',
             parse_config w path st = (Ok servers, st') ->
             List.length servers = List.length idx)
      /\ (Forall ports_convert (tl (Re.split re_server content)) ->
          exists servers st', parse_config w path st = (Ok servers, st')).
Proof.
  intros w path content st Hread.
  exists (map fst (matches_from re_server content 0)).
  split; [|split; [|split]].
  - apply (matches_from_sorted re_server "s"%char server_head).
  - intros i; rewrite opener_at_match, in_map_iff; split.
    + intros ([j m] & <- & Hm).
      apply (matches_from_spec re_server "s"%char server_head) in Hm
        as (k & -> & Hm).
      exists m; exact Hm.
    + intros [m Hm]; exists (i, m); split; [reflexivity|].
      apply (matches_from_spec re_server "s"%char server_head).
      exists i; split; [reflexivity|exact Hm].
  - intros servers st' E; unfold parse_config in E; rewrite Hread in E.
    unfold parse_content in E.
    destruct (parse_blocks (tl (Re.split re_server content)))
      as [bad|servers'] eqn:E'; [discriminate E|].
    injection E as <- _.
    rewrite (parse_blocks_length _ _ E'), split_length, length_map.
    rewrite <- (length_map (fun it => snd (snd it))).
    rewrite (scan_all re_server "s"%char server_head content 0 0)
      by (intros k Hk; lia).
    now rewrite length_map.
  - intros Hshort.
    destruct (parse_config_read w path content st Hread Hshort)
      as (servers & st' & E & _).
    eauto.
Qed.

(** The nested configuration gives two servers. *)
Lemma servers_count_openers_nested :
  (exists idx,
      StronglySorted lt idx
      /\ (forall i, In i idx <-> opener_at nested_config i)
      /\ (forall servers st',
             parse_config (file_world nested_config 0) CONFIG_FILE_PATH initial
             = (Ok servers, st') ->
             List.length servers = List.length idx)
      /\ (Forall ports_convert (tl (Re.split re_server nested_config)) ->
          exists servers st',
            parse_config (file_world nested_config 0) CONFIG_FILE_PATH initial
            = (Ok servers, st')))
  /\ fst (parse_config (file_world nested_config 0) CONFIG_FILE_PATH initial)
     = Ok [ {| ports := [80]%Z; server_names := [] |};
            {| ports := [81]%Z; server_names := [] |} ].
Proof.
  split.
  - apply (servers_count_openers (file_world nested_config 0) CONFIG_FILE_PATH
             nested_config initial eq_refl).
  - vm_compute; reflexivity.
Defined.

Lemma parse_blocks_app a : forall b x y,
  parse_blocks a = inr x -> parse_blocks b = inr y ->
  parse_blocks (a ++ b) = inr (x ++ y).
Proof.
  induction a as [|bd a IH]; intros b x y Ha Hb; cbn [parse_blocks app] in *.
  - now injection Ha as <-.
  - destruct (parse_block bd) as [bad|srv]; [discriminate|].
    destruct (parse_blocks a) as [bad|servers] eqn:Ea; [discriminate|].
    injection Ha as <-.
    now rewrite (IH b servers y eq_refl Hb).
Qed.

(** X2.  Parsing composes over blocks: the servers of a configuration
    followed by further blocks are the servers of the one followed by the
    servers of the others, and what precedes the first block, directives
    included, counts for nothing. *)
Theorem parse_content_concat :
  forall pre blocks1 blocks2 servers1 servers2,
    opener_free pre ->
    Forall well_formed blocks1 -> Forall well_formed blocks2 ->
    parse_content (config_text [] blocks1) = inr servers1 ->
    parse_content (config_text [] blocks2) = inr servers2 ->
    parse_content (pre ++ config_text [] blocks1 ++ config_text [] blocks2)
    = inr (servers1 ++ servers2).
Proof.
  intros pre blocks1 blocks2 servers1 servers2 Hpre Hwf1 Hwf2 H1 H2.
  rewrite parse_content_blocks in H1, H2 by auto using opener_free_nil.
  unfold config_text; cbn [app].
  rewrite <- flat_map_app.
  change (parse_content (config_text pre (blocks1 ++ blocks2))
          = inr (servers1 ++ servers2)).
  rewrite parse_content_blocks by (auto; apply Forall_app; auto).
  rewrite map_app; now apply parse_blocks_app.
Qed.

Lemma parse_content_concat_sample :
  parse_content (stray_preamble ++ config_text [] first_blocks
                 ++ config_text [] second_blocks)
  = inr ([ {| ports := [80]%Z; server_names := [lit "a"] |} ]
         ++ [ {| ports := [81]%Z; server_names := [] |};
              {| ports := []; server_names := [lit "c"; lit "d"] |} ]).
Proof.
  apply parse_content_concat.
  - apply opener_free_by_scan; vm_compute; reflexivity.
  - repeat constructor; apply opener_free_by_scan; vm_compute; reflexivity.
  - repeat constructor; apply opener_free_by_scan; vm_compute; reflexivity.
  - vm_compute; reflexivity.
  - vm_compute; reflexivity.
Defined.

(** ** Extra properties of [main] *)

Lemma length_flat_map_sum (X Y : Type) (f : X -> list Y) xs :
  List.length (flat_map f xs) = list_sum (map (fun x => List.length (f x)) xs).
Proof.
  induction xs as [|x xs IH]; [reflexivity|].
  cbn [flat_map map]; rewrite length_app, IH; reflexivity.
Qed.

Lemma length_port_calls port : List.length (port_calls port) = 28.
Proof. reflexivity. Qed.

Lemma list_sum_constant (X : Type) (k : nat) (xs : list X) :
  list_sum (map (fun _ => k) xs) = k * List.length xs.
Proof.
  induction xs as [|x xs IH]; simpl; [lia|].
  fold (list_sum (map (fun _ : X => k) xs)); rewrite IH; lia.
Qed.

Lemma length_suites servers :
  List.length (flat_map (fun srv => flat_map port_calls (ports srv)) servers)
  = 28 * total_ports servers.
Proof.
  unfold total_ports; induction servers as [|srv servers IH];
    [reflexivity|].
  cbn [flat_map map]; rewrite length_app, IH, length_flat_map_sum.
  rewrite (map_ext _ (fun _ => 28) length_port_calls), list_sum_constant.
  unfold list_sum; cbn [fold_right]; lia.
Qed.

Lemma length_multi_from servers : forall i,
  List.length (flat_map (fun e => host_calls (fst e) (snd e))
                        (enumerate_from i servers))
  = total_pairs servers.
Proof.
  unfold total_pairs; induction servers as [|srv servers IH]; intros i;
    [reflexivity|].
  cbn [enumerate_from flat_map map fst snd].
  rewrite length_app, IH; unfold list_sum; cbn [fold_right]; f_equal.
  unfold host_calls; now rewrite length_map, length_prod.
Qed.

(** X3.  With one to three servers, each port of which has a successor
    [str] renders, [main] hands the shell two commands for the fixtures,
    twenty-eight for each port of each server, and, when there is more
    than one server, one for each pair of a name and a port of a server;
    none of them is skipped whatever the others did. *)
Theorem main_command_count :
  forall w content servers st,
    open_read w CONFIG_FILE_PATH = ReadOk content ->
    parse_content content = inr servers ->
    1 <= List.length servers <= 3 ->
    alternates_render servers ->
    List.length (calls (snd (main w st)))
    = List.length (calls st) + 2 + 28 * total_ports servers
      + (if 1 <? List.length servers then total_pairs servers else 0).
Proof.
  intros w content servers st Hread Hparse Hn Halt.
  destruct (main_read w content servers st Hread Hparse)
    as (st1 & new0 & Hc & _ & _ & ->).
  cbv zeta.
  replace (negb _) with false
    by (symmetry; apply negb_false_iff, andb_true_iff;
        split; apply Nat.leb_le; lia).
  destruct (runs_scenarios w servers Halt st1) as (st' & -> & E).
  cbn [snd]; rewrite E, Hc, !length_app, length_suites.
  change (List.length fixture_calls) with 2.
  destruct (1 <? List.length servers).
  - unfold multi_calls, enumerate; rewrite length_multi_from; lia.
  - cbn [List.length]; lia.
Qed.

(** The two servers on port 8080: 2 + 28 * 2 + 2 = 60 commands. *)
Lemma main_command_count_two_hosts :
  List.length (calls (snd (main (file_world two_hosts_config 0) initial))) = 60.
Proof.
  rewrite (main_command_count (file_world two_hosts_config 0) two_hosts_config
             two_hosts initial eq_refl).
  - reflexivity.
  - vm_compute; reflexivity.
  - cbn; lia.
  - vm_compute; reflexivity.
Defined.

Lemma enumerate_from_bounds (X : Type) (xs : list X) : forall i j x,
  In (j, x) (enumerate_from i xs) -> i <= j < i + List.length xs.
Proof.
  induction xs as [|y xs IH]; intros i j x; cbn [enumerate_from List.length].
  - intros [].
  - intros [[= <- <-]|H]; [lia|apply IH in H; lia].
Qed.

Lemma ip_small i : i < 3 -> In (ip i) loopback_addresses.
Proof.
  intros H; destruct i as [|[|[|i]]]; [now left|right; now left|do 2 right; now left|lia].
Qed.

Lemma multi_calls_local servers :
  List.length servers <= 3 -> Forall resolves_locally (multi_calls servers).
Proof.
  intros Hn; unfold multi_calls; apply Forall_forall; intros c Hc.
  apply in_flat_map in Hc as ([i srv] & He & Hc); cbn [fst snd] in Hc.
  apply enumerate_from_bounds in He.
  unfold host_calls in Hc; apply in_map_iff in Hc as ([name port] & <- & _).
  exists name, port, (ip i); split; [apply ip_small; lia|reflexivity].
Qed.

(** X4.  Whatever the configuration holds, provided each of its ports
    has a successor [str] renders: the commands [main] hands to the shell
    are nothing when the count of servers is not one, two or three, and
    otherwise the fixtures and the suites of the ports followed by the
    resolutions; every resolution sends its name to 127.0.0.1, 127.0.0.2
    or 127.0.0.3, and there is none for a single server. *)
Theorem main_resolves_locally :
  forall w content servers st,
    open_read w CONFIG_FILE_PATH = ReadOk content ->
    parse_content content = inr servers ->
    alternates_render servers ->
    exists suites resolutions,
      calls (snd (main w st)) = calls st ++ suites ++ resolutions
      /\ (List.length servers < 1 \/ 3 < List.length servers ->
          suites = [] /\ resolutions = [])
      /\ (1 <= List.length servers <= 3 ->
          suites
          = fixture_calls
            ++ flat_map (fun srv => flat_map port_calls (ports srv)) servers
          /\ resolutions
             = if 1 <? List.length servers then multi_calls servers else [])
      /\ Forall resolves_locally resolutions
      /\ (List.length servers <= 1 -> resolutions = []).
Proof.
  intros w content servers st Hread Hparse Halt.
  destruct (main_read w content servers st Hread Hparse)
    as (st1 & new0 & Hc & _ & _ & ->).
  cbv zeta.
  destruct (negb _) eqn:En.
  - apply negb_true_iff, andb_false_iff in En.
    assert (Hout : ~ 1 <= List.length servers <= 3).
    { destruct En as [En|En]; apply Nat.leb_gt in En; lia. }
    exists [], []; cbn [snd bind log sys_exit calls].
    rewrite Hc, app_nil_r; repeat split; auto; contradiction.
  - apply negb_false_iff, andb_true_iff in En as [E1 E3].
    apply Nat.leb_le in E1, E3.
    destruct (runs_scenarios w servers Halt st1) as (st' & -> & E).
    cbn [snd]; rewrite E, Hc.
    exists (fixture_calls
            ++ flat_map (fun srv => flat_map port_calls (ports srv)) servers),
      (if 1 <? List.length servers then multi_calls servers else []).
    split; [now rewrite <- !app_assoc|split; [lia|split; [auto|split]]].
    + destruct (1 <? List.length servers); [now apply multi_calls_local|constructor].
    + intros H1; replace (1 <? List.length servers) with false; [reflexivity|].
      symmetry; apply Nat.ltb_ge; lia.
Qed.

Lemma main_resolves_locally_three :
  Forall resolves_locally (multi_calls three_servers)
  /\ alternates_render two_hosts
  /\ exists suites resolutions,
       calls (snd (main (file_world two_hosts_config 0) initial))
       = calls initial ++ suites ++ resolutions
       /\ (List.length two_hosts < 1 \/ 3 < List.length two_hosts ->
           suites = [] /\ resolutions = [])
       /\ (1 <= List.length two_hosts <= 3 ->
           suites
           = fixture_calls
             ++ flat_map (fun srv => flat_map port_calls (ports srv)) two_hosts
           /\ resolutions
              = if 1 <? List.length two_hosts then multi_calls two_hosts else [])
       /\ Forall resolves_locally resolutions
       /\ (List.length two_hosts <= 1 -> resolutions = []).
Proof.
  assert (Halt : alternates_render two_hosts) by (vm_compute; reflexivity).
  split; [|split; [exact Halt|]].
  - apply multi_calls_local; cbn; lia.
  - apply (main_resolves_locally (file_world two_hosts_config 0)
             two_hosts_config two_hosts initial eq_refl);
      [vm_compute; reflexivity|exact Halt].
Defined.

(** ** A port written by [str] is read back *)

(** X5.  A block that listens on the port [str n] writes is read back as
    the port [n], for every [n] from zero on that CPython converts
    whatever its limit on digits (below ten to the 4300): the digits a
    command shows for a port are those of a configuration that yields
    it. *)
Theorem listen_round_trip :
  forall w path n st,
    (0 <= n < 10 ^ 4300)%Z ->
    open_read w path = ReadOk (lit "server {" ++ listen_body n) ->
    exists st',
      parse_config w path st
      = (Ok [ {| ports := [n]; server_names := [] |} ], st').
Proof.
  intros w path n st Hn Hread.
  unfold parse_config; rewrite Hread, (parse_content_listen_body n Hn).
  eexists; reflexivity.
Qed.

Lemma listen_round_trip_65535 :
  exists st',
    parse_config (file_world (lit "server {" ++ listen_body 65535) 0)
                 CONFIG_FILE_PATH initial
    = (Ok [ {| ports := [65535]%Z; server_names := [] |} ], st').
Proof.
  apply (listen_round_trip (file_world (lit "server {" ++ listen_body 65535) 0)
           CONFIG_FILE_PATH 65535 initial);
    [split; [lia|reflexivity]|reflexivity].
Defined.

(** ** The ports [parse_config] returns are rendered *)

Lemma int_bounds s p : int s = Some p -> (0 <= p < 10 ^ 4300)%Z.
Proof.
  unfold int; destruct s as [|c s]; [discriminate|].
  destruct (forallb isdecimal (c :: s) && _) eqn:E; [|discriminate].
  intros [= <-]; apply andb_prop in E as [Hd Hl]; apply Nat.leb_le in Hl.
  pose proof (int_digits_bound (c :: s) Hd) as [H0 Hb].
  split; [exact H0|].
  apply Z.lt_le_trans with (1 := Hb).
  change 4300%Z with (Z.of_nat INT_MAX_STR_DIGITS).
  apply Z.pow_le_mono_r; [reflexivity|now apply Nat2Z.inj_le].
Qed.

Lemma ints_bounds ss : forall ps,
  ints ss = inr ps -> Forall (fun p => 0 <= p < 10 ^ 4300)%Z ps.
Proof.
  induction ss as [|s ss IH]; intros ps H; cbn [ints] in H.
  - injection H as <-; constructor.
  - destruct (int s) as [p|] eqn:E; [|discriminate].
    destruct (ints ss) as [bad|ps']; [discriminate|].
    injection H as <-; constructor; [now apply (int_bounds s)|now apply IH].
Qed.

Lemma parse_blocks_bounds blocks : forall servers,
  parse_blocks blocks = inr servers ->
  Forall (fun srv => Forall (fun p => 0 <= p < 10 ^ 4300)%Z (ports srv)) servers.
Proof.
  induction blocks as [|b blocks IH]; intros servers H; cbn [parse_blocks] in H.
  - injection H as <-; constructor.
  - destruct (parse_block b) as [bad|srv] eqn:E; [discriminate|].
    destruct (parse_blocks blocks) as [bad|rest]; [discriminate|].
    injection H as <-; constructor; [|now apply IH].
    unfold parse_block in E.
    destruct (ints (findall re_listen b)) as [bad|ps] eqn:Ei; [discriminate|].
    injection E as <-; cbn [ports]; now apply (ints_bounds _ _ Ei).
Qed.

(** X11.  Every port [parse_config] returns lies between zero and ten to
    the 4300, so [str] renders it in the records and commands that show
    it, and [int] reads what [str] wrote back as the same port. *)
Theorem parsed_ports_render :
  forall content servers,
    parse_content content = inr servers ->
    Forall (fun srv =>
              Forall (fun p => (0 <= p < 10 ^ 4300)%Z
                               /\ str_fits p = true
                               /\ int (str p) = Some p)
                     (ports srv))
           servers.
Proof.
  intros content servers H; unfold parse_content in H.
  apply parse_blocks_bounds in H.
  eapply Forall_impl; [|exact H]; intros srv Hs.
  eapply Forall_impl; [|exact Hs]; intros p Hp.
  split; [exact Hp|split; [|now apply int_str]].
  destruct Hp as [H0 Hlt]; now apply str_fits_iff.
Qed.

Lemma parsed_ports_render_two_hosts :
  Forall (fun srv =>
            Forall (fun p => (0 <= p < 10 ^ 4300)%Z
                             /\ str_fits p = true
                             /\ int (str p) = Some p)
                   (ports srv))
         two_hosts.
Proof.
  apply (parsed_ports_render two_hosts_config); vm_compute; reflexivity.
Defined.

(* ================================================================== *)
(** * The header remover: lines and files *)
(* ================================================================== *)

Section HeaderRemoverFacts.
Import HeaderRemover HeaderSpec.

Lemma text_eqb_eq a : forall b, text_eqb a b = true <-> a = b.
Proof.
  induction a as [|x a IH]; intros [|y b]; cbn [text_eqb];
    try (split; [discriminate|discriminate]); [tauto|].
  rewrite andb_true_iff, IH, Ascii.eqb_eq; split; [intros [-> ->]|intros [= -> ->]]; auto.
Qed.

Lemma text_eqb_refl a : text_eqb a a = true.
Proof. now apply text_eqb_eq. Qed.

Lemma text_eqb_neq a b : a <> b -> text_eqb a b = false.
Proof.
  intros H; destruct (text_eqb a b) eqn:E; [|reflexivity].
  apply text_eqb_eq in E; contradiction.
Qed.

(** ** Universal newlines *)

Lemma universal_newlines_no_cr s : ~ In CR (universal_newlines s).
Proof.
  assert (G : forall n s, List.length s <= n -> ~ In CR (universal_newlines s)).
  { clear s; induction n as [|n IH]; intros [|c s] Hl; cbn [List.length] in Hl;
      try lia; cbn [universal_newlines]; [intros []|intros []|].
    destruct (Ascii.eqb_spec c CR) as [->|Nc].
    - destruct s as [|c' s]; [intros [E|[]]; discriminate E|].
      destruct (Ascii.eqb c' LF); intros [E|H]; try discriminate E;
        revert H; apply IH; cbn [List.length] in *; lia.
    - intros [E|H]; [congruence|revert H; apply IH; lia]. }
  apply (G (List.length s)); lia.
Qed.

Lemma universal_newlines_id s : ~ In CR s -> universal_newlines s = s.
Proof.
  induction s as [|c s IH]; intros H; cbn [universal_newlines]; [reflexivity|].
  destruct (Ascii.eqb_spec c CR) as [->|_]; [exfalso; apply H; now left|].
  f_equal; apply IH; intros Hin; apply H; now right.
Qed.

(** ** [readlines] keeps every character *)

Lemma concat_lines_from s : forall cur,
  List.concat (lines_from s cur) = cur ++ s.
Proof.
  induction s as [|c s IH]; intros cur; cbn [lines_from].
  - destruct cur; cbn [List.concat app]; now rewrite ?app_nil_r.
  - destruct (Ascii.eqb_spec c LF) as [->|].
    + cbn [List.concat]; rewrite IH, <- app_assoc; reflexivity.
    + rewrite IH, <- app_assoc; reflexivity.
Qed.

Lemma concat_readlines s : List.concat (readlines s) = s.
Proof. apply concat_lines_from. Qed.

Lemma concat_skipn (ls : list text) k :
  List.concat ls = List.concat (firstn k ls) ++ List.concat (skipn k ls).
Proof. now rewrite <- concat_app, firstn_skipn. Qed.

Lemma after_header_skipn lines : after_header lines = skipn LINES_TO_REMOVE lines.
Proof.
  unfold after_header; destruct (Nat.leb_spec LINES_TO_REMOVE (List.length lines));
    [reflexivity|].
  symmetry; apply skipn_all2; lia.
Qed.

Lemma without_blank_suffix ls :
  exists dropped, List.concat ls = dropped ++ List.concat (without_blank ls).
Proof.
  destruct ls as [|first rest]; cbn [without_blank]; [now exists []|].
  destruct (strip first); [exists first; reflexivity|now exists []].
Qed.

(** The text kept of a file is an end of its text. *)
Lemma kept_is_suffix s :
  exists removed,
    s = removed ++ List.concat (without_blank (after_header (readlines s))).
Proof.
  rewrite after_header_skipn.
  destruct (without_blank_suffix (skipn LINES_TO_REMOVE (readlines s)))
    as [dropped E].
  exists (List.concat (firstn LINES_TO_REMOVE (readlines s)) ++ dropped).
  rewrite <- app_assoc, <- E, <- concat_skipn; symmetry; apply concat_readlines.
Qed.

(** ** Lines put together are read back as they were *)

Lemma lines_from_ok s : forall cur,
  ~ In LF cur -> lines_ok (lines_from s cur).
Proof.
  induction s as [|c s IH]; intros cur Hcur; cbn [lines_from].
  - destruct cur; [constructor|constructor; [discriminate|exact Hcur]].
  - destruct (Ascii.eqb_spec c LF) as [->|Nc].
    + constructor; [exact Hcur|apply IH; intros []].
    + apply IH; intros H; apply in_app_or in H as [H|[H|[]]]; auto.
Qed.

Lemma lines_from_app l : forall x cur,
  ~ In LF l -> lines_from (l ++ x) cur = lines_from x (cur ++ l).
Proof.
  induction l as [|c l IH]; intros x cur Hl; cbn [app lines_from].
  - now rewrite app_nil_r.
  - destruct (Ascii.eqb_spec c LF) as [->|_]; [exfalso; apply Hl; now left|].
    rewrite IH, <- app_assoc; [reflexivity|].
    intros H; apply Hl; now right.
Qed.

Lemma readlines_concat ls : lines_ok ls -> readlines (List.concat ls) = ls.
Proof.
  unfold readlines; induction 1 as [|l Hne Hl|l ls Hl _ IH]; cbn [List.concat].
  - reflexivity.
  - rewrite lines_from_app by exact Hl; cbn [lines_from app].
    destruct l; [congruence|reflexivity].
  - rewrite <- app_assoc, lines_from_app by exact Hl; cbn [app lines_from].
    change (Ascii.eqb LF LF) with true; cbv iota.
    now rewrite IH.
Qed.

Lemma lines_ok_tl l ls : lines_ok (l :: ls) -> lines_ok ls.
Proof. inversion 1; subst; [constructor|assumption]. Qed.

Lemma lines_ok_skipn k : forall ls, lines_ok ls -> lines_ok (skipn k ls).
Proof.
  induction k as [|k IH]; intros [|l ls] H; cbn [skipn]; auto.
  apply IH; eapply lines_ok_tl; eauto.
Qed.

Lemma lines_ok_without_blank ls : lines_ok ls -> lines_ok (without_blank ls).
Proof.
  intros H; destruct ls as [|first rest]; cbn [without_blank]; auto.
  destruct (strip first); [eapply lines_ok_tl; eauto|exact H].
Qed.

Lemma without_blank_skipn lines :
  without_blank (after_header lines) = skipn (dropped_lines lines) lines.
Proof.
  rewrite after_header_skipn; unfold dropped_lines, without_blank.
  destruct (skipn LINES_TO_REMOVE lines) as [|first rest] eqn:E.
  - assert (L : List.length lines <= LINES_TO_REMOVE).
    { apply (f_equal (@List.length _)) in E; rewrite length_skipn in E.
      cbn [List.length] in E; lia. }
    rewrite (proj2 (nth_error_None lines LINES_TO_REMOVE) L).
    now rewrite E.
  - assert (N : nth_error lines LINES_TO_REMOVE = Some first).
    { rewrite <- (firstn_skipn LINES_TO_REMOVE lines), E.
      rewrite nth_error_app2; rewrite length_firstn.
      - replace (_ - _) with 0; [reflexivity|].
        assert (L : List.length (skipn LINES_TO_REMOVE lines) = S (List.length rest))
          by now rewrite E.
        rewrite length_skipn in L; lia.
      - lia. }
    rewrite N; destruct (strip first); [|now rewrite E].
    change (S LINES_TO_REMOVE) with (1 + LINES_TO_REMOVE).
    now rewrite <- skipn_skipn, E.
Qed.

(** ** [process_file] *)

Lemma is_header_iff f : is_header (first_line f) = true <-> has_header f.
Proof.
  unfold is_header, has_header; now rewrite orb_true_iff, !text_eqb_eq.
Qed.

Lemma process_file_returns w path st :
  lookup w path <> Special ->
  exists b st', process_file w path st = (Ok b, st').
Proof.
  intros Hs; unfold process_file, open_, io_error, bind, print_err, ret.
  destruct (lookup w path) as [|i|]; [now eauto| |congruence].
  destruct (readable (files st i)); [|now eauto].
  destruct (is_header _); [|now eauto].
  destruct (writable (files st i)); [|now eauto].
  destruct (cut_short w i _); now eauto.
Qed.

Lemma process_file_spec w path st :
  lookup w path <> Special ->
  writes_complete w ->
  exists b st',
    process_file w path st = (Ok b, st')
    /\ stdout st' = stdout st
    /\ (forall i, lookup w path <> Regular i -> files st' i = files st i)
    /\ (b = true <-> rewritable w st path)
    /\ (b = false -> files st' = files st)
    /\ (b = true ->
        exists i, lookup w path = Regular i
                  /\ trimmed (files st i) (files st' i)).
Proof.
  intros Hs Hw; unfold process_file, open_, rewritable.
  destruct (lookup w path) as [|i|] eqn:El; [| |congruence].
  { do 2 eexists; split; [reflexivity|]; cbn [stdout files].
    repeat split; auto; try discriminate.
    intros (i & E & _); discriminate E. }
  destruct (readable (files st i)) eqn:Er.
  2:{ do 2 eexists; split; [reflexivity|]; cbn [stdout files].
      repeat split; auto; try discriminate.
      intros (j & [= <-] & E & _); congruence. }
  fold (first_line (files st i)).
  destruct (is_header (first_line (files st i))) eqn:Eh.
  2:{ do 2 eexists; split; [reflexivity|].
      repeat split; auto; try discriminate.
      intros (j & [= <-] & _ & _ & H); apply is_header_iff in H; congruence. }
  destruct (writable (files st i)) eqn:Ew.
  2:{ do 2 eexists; split; [reflexivity|]; cbn [stdout files].
      repeat split; auto; try discriminate.
      intros (j & [= <-] & _ & E & _); congruence. }
  rewrite Hw.
  do 2 eexists; split; [reflexivity|]; cbn [store stdout files].
  split; [reflexivity|split; [|split; [|split]]].
  - intros j Hj; destruct (Nat.eqb_spec j i) as [->|_]; [congruence|reflexivity].
  - split; [intros _|reflexivity].
    exists i; repeat split; auto; now apply is_header_iff.
  - discriminate.
  - intros _; exists i; split; [reflexivity|].
    rewrite Nat.eqb_refl.
    destruct (kept_is_suffix (universal_newlines (data (files st i))))
      as [removed E].
    unfold trimmed; cbn [data readable writable]; eauto.
Qed.

(** X6.  On a path that leads to no special file, and when what is
    written is written in full, [process_file] never ends the run, prints
    nothing on the standard output and touches no file but the one the
    path leads to.  It returns true exactly when that file can be read and
    written and its first line, blanks around it apart, is one of the two
    header lines; the file then holds an end of the text it had, read with
    universal newlines, and can be read and written as before.  When it
    returns false, every file is as it was. *)
Theorem process_file_trims :
  forall w path st,
    lookup w path <> Special ->
    writes_complete w ->
    exists b st',
      process_file w path st = (Ok b, st')
      /\ stdout st' = stdout st
      /\ (forall i, lookup w path <> Regular i -> files st' i = files st i)
      /\ (b = true <-> rewritable w st path)
      /\ (b = false -> files st' = files st)
      /\ (b = true ->
          exists i, lookup w path = Regular i
                    /\ trimmed (files st i) (files st' i)).
Proof. exact process_file_spec. Qed.

(** The file with two names: rewriting it under one name. *)
Lemma process_file_trims_linked :
  lookup linked_world (lit "src/a.c") <> Special
  /\ writes_complete linked_world
  /\ exists b st',
       process_file linked_world (lit "src/a.c") two_files = (Ok b, st')
       /\ stdout st' = stdout two_files
       /\ (forall i, lookup linked_world (lit "src/a.c") <> Regular i ->
                     files st' i = files two_files i)
       /\ (b = true <-> rewritable linked_world two_files (lit "src/a.c"))
       /\ (b = false -> files st' = files two_files)
       /\ (b = true ->
           exists i, lookup linked_world (lit "src/a.c") = Regular i
                     /\ trimmed (files two_files i) (files st' i)).
Proof.
  assert (H : lookup linked_world (lit "src/a.c") <> Special) by discriminate.
  assert (Hw : writes_complete linked_world) by (intros i t; reflexivity).
  split; [exact H|split; [exact Hw|]].
  exact (process_file_trims linked_world (lit "src/a.c") two_files H Hw).
Defined.

(** X7.  When [process_file] returns true, the lines of the file are its
    old lines without the first eleven, and without the twelfth as well
    when that one is blank, whatever lines 2 to 11 held; a file of
    eleven lines or fewer is left empty. *)
Theorem process_file_drops_eleven_lines :
  forall w path st st' f,
    process_file w path st = (Ok true, st') ->
    shows w st path = Some f ->
    exists f',
      shows w st' path = Some f'
      /\ readlines (data f')
         = skipn (dropped_lines (readlines (universal_newlines (data f))))
                 (readlines (universal_newlines (data f)))
      /\ (List.length (readlines (universal_newlines (data f))) <= 11 ->
          data f' = []).
Proof.
  intros w path st st' f H Ef; unfold shows in *.
  unfold process_file, open_ in H.
  destruct (lookup w path) as [|i|]; [discriminate Ef| |discriminate Ef].
  injection Ef as <-.
  destruct (readable (files st i)); [|discriminate H].
  destruct (is_header _); [|discriminate H].
  destruct (writable (files st i)); [|discriminate H].
  destruct (cut_short w i _); [discriminate H|].
  injection H as <-; cbn [store files]; rewrite Nat.eqb_refl.
  eexists; split; [reflexivity|]; cbn [data].
  set (lines := readlines (universal_newlines (data (files st i)))).
  split.
  - rewrite readlines_concat, without_blank_skipn; [reflexivity|].
    apply lines_ok_without_blank; rewrite after_header_skipn.
    apply lines_ok_skipn, lines_from_ok; intros [].
  - intros L; rewrite without_blank_skipn, skipn_all2; [reflexivity|].
    unfold dropped_lines.
    rewrite (proj2 (nth_error_None lines LINES_TO_REMOVE) L); exact L.
Qed.

(** The header, the blank line after it and the line of code. *)
Lemma process_file_drops_eleven_lines_sample :
  exists f',
    shows plain_world
          (snd (process_file plain_world (lit "src/a.c") two_files))
          (lit "src/a.c") = Some f'
    /\ readlines (data f')
       = skipn (dropped_lines (readlines (universal_newlines with_header)))
               (readlines (universal_newlines with_header))
    /\ (List.length (readlines (universal_newlines with_header)) <= 11 ->
        data f' = []).
Proof.
  apply (process_file_drops_eleven_lines plain_world (lit "src/a.c")
           two_files _
           {| data := with_header; readable := true; writable := true |});
    reflexivity.
Defined.

(** X12.  When the writing of the new text stops after [k] characters,
    [process_file] returns false although the file has changed: it holds
    the first [k] characters of the text that was to replace its own, and
    the error is reported on the standard error stream; nothing is printed
    on the standard output. *)
Theorem process_file_cut_short :
  forall w path st i k,
    lookup w path = Regular i ->
    readable (files st i) = true ->
    writable (files st i) = true ->
    has_header (files st i) ->
    cut_short w i (kept (files st i)) = Some k ->
    exists st',
      process_file w path st = (Ok false, st')
      /\ data (files st' i) = firstn k (kept (files st i))
      /\ (forall j, j <> i -> files st' j = files st j)
      /\ stdout st' = stdout st
      /\ stderr st'
         = stderr st
           ++ (lit "Error processing file " ++ path ++ lit ": "
               ++ strerror w true path) ++ [LF].
Proof.
  intros w path st i k El Er Ew Hh Hc.
  apply is_header_iff in Hh.
  unfold process_file, open_, first_line, kept in *.
  rewrite El, Er, Hh, Ew, Hc.
  eexists; split; [reflexivity|].
  cbn [store files stdout stderr data]; rewrite Nat.eqb_refl; cbn [data].
  split; [reflexivity|split; [|split; reflexivity]].
  intros j Hj; destruct (Nat.eqb_spec j i); [contradiction|reflexivity].
Qed.

(** The file with a header on the full disk: four characters are left of
    its line of code. *)
Lemma process_file_cut_short_full_disk :
  exists st',
    process_file full_disk_world (lit "src/a.c") two_files = (Ok false, st')
    /\ data (files st' 0) = firstn 4 (kept (files two_files 0))
    /\ (forall j, j <> 0 -> files st' j = files two_files j)
    /\ stdout st' = stdout two_files
    /\ stderr st'
       = stderr two_files
         ++ (lit "Error processing file " ++ lit "src/a.c" ++ lit ": "
             ++ strerror full_disk_world true (lit "src/a.c")) ++ [LF].
Proof.
  apply (process_file_cut_short full_disk_world (lit "src/a.c") two_files 0 4);
    try reflexivity.
  left; reflexivity.
Defined.

(** ** What the prints leave alone *)

Lemma quiet_ret A (a : A) : quiet (ret a).
Proof. intros st; reflexivity. Qed.

Lemma quiet_sys_exit A code : quiet (@sys_exit A code).
Proof. intros st; reflexivity. Qed.

Lemma quiet_bind A B (m : M A) (k : A -> M B) :
  quiet m -> (forall a, quiet (k a)) -> quiet (bind m k).
Proof.
  intros Hm Hk st; unfold bind; specialize (Hm st).
  destruct (m st) as [[a|code|e|] st1]; cbn [snd] in *; auto.
  now rewrite Hk.
Qed.

Lemma quiet_write w s : quiet (write_stdout w s).
Proof. intros st; unfold write_stdout; now destruct (stdout_encodes w s). Qed.

Lemma quiet_print_end w msg ending : quiet (print_end w msg ending).
Proof. apply quiet_bind; [|intros _]; apply quiet_write. Qed.

Lemma quiet_print w msg : quiet (print w msg).
Proof. apply quiet_print_end. Qed.

Lemma quiet_print_err msg : quiet (print_err msg).
Proof. intros st; reflexivity. Qed.

Lemma quiet_for_each X A (body : A -> X -> M A) xs : forall acc,
  (forall a x, quiet (body a x)) -> quiet (for_each xs acc body).
Proof.
  induction xs as [|x xs IH]; intros acc H; cbn [for_each].
  - apply quiet_ret.
  - apply quiet_bind; auto.
Qed.

Lemma quiet_report w t : quiet (report w t).
Proof.
  unfold report; apply quiet_bind; [apply quiet_print|intros _].
  destruct (modified_files_list t); [apply quiet_print|].
  apply quiet_bind; [apply quiet_print|intros _].
  apply quiet_for_each; intros; apply quiet_print.
Qed.

(** ** Only candidates are changed *)

Lemma trimmed_trans f f1 f2 : trimmed f f1 -> trimmed f1 f2 -> trimmed f f2.
Proof.
  intros (R1 & W1 & r1 & E1) (R2 & W2 & r2 & E2).
  split; [congruence|split; [congruence|]].
  exists (r1 ++ r2); rewrite <- app_assoc, <- E2, (universal_newlines_id (data f1));
    [exact E1|].
  intros H; apply (universal_newlines_no_cr (data f)).
  rewrite E1; apply in_or_app; now right.
Qed.

Lemma leads_to_incl w paths paths' i :
  incl paths paths' -> leads_to w paths i -> leads_to w paths' i.
Proof. intros H (p & Hp & E); exists p; auto. Qed.

Lemma target_special_dec (t : target) : {t = Special} + {t <> Special}.
Proof. destruct t; [right|right|left]; congruence. Qed.

(** Whatever is written, [process_file] changes no file but the one its
    path leads to. *)
Lemma touches_process_file w path :
  within (fun _ _ => True) w [path] (process_file w path).
Proof.
  intros st i; unfold process_file, open_, io_error, bind, print_err, ret.
  destruct (lookup w path) as [|j|] eqn:El; [now left| |now left].
  destruct (readable (files st j)); [|now left].
  destruct (is_header _); [|now left].
  destruct (writable (files st j)); [|now left].
  destruct (Nat.eq_dec i j) as [->|N].
  - right; split; [exists path; split; [now left|exact El]|exact I].
  - left; destruct (cut_short w j _); cbn [snd store files];
      destruct (Nat.eqb_spec i j); congruence.
Qed.

(** When what is written is written in full, it trims that file. *)
Lemma trims_process_file w path :
  writes_complete w -> within trimmed w [path] (process_file w path).
Proof.
  intros Hw st i; destruct (target_special_dec (lookup w path)) as [Es|Ns].
  - left; unfold process_file, open_; now rewrite Es.
  - destruct (process_file_spec w path st Ns Hw)
      as (b & st' & -> & _ & Hframe & _ & Hfalse & Htrue); cbn [snd].
    destruct b; [|left; now rewrite Hfalse].
    destruct (Htrue eq_refl) as (j & Ej & T).
    destruct (Nat.eq_dec i j) as [->|Nij].
    + right; split; [exists path; split; [now left|exact Ej]|exact T].
    + left; apply Hframe; congruence.
Qed.

Section Within.

Variable R : file -> file -> Prop.
Hypothesis R_trans : forall f f1 f2, R f f1 -> R f1 f2 -> R f f2.

Variable w : world.
Hypothesis R_process_file :
  forall path, within R w [path] (process_file w path).

Lemma within_mono paths paths' A (m : M A) :
  incl paths paths' -> within R w paths m -> within R w paths' m.
Proof.
  intros Hi H st i; destruct (H st i) as [E|[L T]]; [now left|right].
  split; [eapply leads_to_incl; eauto|exact T].
Qed.

Lemma within_quiet A (m : M A) : quiet m -> within R w [] m.
Proof. intros H st i; left; now rewrite H. Qed.

Lemma within_bind paths1 paths2 A B (m : M A) (k : A -> M B) :
  within R w paths1 m -> (forall a, within R w paths2 (k a)) ->
  within R w (paths1 ++ paths2) (bind m k).
Proof.
  intros Hm Hk st; unfold bind; specialize (Hm st).
  destruct (m st) as [[a|code|e|] st1]; cbn [snd] in *;
    try (intros i; destruct (Hm i) as [E|[L T]]; [now left|right];
         split; [eapply leads_to_incl; [apply incl_appl, incl_refl|exact L]
                |exact T]).
  specialize (Hk a st1); intros i.
  destruct (Hm i) as [E1|[L1 T1]], (Hk i) as [E2|[L2 T2]].
  - left; congruence.
  - right; rewrite <- E1; split; [|exact T2].
    eapply leads_to_incl; [apply incl_appr, incl_refl|exact L2].
  - right; rewrite E2; split; [|exact T1].
    eapply leads_to_incl; [apply incl_appl, incl_refl|exact L1].
  - right; split; [|eapply R_trans; eauto].
    eapply leads_to_incl; [apply incl_appl, incl_refl|exact L1].
Qed.

Lemma within_for_each X A (f : X -> list text) (body : A -> X -> M A) xs :
  forall acc,
    (forall a x, within R w (f x) (body a x)) ->
    within R w (flat_map f xs) (for_each xs acc body).
Proof.
  induction xs as [|x xs IH]; intros acc H; cbn [for_each flat_map].
  - apply within_quiet, quiet_ret.
  - apply within_bind; auto.
Qed.

Lemma within_check t path : within R w [path] (check w t path).
Proof.
  unfold check.
  apply within_mono with (paths := [] ++ [path] ++ []); [apply incl_refl|].
  apply within_bind; [apply within_quiet, quiet_print_end|intros _].
  apply within_bind; [apply R_process_file|intros b].
  apply within_quiet; destruct b;
    (apply quiet_bind; [apply quiet_print|intros _; apply quiet_ret]).
Qed.

End Within.

Lemma visit_check w root t name st :
  visit w root t name st
  = if selected name then check w t (join root name) st else (Ok t, st).
Proof. unfold visit; destruct (selected name); reflexivity. Qed.

Lemma candidates_names root names :
  flat_map (fun name => if selected name then [join root name] else []) names
  = map (join root) (filter selected names).
Proof.
  induction names as [|name names IH]; cbn [flat_map filter map]; [reflexivity|].
  destruct (selected name); cbn [map app]; now rewrite IH.
Qed.

Section WithinMain.

Variable R : file -> file -> Prop.
Hypothesis R_trans : forall f f1 f2, R f f1 -> R f1 f2 -> R f f2.

Variable w : world.
Hypothesis R_process_file :
  forall path, within R w [path] (process_file w path).

Lemma within_visit root t name :
  within R w (if selected name then [join root name] else [])
         (visit w root t name).
Proof.
  intros st; rewrite visit_check; destruct (selected name).
  - now apply within_check.
  - intros i; now left.
Qed.

Lemma within_scan_tree directory :
  within R w (candidates w directory) (scan_tree w directory).
Proof.
  unfold scan_tree, candidates.
  apply (within_for_each R R_trans w _ _
           (fun entry => map (join (fst (fst entry)))
                             (filter selected (snd entry)))).
  intros t entry; rewrite <- candidates_names.
  apply within_for_each; [exact R_trans|].
  intros t' name; apply within_visit.
Qed.

Lemma within_main directory :
  within R w (candidates w directory) (main w directory).
Proof.
  unfold main; destruct (isdir w directory); cbn [negb].
  - apply within_mono with (paths := [] ++ candidates w directory ++ []);
      [cbn [app]; rewrite app_nil_r; apply incl_refl|].
    apply within_bind; [exact R_trans|apply within_quiet, quiet_print|intros _].
    apply within_bind; [exact R_trans|apply within_scan_tree|intros t].
    apply within_quiet, quiet_report.
  - apply within_mono with (paths := []); [intros p []|].
    apply within_quiet, quiet_bind;
      [apply quiet_print_err|intros _; apply quiet_sys_exit].
Qed.

End WithinMain.

(** ** The loop of [main] *)

Lemma for_each_app {X A} (body : A -> X -> M A) xs : forall ys acc st,
  for_each (xs ++ ys) acc body st
  = bind (for_each xs acc body) (fun acc' => for_each ys acc' body) st.
Proof.
  induction xs as [|x xs IH]; intros ys acc st; cbn [app for_each].
  - reflexivity.
  - unfold bind.
    destruct (body acc x st) as [[acc'|code|e|] st']; try reflexivity.
    rewrite IH; reflexivity.
Qed.

Lemma for_each_visit w root names : forall t st,
  for_each names t (visit w root) st
  = for_each (map (join root) (filter selected names)) t (check w) st.
Proof.
  induction names as [|name names IH]; intros t st; cbn [filter for_each].
  - reflexivity.
  - unfold bind at 1; rewrite visit_check.
    destruct (selected name); cbn [map for_each]; [|apply IH].
    unfold bind at 1.
    destruct (check w t (join root name) st) as [[t'|code|e|] st'];
      try reflexivity; apply IH.
Qed.

Lemma for_each_walk w (entries : list (text * list text * list text)) :
  forall t st,
  for_each entries t
           (fun t entry => for_each (snd entry) t (visit w (fst (fst entry)))) st
  = for_each (flat_map (fun entry => map (join (fst (fst entry)))
                                         (filter selected (snd entry)))
                       entries) t (check w) st.
Proof.
  induction entries as [|entry entries IH]; intros t st;
    cbn [flat_map for_each]; [reflexivity|].
  rewrite for_each_app; unfold bind; rewrite for_each_visit.
  destruct (for_each _ t (check w) st) as [[t'|code|e|] st'];
    try reflexivity; apply IH.
Qed.

Lemma print_end_returns w msg ending st :
  prints_all w ->
  print_end w msg ending st
  = (Ok tt, {| files := files st;
               stdout := (stdout st ++ msg) ++ ending;
               stderr := stderr st |}).
Proof.
  intros H; unfold print_end, bind, write_stdout; now rewrite !H.
Qed.

Lemma leads_to_dec w paths i : {leads_to w paths i} + {~ leads_to w paths i}.
Proof.
  induction paths as [|p paths [IH|IH]].
  - right; intros (p & [] & _).
  - left; destruct IH as (q & Hq & E); exists q; split; [now right|exact E].
  - destruct (lookup w p) as [|j|] eqn:E.
    + right; intros (q & [<-|Hq] & Eq); [congruence|apply IH; exists q; auto].
    + destruct (Nat.eq_dec j i) as [->|Nj].
      * left; exists p; split; [now left|exact E].
      * right; intros (q & [<-|Hq] & Eq); [congruence|apply IH; exists q; auto].
    + right; intros (q & [<-|Hq] & Eq); [congruence|apply IH; exists q; auto].
Qed.

Lemma check_returns w t path st :
  prints_all w -> lookup w path <> Special ->
  exists t' st', check w t path st = (Ok t', st').
Proof.
  intros Hpr Hreg; unfold check, bind at 1.
  rewrite print_end_returns by exact Hpr.
  unfold bind at 1.
  match goal with |- context [process_file w path ?s] =>
    destruct (process_file_returns w path s Hreg) as (b & st2 & ->)
  end.
  destruct b; unfold bind, print; rewrite print_end_returns by exact Hpr;
    unfold ret; eauto.
Qed.

Lemma check_loop_returns w paths : forall t st,
  prints_all w -> regular w paths ->
  exists t' st', for_each paths t (check w) st = (Ok t', st').
Proof.
  induction paths as [|path paths IH]; intros t st Hpr Hreg; cbn [for_each].
  - unfold ret; eauto.
  - inversion Hreg as [|? ? Hr Hreg']; subst.
    destruct (check_returns w t path st Hpr Hr) as (t1 & st1 & E1).
    unfold bind; rewrite E1; now apply IH.
Qed.

Lemma scan_tree_returns w directory st :
  prints_all w -> regular w (candidates w directory) ->
  exists t st', scan_tree w directory st = (Ok t, st').
Proof.
  intros Hpr Hreg; unfold scan_tree; rewrite for_each_walk.
  now apply check_loop_returns.
Qed.

Lemma check_step w all st0 done t st path :
  prints_all w -> writes_complete w -> lookup w path <> Special -> In path all ->
  scanned w all st0 done t st ->
  exists t' st',
    check w t path st = (Ok t', st')
    /\ scanned w all st0 (done ++ [path]) t' st'.
Proof.
  intros Hpr Hwr Hreg Hin [Ha Hp Hm Hs Hc Hu]; unfold check, bind at 1.
  rewrite print_end_returns by exact Hpr.
  set (st1 := {| files := files st; stdout := _; stderr := stderr st |}).
  unfold bind at 1.
  destruct (process_file_spec w path st1 Hreg Hwr)
    as (b & st2 & -> & _ & Hframe & Hb & Hfalse & Htrue).
  change (files st1) with (files st) in *.
  assert (Hst : rewritable w st1 path <-> rewritable w st path) by reflexivity.
  rewrite Hst in Hb; clear Hst.
  assert (Hall : incl (done ++ [path]) all).
  { intros q Hq; apply in_app_or in Hq as [Hq|[<-|[]]]; auto. }
  (* what the file of [path] held at the start *)
  assert (Hstart : forall i, lookup w path = Regular i ->
                             ~ leads_to w (modified_files_list t) i ->
                             files st i = files st0 i) by (intros; auto).
  destruct b; unfold bind, print; rewrite print_end_returns by exact Hpr;
    unfold ret; do 2 eexists; (split; [reflexivity|]).
  - destruct (proj1 Hb eq_refl) as (i & Ei & Hr & Hw & Hh).
    assert (Hre : rewritable w st0 path).
    { destruct (leads_to_dec w (modified_files_list t) i) as [(q & Hq & Eq)|Hn].
      - destruct (Hs q Hq) as [_ (j & Ej & Hj)].
        exists i; split; [exact Ei|]; congruence.
      - exists i; rewrite <- (Hu i Hn); auto. }
    constructor; cbn [modified_files_count processed_files_count
                        modified_files_list files]; auto.
    + rewrite length_app, Hp; cbn [List.length]; lia.
    + rewrite length_app, Hm; cbn [List.length]; lia.
    + intros p Hq; apply in_app_or in Hq as [Hq|[<-|[]]].
      * destruct (Hs p Hq); split; [apply in_or_app; now left|assumption].
      * split; [apply in_or_app; right; now left|exact Hre].
    + intros Hun p Hq Hrp; apply in_or_app.
      apply in_app_or in Hq as [Hq|[<-|[]]]; [left; now apply Hc|right; now left].
    + intros j Hn.
      rewrite Hframe.
      * apply Hu; intros (q & Hq & Eq); apply Hn.
        exists q; split; [apply in_or_app; now left|exact Eq].
      * intros Ej; apply Hn; exists path; split;
          [apply in_or_app; right; now left|exact Ej].
  - specialize (Hfalse eq_refl).
    constructor; cbn [modified_files_count processed_files_count
                        modified_files_list files]; auto.
    + rewrite length_app, Hp; cbn [List.length]; lia.
    + intros p Hq; destruct (Hs p Hq); split; [apply in_or_app; now left|assumption].
    + intros Hun p Hq Hrp.
      apply in_app_or in Hq as [Hq|[<-|[]]]; [now apply Hc|].
      destruct Hrp as (i & Ei & Hi).
      destruct (leads_to_dec w (modified_files_list t) i) as [(q & Hq & Eq)|Hn].
      * destruct (Hs q Hq) as [Hd _].
        rewrite (Hun path q i Hin (Ha q Hd) Ei Eq); exact Hq.
      * exfalso; assert (B : false = true); [|discriminate B].
        apply Hb; exists i; rewrite (Hu i Hn); auto.
    + intros j Hn; rewrite Hfalse; now apply Hu.
Qed.

Lemma check_loop w all st0 paths : forall done t st,
  prints_all w -> writes_complete w -> regular w paths -> incl paths all ->
  scanned w all st0 done t st ->
  exists t' st',
    for_each paths t (check w) st = (Ok t', st')
    /\ scanned w all st0 (done ++ paths) t' st'.
Proof.
  induction paths as [|path paths IH]; intros done t st Hpr Hwr Hreg Hin H;
    cbn [for_each].
  - exists t, st; rewrite app_nil_r; auto.
  - inversion Hreg as [|? ? Hr Hreg']; subst.
    destruct (check_step w all st0 done t st path Hpr Hwr Hr
                (Hin path (or_introl eq_refl)) H) as (t1 & st1 & E1 & H1).
    destruct (IH (done ++ [path]) t1 st1 Hpr Hwr Hreg'
                (fun q Hq => Hin q (or_intror Hq)) H1) as (t2 & st2 & E2 & H2).
    exists t2, st2; unfold bind; rewrite E1, E2, <- app_assoc in *; auto.
Qed.

Lemma scan_tree_scanned w directory st :
  prints_all w -> writes_complete w -> regular w (candidates w directory) ->
  exists t st',
    scan_tree w directory st = (Ok t, st')
    /\ scanned w (candidates w directory) st (candidates w directory) t st'.
Proof.
  intros Hpr Hwr Hreg; unfold scan_tree; rewrite for_each_walk.
  apply (check_loop w (candidates w directory) st (candidates w directory) []);
    auto using incl_refl.
  constructor; cbn [modified_files_count processed_files_count
                      modified_files_list List.length In];
    try reflexivity; auto; try tauto.
  intros p [].
Qed.

(** X8.  When the standard output encodes what is printed, what is
    written is written in full, no candidate is a special file and no two
    candidates are links to one file, the loop of [main] ends with its three variables set: the count of scanned
    files is the number of candidates, the count of modified files is the
    length of the list of modified files, the paths listed are exactly the
    candidates that could be read and written and began with a header line
    when the loop started, and every file no listed path leads to is as it
    was. *)
Theorem scan_tree_lists_the_rewritten :
  forall w directory st,
    prints_all w ->
    writes_complete w ->
    regular w (candidates w directory) ->
    unlinked w (candidates w directory) ->
    exists t st',
      scan_tree w directory st = (Ok t, st')
      /\ processed_files_count t
         = Z.of_nat (List.length (candidates w directory))
      /\ modified_files_count t
         = Z.of_nat (List.length (modified_files_list t))
      /\ (forall p, In p (modified_files_list t)
                    <-> In p (candidates w directory) /\ rewritable w st p)
      /\ (forall i, ~ leads_to w (modified_files_list t) i ->
                    files st' i = files st i).
Proof.
  intros w directory st Hpr Hwr Hreg Hun.
  destruct (scan_tree_scanned w directory st Hpr Hwr Hreg)
    as (t & st' & E & [_ Hp Hm Hs Hc Hu]).
  exists t, st'; split; [exact E|split; [exact Hp|split; [exact Hm|]]].
  split; [|exact Hu].
  intros p; split; [apply Hs|intros [Hin Hr]; now apply Hc].
Qed.

(** The tree of three names, two of them candidates. *)
Lemma scan_tree_lists_the_rewritten_plain :
  prints_all plain_world
  /\ writes_complete plain_world
  /\ regular plain_world (candidates plain_world (lit "src"))
  /\ unlinked plain_world (candidates plain_world (lit "src"))
  /\ exists t st',
       scan_tree plain_world (lit "src") two_files = (Ok t, st')
       /\ processed_files_count t
          = Z.of_nat (List.length (candidates plain_world (lit "src")))
       /\ modified_files_count t
          = Z.of_nat (List.length (modified_files_list t))
       /\ (forall p, In p (modified_files_list t)
                     <-> In p (candidates plain_world (lit "src"))
                         /\ rewritable plain_world two_files p)
       /\ (forall i, ~ leads_to plain_world (modified_files_list t) i ->
                     files st' i = files two_files i).
Proof.
  assert (Hpr : prints_all plain_world) by (intros t; reflexivity).
  assert (Hwr : writes_complete plain_world) by (intros i t; reflexivity).
  assert (Hreg : regular plain_world (candidates plain_world (lit "src")))
    by (repeat constructor; discriminate).
  assert (Hun : unlinked plain_world (candidates plain_world (lit "src"))).
  { intros p q i [<-|[<-|[]]] [<-|[<-|[]]] Ep Eq; try reflexivity;
      vm_compute in Ep, Eq; congruence. }
  split; [exact Hpr|split; [exact Hwr|split; [exact Hreg|split; [exact Hun|]]]].
  exact (scan_tree_lists_the_rewritten plain_world (lit "src") two_files
           Hpr Hwr Hreg Hun).
Defined.

Lemma report_returns w t st :
  prints_all w -> exists st', report w t st = (Ok tt, st').
Proof.
  intros Hpr; unfold report, print, bind at 1.
  rewrite print_end_returns by exact Hpr.
  destruct (modified_files_list t) as [|p ps];
    [rewrite print_end_returns by exact Hpr; eauto|].
  unfold bind at 1; rewrite print_end_returns by exact Hpr.
  match goal with |- context [for_each ?l tt ?body ?s] =>
    generalize s; generalize l end.
  intros l; induction l as [|x l IH]; intros s; cbn [for_each];
    [unfold ret; eauto|].
  unfold bind at 1; rewrite print_end_returns by exact Hpr; apply IH.
Qed.

(** X9.  Without the directory, [main] ends the run with status 1, having
    touched no file and printed nothing on the standard output.  With it,
    and however the run ends, every file is then as it was or is a file
    that a candidate of the walk leads to (a listed name with one of the
    five extensions, joined to its directory); when what is written is
    written in full, such a file has lost a start of its text and nothing
    else; and [main] returns when the standard output encodes what is
    printed and no candidate is a special file. *)
Theorem main_only_trims_candidates :
  forall w directory st,
    exists r st',
      main w directory st = (r, st')
      /\ only_touches w (candidates w directory) st st'
      /\ (writes_complete w -> only_trims w (candidates w directory) st st')
      /\ (isdir w directory = false ->
          r = SysExit 1 /\ files st' = files st /\ stdout st' = stdout st)
      /\ (isdir w directory = true ->
          prints_all w -> regular w (candidates w directory) ->
          r = Ok tt).
Proof.
  intros w directory st.
  destruct (main w directory st) as [r st'] eqn:E; exists r, st'.
  split; [reflexivity|split; [|split; [|split]]].
  - pose proof (within_main (fun _ _ => True) (fun _ _ _ _ _ => I) w
                  (touches_process_file w) directory st) as T.
    now rewrite E in T.
  - intros Hwr.
    pose proof (within_main trimmed trimmed_trans w
                  (fun path => trims_process_file w path Hwr) directory st)
      as T.
    now rewrite E in T.
  - intros Hd; unfold main in E; rewrite Hd in E; cbn [negb] in E.
    injection E as <- <-; repeat split.
  - intros Hd Hpr Hreg; unfold main in E; rewrite Hd in E; cbn [negb] in E.
    unfold print, bind at 1 in E; rewrite print_end_returns in E by exact Hpr.
    unfold bind at 1 in E.
    match type of E with context [scan_tree w directory ?s] =>
      destruct (scan_tree_returns w directory s Hpr Hreg) as (t & st2 & E2)
    end.
    rewrite E2 in E.
    destruct (report_returns w t st2 Hpr) as (st3 & E3).
    rewrite E3 in E; now injection E as <- _.
Qed.

(** ** The files [main] looks at *)

Lemma rfind_from_none c s : forall i last,
  ~ In c s -> rfind_from c s i last = last.
Proof.
  induction s as [|x s IH]; intros i last H; cbn [rfind_from]; [reflexivity|].
  rewrite IH by (intros Hin; apply H; now right).
  destruct (Ascii.eqb_spec x c) as [->|_]; [exfalso; apply H; now left|reflexivity].
Qed.

Lemma rfind_from_last c stem e : forall i last,
  ~ In c e ->
  rfind_from c (stem ++ c :: e) i last = (i + Z.of_nat (List.length stem))%Z.
Proof.
  induction stem as [|x stem IH]; intros i last H; cbn [app rfind_from].
  - rewrite rfind_from_none by exact H.
    rewrite Ascii.eqb_refl; cbn [List.length]; lia.
  - rewrite IH by exact H; cbn [List.length]; lia.
Qed.

Lemma rfind_plain name : plain_name name -> rfind "/" name = (-1)%Z.
Proof.
  intros H; apply rfind_from_none; intros Hin.
  unfold plain_name in H; rewrite forallb_forall in H.
  specialize (H _ Hin); now rewrite Ascii.eqb_refl in H.
Qed.

Lemma has_stem_iff s :
  has_stem s = true <-> exists c, In c s /\ c <> "."%char.
Proof.
  induction s as [|x s IH]; cbn [has_stem].
  - split; [discriminate|intros (c & [] & _)].
  - destruct (Ascii.eqb_spec x ".") as [->|Nx]; cbn [negb].
    + rewrite IH; split; intros (c & Hc & Nc); exists c; split; auto.
      * now right.
      * destruct Hc as [<-|Hc]; [congruence|exact Hc].
    + split; [intros _; exists x; split; [now left|exact Nx]|reflexivity].
Qed.

Lemma lower_char_dot c : lower_char c = "."%char -> c = "."%char.
Proof.
  destruct c as [[|] [|] [|] [|] [|] [|] [|] [|]]; vm_compute;
    intros H; try reflexivity; discriminate H.
Qed.

Lemma lower_no_dot e : ~ In "."%char (lower e) -> ~ In "."%char e.
Proof.
  intros H Hin; apply H.
  change "."%char with (lower_char "."); now apply in_map.
Qed.

Lemma allowed_iff ext : allowed ext = true <-> In ext ALLOWED_EXTENSIONS.
Proof.
  unfold allowed; rewrite existsb_exists; split.
  - intros (x & Hx & E); apply text_eqb_eq in E; now subst.
  - intros H; exists ext; split; [exact H|apply text_eqb_refl].
Qed.

Lemma allowed_shape ext :
  In (lower ext) ALLOWED_EXTENSIONS ->
  exists e, ext = "."%char :: e /\ ~ In "."%char e.
Proof.
  intros H; destruct ext as [|a e];
    [cbn in H; repeat destruct H as [H|H]; try discriminate H; contradiction|].
  exists e; cbn [lower map] in H; fold (lower e) in H.
  assert (G : lower_char a = "."%char /\ ~ In "."%char (lower e)).
  { cbv [ALLOWED_EXTENSIONS lit list_ascii_of_string In] in H.
    repeat destruct H as [H|H]; try contradiction;
      injection H as <- <-; (split; [reflexivity|]);
      cbn [In]; intros G; repeat destruct G as [G|G]; try discriminate G;
        contradiction. }
  destruct G as [Ga Ge]; split;
    [f_equal; now apply lower_char_dot|now apply lower_no_dot].
Qed.

(** X10.  A name of the walk is looked at exactly when it ends with one
    of the five extensions, in upper or lower case, and a character other
    than the dot stands before that extension: a name made of dots and an
    extension alone is passed over. *)
Theorem selected_by_extension :
  forall name,
    plain_name name ->
    (selected name = true
     <-> exists stem ext,
           name = stem ++ ext
           /\ In (lower ext) ALLOWED_EXTENSIONS
           /\ exists c, In c stem /\ c <> "."%char).
Proof.
  intros name Hp; unfold selected, splitext; rewrite (rfind_plain name Hp).
  change (-1 + 1)%Z with 0%Z; change (Z.to_nat 0) with 0; cbn [skipn].
  rewrite Z.sub_0_r; split.
  - destruct (_ <? _)%Z;
      [|cbn [snd]; rewrite allowed_iff; intros H;
        apply allowed_shape in H as (e & E & _); discriminate E].
    destruct (has_stem _) eqn:Es;
      [|cbn [snd]; rewrite allowed_iff; intros H;
        apply allowed_shape in H as (e & E & _); discriminate E].
    cbn [snd]; rewrite allowed_iff; intros H.
    exists (firstn (Z.to_nat (rfind "." name)) name),
           (skipn (Z.to_nat (rfind "." name)) name).
    split; [now rewrite firstn_skipn|split; [exact H|now apply has_stem_iff]].
  - intros (stem & ext & -> & Hext & Hstem).
    destruct (allowed_shape ext Hext) as (e & -> & He).
    unfold rfind; rewrite rfind_from_last by exact He.
    rewrite Z.add_0_l, Nat2Z.id.
    replace (_ <? _)%Z with true by (symmetry; apply Z.ltb_lt; lia).
    rewrite firstn_app, Nat.sub_diag, firstn_all; cbn [firstn]; rewrite app_nil_r.
    rewrite (proj2 (has_stem_iff stem) Hstem); cbn [snd].
    rewrite skipn_app, Nat.sub_diag, skipn_all; cbn [skipn app].
    now apply allowed_iff.
Qed.

(** A name with its extension in capitals. *)
Lemma selected_by_extension_capitals :
  selected (lit "Main.CPP") = true
  <-> exists stem ext,
        lit "Main.CPP" = stem ++ ext
        /\ In (lower ext) ALLOWED_EXTENSIONS
        /\ exists c, In c stem /\ c <> "."%char.
Proof. apply (selected_by_extension (lit "Main.CPP")); reflexivity. Defined.

End HeaderRemoverFacts.
